(** * Japanese-N4 study API: sanitizer, cascading writer, row-to-tree reconstructor

    A shallow embedding of the two Express route files [index.js] and [new.js]:
    the fence-stripping of the generator's text, the transactional cascading
    inserts, the flat-row to nested-JSON transforms and the question sampling.

    Conventions of the embedding.
    - A JavaScript string is the list of its UTF-16 code units ([jsstring])
      where the code inspects characters (the sanitizer), and a [string]
      where it only moves text around (documents, rows).
    - A column read from the store is a number or [null] ([sqlint]) or a text
      or [null] ([sqltext]).
    - A plain JavaScript object used as a map from identifiers to nodes is an
      association list in creation order ([JsObject]), with the property
      enumeration order of the language ([JsObject.values]).
    - [await]ed store statements are steps of a state-and-exception monad
      over the transaction's working tables ([M]); a statement that rejects
      raises its message, as the [try]/[catch] of the routes sees it.

    The file has two parts: the embedding (definitions only), then the
    properties. *)

From Stdlib Require Import String Ascii.
From Stdlib Require Import ZArith NArith List Bool Lia Permutation Sorted.
Import ListNotations.

Local Open Scope Z_scope.
Set Implicit Arguments.

(* ================================================================== *)
(** * Part I: the embedding *)

(* ------------------------------------------------------------------ *)
(** ** Store values read back into JavaScript *)

Definition sqlint := option Z.
Definition sqltext := option string.

(** [if (row.ExampleId)]: [null] and [0] are falsy, every other number is truthy. *)
Definition truthy (v : sqlint) : bool :=
  match v with
  | Some n => negb (n =? 0)
  | None => false
  end.

(* ------------------------------------------------------------------ *)
(** ** ORDER BY: a stable insertion sort on a boolean order *)

Section OrderBy.
Variable A : Type.
Variable le : A -> A -> bool.

Fixpoint insert_by (a : A) (l : list A) : list A :=
  match l with
  | [] => [a]
  | b :: r => if le a b then a :: b :: r else b :: insert_by a r
  end.

Fixpoint order_by (l : list A) : list A :=
  match l with
  | [] => []
  | a :: r => insert_by a (order_by r)
  end.

(** Adjacent elements are in order. *)
Fixpoint ordered (l : list A) : bool :=
  match l with
  | [] => true
  | a :: r => match r with
              | [] => true
              | b :: _ => le a b && ordered r
              end
  end.
End OrderBy.

(** SQL Server sorts NULL before every number in an ascending ORDER BY. *)
Definition compare_sqlint (a b : sqlint) : comparison :=
  match a, b with
  | None, None => Eq
  | None, Some _ => Lt
  | Some _, None => Gt
  | Some x, Some y => x ?= y
  end.

(* ------------------------------------------------------------------ *)
(** ** Identifiers in order of first appearance *)

Definition add_new (acc : list Z) (k : Z) : list Z :=
  if existsb (Z.eqb k) acc then acc else acc ++ [k].

Definition first_seen (l : list Z) : list Z := fold_left add_new l [].

(** The identifiers of a column that pass the truthiness test. *)
Fixpoint present (l : list sqlint) : list Z :=
  match l with
  | [] => []
  | Some n :: r => if n =? 0 then present r else n :: present r
  | None :: r => present r
  end.

(** [arr[i]] mutated in place. *)
Fixpoint update_nth (A : Type) (i : nat) (f : A -> A) (l : list A) : list A :=
  match l, i with
  | [], _ => []
  | a :: r, O => f a :: r
  | a :: r, S j => a :: update_nth j f r
  end.

(** The first element that satisfies [p] ([Array.prototype.find]) mutated in place. *)
Fixpoint update_first (A : Type) (p : A -> bool) (f : A -> A) (l : list A) : list A :=
  match l with
  | [] => []
  | a :: r => if p a then f a :: r else a :: update_first p f r
  end.

(* ------------------------------------------------------------------ *)
(** ** A plain object [{}] keyed by store identifiers

    [grammarMap[row.GrammarId]] turns the number into its decimal string; two
    integers give the same property exactly when they are equal, so the
    integer itself stands for the key.  The list keeps the properties in the
    order of their creation. *)

Module JsObject.
Section Obj.
Variable V : Type.

Definition t := list (Z * V).

Definition empty : t := [].

Fixpoint get (o : t) (k : Z) : option V :=
  match o with
  | [] => None
  | (k', v) :: r => if k' =? k then Some v else get r k
  end.

(** [!o[k]] for object-valued properties is [negb (has o k)]. *)
Definition has (o : t) (k : Z) : bool :=
  match get o k with Some _ => true | None => false end.

(** [o[k] = v]. *)
Fixpoint set (o : t) (k : Z) (v : V) : t :=
  match o with
  | [] => [(k, v)]
  | (k', v') :: r => if k' =? k then (k, v) :: r else (k', v') :: set r k v
  end.

(** The object held at [o[k]] mutated in place. *)
Fixpoint alter (f : V -> V) (o : t) (k : Z) : t :=
  match o with
  | [] => []
  | (k', v) :: r => if k' =? k then (k', f v) :: r else (k', v) :: alter f r k
  end.

(** An array index is a canonical numeric string below [2^32 - 1]. *)
Definition is_index (k : Z) : bool := (0 <=? k) && (k <? 4294967295).

Definition key_le (a b : Z * V) : bool := fst a <=? fst b.

Definition keys (o : t) : list Z := map fst o.

(** [Object.values(o)]: the own properties whose keys are array indices come
    first, in ascending numeric order, then the other string keys in order of
    creation (OrdinaryOwnPropertyKeys). *)
Definition values (o : t) : list V :=
  map snd (order_by key_le (filter (fun p => is_index (fst p)) o))
  ++ map snd (filter (fun p => negb (is_index (fst p))) o).
End Obj.
End JsObject.

(* ------------------------------------------------------------------ *)
(** ** The HTTP outcome of a route *)

Inductive response (A : Type) : Type :=
| Json (body : A)
| Status404
| Status500 (error : string).
Arguments Json {A} body.
Arguments Status404 {A}.
Arguments Status500 {A} error.

(* ------------------------------------------------------------------ *)
(** ** Statements inside a transaction

    [db] is what a transaction works on.  [faults] is the list of outcomes the
    store has in stock for the statements to come: [Some msg] makes the next
    statement reject with [msg] (constraint violation, lost connection,
    timeout), [None] or an exhausted list lets it run. *)

Section Transaction.
Variable db : Type.

Record txstate : Type := { work : db; faults : list (option string) }.

Definition M (A : Type) : Type := txstate -> (string + A) * txstate.

Definition ret (A : Type) (a : A) : M A := fun t => (inr a, t).

Definition throw (A : Type) (msg : string) : M A := fun t => (inl msg, t).

Definition bind (A B : Type) (m : M A) (k : A -> M B) : M B :=
  fun t => match m t with
           | (inr a, t') => k a t'
           | (inl msg, t') => (inl msg, t')
           end.

(** [await new sql.Request(tx)...query(...)]. *)
Definition statement (A : Type) (run : db -> A * db) : M A :=
  fun t => match faults t with
           | Some msg :: fs => (inl msg, {| work := work t; faults := fs |})
           | None :: fs => let (a, d) := run (work t) in
                           (inr a, {| work := d; faults := fs |})
           | [] => let (a, d) := run (work t) in
                   (inr a, {| work := d; faults := [] |})
           end.

(** [for (const a of l) { await body(a) }]. *)
Fixpoint for_of (A : Type) (l : list A) (body : A -> M unit) : M unit :=
  match l with
  | [] => ret tt
  | a :: r => bind (body a) (fun _ => for_of r body)
  end.
End Transaction.

Arguments ret {db A} a.
Arguments throw {db A} msg.
Arguments bind {db A B} m k.
Arguments statement {db A} run.
Arguments for_of {db A} l body.

Notation "x <- m ;; k" := (bind m (fun x => k))
  (at level 61, m at next level, right associativity).

(** The first rejection among the next [n] statements, if there is one. *)
Fixpoint first_fault (n : nat) (fs : list (option string)) : option string :=
  match n, fs with
  | O, _ => None
  | S _, [] => None
  | S _, Some msg :: _ => Some msg
  | S m, None :: r => first_fault m r
  end.

(** [m] issues [n] statements: it raises the first rejection among them, and
    when there is none it returns with those [n] outcomes used up. *)
Definition charges (db A : Type) (m : M db A) (n : nat) : Prop :=
  forall t,
    match first_fault n (faults t) with
    | Some msg => exists t', m t = (inl msg, t')
    | None => exists a t', m t = (inr a, t') /\ faults t' = skipn n (faults t)
    end.

(** Whatever its outcome, [m] takes the working state to one related to it
    by [R]. *)
Definition steps (db A : Type) (R : db -> db -> Prop) (m : M db A) : Prop :=
  forall t, R (work t) (work (snd (m t))).

(* ------------------------------------------------------------------ *)
(** ** Response Sanitizer ([index.js] 88-96, [new.js] 82-88 and 241-247) *)

Module Sanitizer.
Local Open Scope N_scope.

(** A JavaScript string as its UTF-16 code units. *)
Definition jsstring := list N.

(** Three backticks. *)
Definition fence : jsstring := [96; 96; 96].

(** The literal part of [/```json.../]: the fence, then j s o n. *)
Definition json_open : jsstring := fence ++ [106; 115; 111; 110].

(** The class [\s], which is also what [String.prototype.trim] strips:
    TAB LF VT FF CR, SP, NBSP, U+1680, U+2000..U+200A, LS, PS, U+202F,
    U+205F, U+3000, U+FEFF. *)
Definition is_space (c : N) : bool :=
  ((9 <=? c) && (c <=? 13)) || (c =? 32) || (c =? 160) || (c =? 5760)
  || ((8192 <=? c) && (c <=? 8202)) || (c =? 8232) || (c =? 8233)
  || (c =? 8239) || (c =? 8287) || (c =? 12288) || (c =? 65279).

(** Canonicalize of the [i] flag (no [u] flag): a code unit is compared through
    its upper case, and a code unit outside ASCII never folds to an ASCII one,
    so against the ASCII literals of the two patterns only a..z fold. *)
Definition canonicalize (c : N) : N :=
  if (97 <=? c) && (c <=? 122) then c - 32 else c.

Fixpoint starts_with (p t : jsstring) : bool :=
  match p, t with
  | [], _ => true
  | _ :: _, [] => false
  | a :: p', c :: t' => (a =? c) && starts_with p' t'
  end.

Fixpoint starts_with_ci (p t : jsstring) : bool :=
  match p, t with
  | [], _ => true
  | _ :: _, [] => false
  | a :: p', c :: t' => (canonicalize a =? canonicalize c) && starts_with_ci p' t'
  end.

(** [\s*], greedy. *)
Fixpoint skip_spaces (t : jsstring) : jsstring :=
  match t with
  | [] => []
  | c :: r => if is_space c then skip_spaces r else t
  end.

(** [([\s\S]*?)```]: the shortest run of code units up to a closing fence;
    [None] when no fence follows. *)
Fixpoint until_fence (t : jsstring) : option jsstring :=
  match t with
  | [] => None
  | c :: r => if starts_with fence t then Some []
              else option_map (cons c) (until_fence r)
  end.

(** [geminiText.match(/```json\s*([\s\S]*?)```/i)]: group 1 of the leftmost
    match.  White space holds no backtick, so the closing fence found after
    the greedy [\s*] is the first one after the tag and [\s*] never has to
    give characters back. *)
Fixpoint match_json_fence (t : jsstring) : option jsstring :=
  match t with
  | [] => None
  | _ :: r =>
      match (if starts_with_ci json_open t
             then until_fence (skip_spaces (skipn 7 t)) else None) with
      | Some inner => Some inner
      | None => match_json_fence r
      end
  end.

(** [geminiText.match(/```([\s\S]*?)```/i)]: group 1 of the leftmost match. *)
Fixpoint match_any_fence (t : jsstring) : option jsstring :=
  match t with
  | [] => None
  | _ :: r =>
      match (if starts_with fence t then until_fence (skipn 3 t) else None) with
      | Some inner => Some inner
      | None => match_any_fence r
      end
  end.

(** [jsonMatch = a || b]; a match object is truthy also when its group is empty. *)
Definition jsonMatch (geminiText : jsstring) : option jsstring :=
  match match_json_fence geminiText with
  | Some inner => Some inner
  | None => match_any_fence geminiText
  end.

Definition trim (t : jsstring) : jsstring :=
  rev (skip_spaces (rev (skip_spaces t))).

(** [index.js]: [if (jsonMatch) ... jsonMatch[1].trim() else geminiText.trim()]. *)
Definition sanitize_index (geminiText : jsstring) : jsstring :=
  match jsonMatch geminiText with
  | Some inner => trim inner
  | None => trim geminiText
  end.

(** [new.js], both routes: [if (jsonMatch) geminiText = jsonMatch[1].trim()],
    with no [else]. *)
Definition sanitize_new (geminiText : jsstring) : jsstring :=
  match jsonMatch geminiText with
  | Some inner => trim inner
  | None => geminiText
  end.

(** The text [inner] holds no fence, not even one completed by the first two
    backticks of the fence that closes it. *)
Definition fence_free (inner : jsstring) : Prop :=
  until_fence (inner ++ [96; 96]) = None.

(** An unfenced text with white space around it: a space, [[]], a line feed. *)
Definition unfenced_padded : jsstring := [32; 91; 93; 10].

(** The text of an ASCII literal, for examples. *)
Definition of_string (s : string) : jsstring :=
  map (fun a => N_of_ascii a) (list_ascii_of_string s).
End Sanitizer.

(* ------------------------------------------------------------------ *)
(** ** Grammar points ([index.js]) *)

Module Grammar.

(** *** The document the generator is asked for *)

Record Vocab : Type :=
  { word : string; vocab_romaji : string; vocab_meaning : string }.

Record Example : Type :=
  { japanese : string; romaji : string; english : string; vocab : list Vocab }.

Record GrammarDocument : Type :=
  { concept : string; meaning : string; details : string;
    examples : list Example }.

(** *** The three tables and their identity counters *)

Record GrammarPointsRow : Type :=
  { gp_GrammarId : Z; gp_Concept : sqltext; gp_Meaning : sqltext;
    gp_Details : sqltext }.

Record ExamplesRow : Type :=
  { ex_ExampleId : Z; ex_GrammarId : Z; ex_Japanese : sqltext;
    ex_Romaji : sqltext; ex_English : sqltext }.

Record VocabularyRow : Type :=
  { vo_VocabId : Z; vo_ExampleId : Z; vo_Word : sqltext; vo_Romaji : sqltext;
    vo_Meaning : sqltext }.

Record tables : Type :=
  { GrammarPoints : list GrammarPointsRow;
    Examples : list ExamplesRow;
    Vocabulary : list VocabularyRow }.

(** The value the next insert into each table will be given.  A rollback does
    not hand identity values back. *)
Record identities : Type :=
  { next_GrammarId : Z; next_ExampleId : Z; next_VocabId : Z }.

Record store : Type := { tabs : tables; idents : identities }.

(** *** Cascading Writer: POST /api/gemini, lines 106-164 *)

(** [INSERT INTO GrammarPoints ... OUTPUT INSERTED.GrammarId]. *)
Definition insert_GrammarPoints (Concept Meaning Details : string) : M store Z :=
  statement (fun s =>
    let id := next_GrammarId (idents s) in
    (id,
     {| tabs := {| GrammarPoints := GrammarPoints (tabs s) ++
                     [{| gp_GrammarId := id; gp_Concept := Some Concept;
                         gp_Meaning := Some Meaning; gp_Details := Some Details |}];
                   Examples := Examples (tabs s);
                   Vocabulary := Vocabulary (tabs s) |};
        idents := {| next_GrammarId := id + 1;
                     next_ExampleId := next_ExampleId (idents s);
                     next_VocabId := next_VocabId (idents s) |} |})).

(** [INSERT INTO Examples ... OUTPUT INSERTED.ExampleId]. *)
Definition insert_Examples (GrammarId : Z) (Japanese Romaji English : string)
  : M store Z :=
  statement (fun s =>
    let id := next_ExampleId (idents s) in
    (id,
     {| tabs := {| GrammarPoints := GrammarPoints (tabs s);
                   Examples := Examples (tabs s) ++
                     [{| ex_ExampleId := id; ex_GrammarId := GrammarId;
                         ex_Japanese := Some Japanese; ex_Romaji := Some Romaji;
                         ex_English := Some English |}];
                   Vocabulary := Vocabulary (tabs s) |};
        idents := {| next_GrammarId := next_GrammarId (idents s);
                     next_ExampleId := id + 1;
                     next_VocabId := next_VocabId (idents s) |} |})).

(** [INSERT INTO Vocabulary ...], no OUTPUT clause. *)
Definition insert_Vocabulary (ExampleId : Z) (Word VocabRomaji Meaning : string)
  : M store unit :=
  statement (fun s =>
    let id := next_VocabId (idents s) in
    (tt,
     {| tabs := {| GrammarPoints := GrammarPoints (tabs s);
                   Examples := Examples (tabs s);
                   Vocabulary := Vocabulary (tabs s) ++
                     [{| vo_VocabId := id; vo_ExampleId := ExampleId;
                         vo_Word := Some Word; vo_Romaji := Some VocabRomaji;
                         vo_Meaning := Some Meaning |}] |};
        idents := {| next_GrammarId := next_GrammarId (idents s);
                     next_ExampleId := next_ExampleId (idents s);
                     next_VocabId := id + 1 |} |})).

(** The body of [for (const example of geminiData.examples)]. *)
Definition insert_example (grammarId : Z) (example : Example) : M store unit :=
  exampleId <- insert_Examples grammarId (japanese example) (romaji example)
                 (english example) ;;
  for_of (vocab example) (fun v =>
    insert_Vocabulary exampleId (word v) (vocab_romaji v) (vocab_meaning v)).

(** Lines 111-149, between [tx.begin()] and [tx.commit()]. *)
Definition cascading_insert (geminiData : GrammarDocument) : M store Z :=
  grammarId <- insert_GrammarPoints (concept geminiData) (meaning geminiData)
                 (details geminiData) ;;
  _ <- for_of (examples geminiData) (insert_example grammarId) ;;
  ret grammarId.

(** The route from the parsed document on.  [geminiData = None] is a
    [JSON.parse] that threw: line 102 raises before any connection is opened,
    so there is no transaction to roll back.  [tx.begin()], [tx.commit()] and
    [tx.rollback()] themselves are taken to succeed. *)
Definition post_gemini (s : store) (fs : list (option string))
    (geminiData : option GrammarDocument)
  : response (Z * GrammarDocument) * store :=
  match geminiData with
  | None => (Status500 "Gemini response is not valid JSON", s)
  | Some d =>
      match cascading_insert d {| work := s; faults := fs |} with
      | (inr grammarId, t) => (Json (grammarId, d), work t)
      | (inl msg, t) =>
          (Status500 msg, {| tabs := tabs s; idents := idents (work t) |})
      end
  end.

(** The statements a document costs: one per grammar point, example and vocab. *)
Definition inserts_of_example (e : Example) : nat := S (length (vocab e)).

Fixpoint inserts_of_examples (l : list Example) : nat :=
  match l with
  | [] => O
  | e :: r => (inserts_of_example e + inserts_of_examples r)%nat
  end.

Definition inserts_of (d : GrammarDocument) : nat :=
  S (inserts_of_examples (examples d)).

(** *** The joined rows both read routes work on *)

Record Row : Type :=
  { GrammarId : Z; Concept : sqltext; Meaning : sqltext; Details : sqltext;
    ExampleId : sqlint; Japanese : sqltext; Romaji : sqltext; English : sqltext;
    VocabId : sqlint; Word : sqltext; VocabRomaji : sqltext;
    VocabMeaning : sqltext }.

(** One row of [g LEFT JOIN e LEFT JOIN v]; a side that found no partner is
    NULL in all its columns. *)
Definition joined (g : GrammarPointsRow) (e : option ExamplesRow)
    (v : option VocabularyRow) : Row :=
  {| GrammarId := gp_GrammarId g; Concept := gp_Concept g;
     Meaning := gp_Meaning g; Details := gp_Details g;
     ExampleId := option_map ex_ExampleId e;
     Japanese := match e with Some x => ex_Japanese x | None => None end;
     Romaji := match e with Some x => ex_Romaji x | None => None end;
     English := match e with Some x => ex_English x | None => None end;
     VocabId := option_map vo_VocabId v;
     Word := match v with Some x => vo_Word x | None => None end;
     VocabRomaji := match v with Some x => vo_Romaji x | None => None end;
     VocabMeaning := match v with Some x => vo_Meaning x | None => None end |}.

(** The rows of one example with the vocabulary rows [vs] that match it. *)
Definition left_join_vocabulary (g : GrammarPointsRow) (e : ExamplesRow)
    (vs : list VocabularyRow) : list Row :=
  match vs with
  | [] => [joined g (Some e) None]
  | _ :: _ => map (fun v => joined g (Some e) (Some v)) vs
  end.

(** [... LEFT JOIN Vocabulary v ON e.ExampleId = v.ExampleId]. *)
Definition join_vocabulary (t : tables) (g : GrammarPointsRow) (e : ExamplesRow)
  : list Row :=
  left_join_vocabulary g e
    (filter (fun v => vo_ExampleId v =? ex_ExampleId e) (Vocabulary t)).

(** [GrammarPoints g LEFT JOIN Examples e ON g.GrammarId = e.GrammarId ...]. *)
Definition join_examples (t : tables) (g : GrammarPointsRow) : list Row :=
  match filter (fun e => ex_GrammarId e =? gp_GrammarId g) (Examples t) with
  | [] => [joined g None None]
  | es => flat_map (join_vocabulary t g) es
  end.

(** [ORDER BY e.ExampleId, v.VocabId]. *)
Definition le_example_vocab (a b : Row) : bool :=
  match compare_sqlint (ExampleId a) (ExampleId b) with
  | Lt => true
  | Gt => false
  | Eq => match compare_sqlint (VocabId a) (VocabId b) with
          | Gt => false
          | _ => true
          end
  end.

(** [ORDER BY g.GrammarId, e.ExampleId, v.VocabId]. *)
Definition le_grammar_example_vocab (a b : Row) : bool :=
  match GrammarId a ?= GrammarId b with
  | Lt => true
  | Gt => false
  | Eq => le_example_vocab a b
  end.

(** The query of GET /api/grammar/:id, lines 173-184. *)
Definition select_grammar (t : tables) (id : Z) : list Row :=
  order_by le_example_vocab
    (flat_map (join_examples t)
       (filter (fun g => gp_GrammarId g =? id) (GrammarPoints t))).

(** The query of GET /api/grammar, lines 317-325. *)
Definition select_all (t : tables) : list Row :=
  order_by le_grammar_example_vocab (flat_map (join_examples t) (GrammarPoints t)).

(** *** Row-to-Tree Reconstructor, single root: GET /api/grammar/:id, lines 186-223 *)

Record VocabNode : Type :=
  { n_word : sqltext; n_romaji : sqltext; n_meaning : sqltext }.

Record ExampleNode : Type :=
  { n_japanese : sqltext; n_example_romaji : sqltext; n_english : sqltext;
    n_vocab : list VocabNode }.

Record GrammarNode : Type :=
  { n_concept : sqltext; n_grammar_meaning : sqltext; n_details : sqltext;
    n_examples : list ExampleNode }.

(** The number held by a column that passed the truthiness test. *)
Definition number_of (v : sqlint) : Z :=
  match v with Some n => n | None => 0 end.

Definition vocab_of_row (row : Row) : VocabNode :=
  {| n_word := Word row; n_romaji := VocabRomaji row;
     n_meaning := VocabMeaning row |}.

Definition example_of_row (row : Row) : ExampleNode :=
  {| n_japanese := Japanese row; n_example_romaji := Romaji row;
     n_english := English row; n_vocab := [] |}.

(** [example.vocab.push({...})]. *)
Definition push_vocab (row : Row) (e : ExampleNode) : ExampleNode :=
  {| n_japanese := n_japanese e; n_example_romaji := n_example_romaji e;
     n_english := n_english e; n_vocab := n_vocab e ++ [vocab_of_row row] |}.

(** The loop state.  Every example object is created once and pushed onto
    [grammar.examples] at once, so an object is known by its position in that
    array: [exampleMap] maps an identifier to that position, and the object
    reached through the map is the very one the array holds. *)
Definition loop_state : Type := (list ExampleNode * JsObject.t nat)%type.

(** The body of [for (const row of rows)], lines 202-220. *)
Definition transform_row (st : loop_state) (row : Row) : loop_state :=
  let (grammar_examples, exampleMap) := st in
  if truthy (ExampleId row) then
    let k := number_of (ExampleId row) in
    let st1 : loop_state :=
      if negb (JsObject.has exampleMap k)
      then (grammar_examples ++ [example_of_row row],
            JsObject.set exampleMap k (length grammar_examples))
      else st in
    if truthy (VocabId row) then
      match JsObject.get (snd st1) k with
      | Some ref => (update_nth ref (push_vocab row) (fst st1), snd st1)
      | None => st1
      end
    else st1
  else st.

Definition transform_rows (rows : list Row) : loop_state :=
  fold_left transform_row rows ([], JsObject.empty nat).

(** Lines 186-223 on a record set. *)
Definition grammar_of_rows (rows : list Row) : response GrammarNode :=
  match rows with
  | [] => Status404
  | row0 :: _ =>
      Json {| n_concept := Concept row0; n_grammar_meaning := Meaning row0;
              n_details := Details row0;
              n_examples := fst (transform_rows rows) |}
  end.

Definition get_grammar (s : store) (id : Z) : response GrammarNode :=
  grammar_of_rows (select_grammar (tabs s) id).

(** *** Row-to-Tree Reconstructor, all roots: GET /api/grammar, lines 327-374 *)

Record ExampleEntry : Type :=
  { e_id : Z; e_japanese : sqltext; e_romaji : sqltext; e_english : sqltext;
    e_vocab : list VocabNode }.

Record GrammarEntry : Type :=
  { g_id : Z; g_concept : sqltext; g_meaning : sqltext; g_details : sqltext;
    g_examples : list ExampleEntry }.

Definition grammar_entry_of_row (row : Row) : GrammarEntry :=
  {| g_id := GrammarId row; g_concept := Concept row; g_meaning := Meaning row;
     g_details := Details row; g_examples := [] |}.

Definition example_entry_of_row (row : Row) : ExampleEntry :=
  {| e_id := number_of (ExampleId row); e_japanese := Japanese row;
     e_romaji := Romaji row; e_english := English row; e_vocab := [] |}.

Definition push_entry_vocab (row : Row) (e : ExampleEntry) : ExampleEntry :=
  {| e_id := e_id e; e_japanese := e_japanese e; e_romaji := e_romaji e;
     e_english := e_english e; e_vocab := e_vocab e ++ [vocab_of_row row] |}.

(** [ex => ex.id === row.ExampleId], used once the column is known to be a number. *)
Definition same_example (row : Row) (ex : ExampleEntry) : bool :=
  e_id ex =? number_of (ExampleId row).

(** Lines 349-369 on [grammar.examples]: [find], [push] the example when it is
    not there, then [push] the vocabulary entry onto the example found. *)
Definition handle_examples (row : Row) (examples : list ExampleEntry)
  : list ExampleEntry :=
  let examples1 :=
    if existsb (same_example row) examples
    then examples
    else examples ++ [example_entry_of_row row] in
  if truthy (VocabId row)
  then update_first (same_example row) (push_entry_vocab row) examples1
  else examples1.

Definition handle_example (row : Row) (grammar : GrammarEntry) : GrammarEntry :=
  {| g_id := g_id grammar; g_concept := g_concept grammar;
     g_meaning := g_meaning grammar; g_details := g_details grammar;
     g_examples := handle_examples row (g_examples grammar) |}.

(** The body of [for (const row of rows)], lines 335-370. *)
Definition collect_row (grammarMap : JsObject.t GrammarEntry) (row : Row)
  : JsObject.t GrammarEntry :=
  let grammarMap1 :=
    if negb (JsObject.has grammarMap (GrammarId row))
    then JsObject.set grammarMap (GrammarId row) (grammar_entry_of_row row)
    else grammarMap in
  if truthy (ExampleId row)
  then JsObject.alter (handle_example row) grammarMap1 (GrammarId row)
  else grammarMap1.

Definition collect_rows (rows : list Row) : JsObject.t GrammarEntry :=
  fold_left collect_row rows (JsObject.empty GrammarEntry).

(** Lines 327-374 on a record set; the empty record set answers [[]] too. *)
Definition grammars_of_rows (rows : list Row) : list GrammarEntry :=
  match rows with
  | [] => []
  | _ :: _ => JsObject.values (collect_rows rows)
  end.

Definition get_all_grammar (s : store) : list GrammarEntry :=
  grammars_of_rows (select_all (tabs s)).

(** *** What the round trip compares with *)

Definition node_of_vocab (v : Vocab) : VocabNode :=
  {| n_word := Some (word v); n_romaji := Some (vocab_romaji v);
     n_meaning := Some (vocab_meaning v) |}.

Definition node_of_example (e : Example) : ExampleNode :=
  {| n_japanese := Some (japanese e); n_example_romaji := Some (romaji e);
     n_english := Some (english e); n_vocab := map node_of_vocab (vocab e) |}.

(** The input document as the JSON value the read route would have to send. *)
Definition node_of_document (d : GrammarDocument) : GrammarNode :=
  {| n_concept := Some (concept d); n_grammar_meaning := Some (meaning d);
     n_details := Some (details d);
     n_examples := map node_of_example (examples d) |}.

(** *** What a write without rejections leaves behind *)

Definition vocabulary_row (exampleId vocabId : Z) (v : Vocab) : VocabularyRow :=
  {| vo_VocabId := vocabId; vo_ExampleId := exampleId; vo_Word := Some (word v);
     vo_Romaji := Some (vocab_romaji v); vo_Meaning := Some (vocab_meaning v) |}.

Fixpoint vocabulary_rows (exampleId vocabId : Z) (vs : list Vocab)
  : list VocabularyRow :=
  match vs with
  | [] => []
  | v :: r => vocabulary_row exampleId vocabId v
              :: vocabulary_rows exampleId (vocabId + 1) r
  end.

Definition examples_row (grammarId exampleId : Z) (e : Example) : ExamplesRow :=
  {| ex_ExampleId := exampleId; ex_GrammarId := grammarId;
     ex_Japanese := Some (japanese e); ex_Romaji := Some (romaji e);
     ex_English := Some (english e) |}.

Fixpoint examples_rows (grammarId exampleId : Z) (es : list Example)
  : list ExamplesRow :=
  match es with
  | [] => []
  | e :: r => examples_row grammarId exampleId e
              :: examples_rows grammarId (exampleId + 1) r
  end.

Fixpoint examples_vocabulary_rows (exampleId vocabId : Z) (es : list Example)
  : list VocabularyRow :=
  match es with
  | [] => []
  | e :: r => vocabulary_rows exampleId vocabId (vocab e)
              ++ examples_vocabulary_rows (exampleId + 1)
                   (vocabId + Z.of_nat (length (vocab e))) r
  end.

Fixpoint vocab_count (es : list Example) : nat :=
  match es with
  | [] => O
  | e :: r => (length (vocab e) + vocab_count r)%nat
  end.

Definition grammar_row (grammarId : Z) (d : GrammarDocument) : GrammarPointsRow :=
  {| gp_GrammarId := grammarId; gp_Concept := Some (concept d);
     gp_Meaning := Some (meaning d); gp_Details := Some (details d) |}.

Definition make_store (gp : list GrammarPointsRow) (ex : list ExamplesRow)
    (vo : list VocabularyRow) (ng ne nv : Z) : store :=
  {| tabs := {| GrammarPoints := gp; Examples := ex; Vocabulary := vo |};
     idents := {| next_GrammarId := ng; next_ExampleId := ne;
                  next_VocabId := nv |} |}.

(** The store after document [d] has been written into [s]. *)
Definition written (s : store) (d : GrammarDocument) : store :=
  let ng := next_GrammarId (idents s) in
  let ne := next_ExampleId (idents s) in
  let nv := next_VocabId (idents s) in
  make_store
    (GrammarPoints (tabs s) ++ [grammar_row ng d])
    (Examples (tabs s) ++ examples_rows ng ne (examples d))
    (Vocabulary (tabs s) ++ examples_vocabulary_rows ne nv (examples d))
    (ng + 1) (ne + Z.of_nat (length (examples d)))
    (nv + Z.of_nat (vocab_count (examples d))).

(** The joined rows of the examples [es] of grammar row [g], numbered from
    [exampleId] and [vocabId] on. *)
Fixpoint document_rows (g : GrammarPointsRow) (exampleId vocabId : Z)
    (es : list Example) : list Row :=
  match es with
  | [] => []
  | e :: r =>
      left_join_vocabulary g (examples_row (gp_GrammarId g) exampleId e)
        (vocabulary_rows exampleId vocabId (vocab e))
      ++ document_rows g (exampleId + 1)
           (vocabId + Z.of_nat (length (vocab e))) r
  end.

(** *** Identity discipline of the store

    Every identifier and every foreign key in the tables was handed out by the
    identity counter of its table, counters start above zero and only grow. *)
Definition fresh (s : store) : Prop :=
  0 < next_GrammarId (idents s) /\ 0 < next_ExampleId (idents s)
  /\ 0 < next_VocabId (idents s)
  /\ Forall (fun g => 0 < gp_GrammarId g < next_GrammarId (idents s))
            (GrammarPoints (tabs s))
  /\ Forall (fun e => 0 < ex_ExampleId e < next_ExampleId (idents s)
                      /\ 0 < ex_GrammarId e < next_GrammarId (idents s))
            (Examples (tabs s))
  /\ Forall (fun v => 0 < vo_VocabId v < next_VocabId (idents s)
                      /\ 0 < vo_ExampleId v < next_ExampleId (idents s))
            (Vocabulary (tabs s)).

Definition empty_store : store :=
  {| tabs := {| GrammarPoints := []; Examples := []; Vocabulary := [] |};
     idents := {| next_GrammarId := 1; next_ExampleId := 1; next_VocabId := 1 |} |}.

(** The document of the specification's scenario: one example with two
    vocabulary entries. *)
Definition scenario_document : GrammarDocument :=
  {| concept := "tte"; meaning := "quotation"; details := "casual";
     examples :=
       [ {| japanese := "j"; romaji := "r"; english := "e";
            vocab := [ {| word := "w1"; vocab_romaji := "r1"; vocab_meaning := "m1" |};
                       {| word := "w2"; vocab_romaji := "r2"; vocab_meaning := "m2" |} ]
         |} ] |}%string.

(** *** Vocabulary for the statements about rows and trees *)

(** The rows of one grammar point, and the rows of one example. *)
Definition of_grammar (g : Z) (row : Row) : bool := GrammarId row =? g.

Definition of_example (e : Z) (row : Row) : bool :=
  match ExampleId row with Some n => n =? e | None => false end.

(** The rows that push a vocabulary entry onto example [e] of grammar point [g]. *)
Definition pushes_leaf (g e : Z) (row : Row) : bool :=
  of_grammar g row && truthy (ExampleId row) && of_example e row
  && truthy (VocabId row).

(** The examples held by the grammar object at [grammarMap[g]]. *)
Definition entries_of (grammarMap : JsObject.t GrammarEntry) (g : Z)
  : list ExampleEntry :=
  match JsObject.get grammarMap g with
  | Some n => g_examples n
  | None => []
  end.

(** The vocabulary held by the example [examples.find(ex => ex.id === e)]. *)
Definition leaves_of (examples : list ExampleEntry) (e : Z) : list VocabNode :=
  match find (fun ex => e_id ex =? e) examples with
  | Some ex => e_vocab ex
  | None => []
  end.

(** All leaf entries of a single-root tree. *)
Definition all_leaves (examples : list ExampleNode) : list VocabNode :=
  flat_map n_vocab examples.

(** An example of the all-roots tree without its [id] field. *)
Definition strip_id (e : ExampleEntry) : ExampleNode :=
  {| n_japanese := e_japanese e; n_example_romaji := e_romaji e;
     n_english := e_english e; n_vocab := e_vocab e |}.

(** The position of the example [examples.find(ex => ex.id === k)]. *)
Fixpoint index_of (k : Z) (examples : list ExampleEntry) : option nat :=
  match examples with
  | [] => None
  | ex :: r => if e_id ex =? k then Some O else option_map S (index_of k r)
  end.

(** The single-root loop state [st] holds the examples [es] without their
    identifiers, and [exampleMap] finds each of them where [find] would. *)
Definition mirrors (st : loop_state) (es : list ExampleEntry) : Prop :=
  fst st = map strip_id es
  /\ forall k, JsObject.get (snd st) k = index_of k es.

(** Lines 349-369 run over a row stream on one list of examples. *)
Definition handle_rows (rows : list Row) (es : list ExampleEntry)
  : list ExampleEntry :=
  fold_left (fun es row => if truthy (ExampleId row)
                           then handle_examples row es else es) rows es.

(** A row with one identifier column replaced. *)
Definition with_ExampleId (v : sqlint) (row : Row) : Row :=
  {| GrammarId := GrammarId row; Concept := Concept row; Meaning := Meaning row;
     Details := Details row; ExampleId := v; Japanese := Japanese row;
     Romaji := Romaji row; English := English row; VocabId := VocabId row;
     Word := Word row; VocabRomaji := VocabRomaji row;
     VocabMeaning := VocabMeaning row |}.

Definition with_VocabId (v : sqlint) (row : Row) : Row :=
  {| GrammarId := GrammarId row; Concept := Concept row; Meaning := Meaning row;
     Details := Details row; ExampleId := ExampleId row; Japanese := Japanese row;
     Romaji := Romaji row; English := English row; VocabId := v;
     Word := Word row; VocabRomaji := VocabRomaji row;
     VocabMeaning := VocabMeaning row |}.

(** The rows of the specification's concrete scenario:
    (g=1, e=10, v=100), (g=1, e=10, v=101), (g=1, e=11, v=NULL). *)
Definition scenario_row (e : Z) (v : sqlint) : Row :=
  {| GrammarId := 1; Concept := Some "c"%string; Meaning := Some "m"%string;
     Details := Some "d"%string; ExampleId := Some e;
     Japanese := Some "j"%string; Romaji := Some "r"%string;
     English := Some "e"%string; VocabId := v;
     Word := option_map (fun _ => "w"%string) v;
     VocabRomaji := option_map (fun _ => "vr"%string) v;
     VocabMeaning := option_map (fun _ => "vm"%string) v |}.

Definition scenario_rows : list Row :=
  [scenario_row 10 (Some 100); scenario_row 10 (Some 101); scenario_row 11 None].



(** *** Row sets as the three-level left join delivers them

    No identifier is 0; an example belongs to one grammar point; a row that
    carries a vocabulary entry carries its example; and every vocabulary
    entry joins exactly once. *)
Definition join_shaped (rows : list Row) : Prop :=
  Forall (fun r => ExampleId r <> Some 0 /\ VocabId r <> Some 0
                   /\ (VocabId r <> None -> ExampleId r <> None)) rows
  /\ (forall r1 r2, In r1 rows -> In r2 rows -> ExampleId r1 <> None ->
        ExampleId r1 = ExampleId r2 -> GrammarId r1 = GrammarId r2)
  /\ NoDup (present (map VocabId rows)).

(** The identity counters never go back. *)
Definition grows (s s' : store) : Prop :=
  next_GrammarId (idents s) <= next_GrammarId (idents s')
  /\ next_ExampleId (idents s) <= next_ExampleId (idents s')
  /\ next_VocabId (idents s) <= next_VocabId (idents s').

(** Primary keys: the identifiers of a table are pairwise distinct, and the
    identity columns of the joined tables never hold 0. *)
Definition primary_keys (t : tables) : Prop :=
  NoDup (map gp_GrammarId (GrammarPoints t))
  /\ NoDup (map ex_ExampleId (Examples t))
  /\ NoDup (map vo_VocabId (Vocabulary t))
  /\ Forall (fun e => ex_ExampleId e <> 0) (Examples t)
  /\ Forall (fun v => vo_VocabId v <> 0) (Vocabulary t).

End Grammar.

(* ------------------------------------------------------------------ *)
(** ** Question batches ([new.js]) *)

Module Exam.

(** *** One generated question *)

Record Question : Type :=
  { question_type : string; question : string; options : list string;
    answer : string; explanation : string }.

(** *** The tables the two exam routes touch *)

(** The text stored in [grammar_list] and [kanji_list] is
    [JSON.stringify] of an array of texts and is read back with [JSON.parse];
    the column is kept as the array that text denotes.  An element is [null]
    where the sampled column was NULL. *)
Record json_text : Type := JSON_stringify { JSON_parse : list sqltext }.

Record ConceptRow : Type := { GrammarId : Z; Concept : sqltext }.

Record KanjiInfoRow : Type := { Id : Z; Kanji : sqltext }.

Record QuestionBatchRow : Type :=
  { qb_batch_id : Z; qb_created_at : Z; qb_grammar_list : json_text;
    qb_kanji_list : json_text }.

Record questionsRow : Type :=
  { q_question_id : Z; q_question_type : sqltext; q_question_text : sqltext;
    q_answer : sqltext; q_explanation : sqltext; q_batch_id : Z }.

Record question_optionsRow : Type :=
  { o_option_id : Z; o_question_id : Z; o_option_text : sqltext;
    o_is_correct : bool }.

Record tables : Type :=
  { GrammarPoints : list ConceptRow;
    KanjiInfo : list KanjiInfoRow;
    QuestionBatch : list QuestionBatchRow;
    questions : list questionsRow;
    question_options : list question_optionsRow }.

Record identities : Type :=
  { next_batch_id : Z; next_question_id : Z; next_option_id : Z }.

Record store : Type := { tabs : tables; idents : identities }.

(** *** Batch Selector: lines 164-178 *)

(** [SELECT TOP n ... ORDER BY NEWID()]: the store draws a fresh random key
    for every row, [newid i] for the row at position [i], sorts by it and
    keeps the first [n] rows. *)
Definition order_by_newid (A : Type) (newid : nat -> Z) (rows : list A) : list A :=
  map snd
    (order_by (fun a b : Z * A => fst a <=? fst b)
       (combine (map newid (seq 0 (length rows))) rows)).

Definition select_top (A : Type) (n : nat) (newid : nat -> Z) (rows : list A)
  : list A :=
  firstn n (order_by_newid newid rows).

Definition sample_grammar (newid : nat -> Z) (t : tables) : list ConceptRow :=
  select_top 5 newid (GrammarPoints t).

Definition sample_kanji (newid : nat -> Z) (t : tables) : list KanjiInfoRow :=
  select_top 10 newid (KanjiInfo t).

(** *** Cascading Writer: POST /api/gemini/questions, lines 180-295 *)

(** [INSERT INTO QuestionBatch ... OUTPUT INSERTED.batch_id]; [created_at] is
    filled in by the store with the current time [now]. *)
Definition insert_QuestionBatch (now : Z) (grammar_list kanji_list : json_text)
  : M store Z :=
  statement (fun s =>
    let id := next_batch_id (idents s) in
    (id,
     {| tabs := {| GrammarPoints := GrammarPoints (tabs s);
                   KanjiInfo := KanjiInfo (tabs s);
                   QuestionBatch := QuestionBatch (tabs s) ++
                     [{| qb_batch_id := id; qb_created_at := now;
                         qb_grammar_list := grammar_list;
                         qb_kanji_list := kanji_list |}];
                   questions := questions (tabs s);
                   question_options := question_options (tabs s) |};
        idents := {| next_batch_id := id + 1;
                     next_question_id := next_question_id (idents s);
                     next_option_id := next_option_id (idents s) |} |})).

(** [INSERT INTO questions ... OUTPUT INSERTED.question_id]. *)
Definition insert_questions (q : Question) (batch_id : Z) : M store Z :=
  statement (fun s =>
    let id := next_question_id (idents s) in
    (id,
     {| tabs := {| GrammarPoints := GrammarPoints (tabs s);
                   KanjiInfo := KanjiInfo (tabs s);
                   QuestionBatch := QuestionBatch (tabs s);
                   questions := questions (tabs s) ++
                     [{| q_question_id := id;
                         q_question_type := Some (question_type q);
                         q_question_text := Some (question q);
                         q_answer := Some (answer q);
                         q_explanation := Some (explanation q);
                         q_batch_id := batch_id |}];
                   question_options := question_options (tabs s) |};
        idents := {| next_batch_id := next_batch_id (idents s);
                     next_question_id := id + 1;
                     next_option_id := next_option_id (idents s) |} |})).

(** [INSERT INTO question_options (question_id, option_text, is_correct)]. *)
Definition insert_question_options (question_id : Z) (option_text : string)
    (is_correct : bool) : M store unit :=
  statement (fun s =>
    let id := next_option_id (idents s) in
    (tt,
     {| tabs := {| GrammarPoints := GrammarPoints (tabs s);
                   KanjiInfo := KanjiInfo (tabs s);
                   QuestionBatch := QuestionBatch (tabs s);
                   questions := questions (tabs s);
                   question_options := question_options (tabs s) ++
                     [{| o_option_id := id; o_question_id := question_id;
                         o_option_text := Some option_text;
                         o_is_correct := is_correct |}] |};
        idents := {| next_batch_id := next_batch_id (idents s);
                     next_question_id := next_question_id (idents s);
                     next_option_id := id + 1 |} |})).

(** The body of [for (const q of questions)], lines 253-276; the flag is
    [opt === q.answer]. *)
Definition insert_question (batchId : Z) (q : Question) : M store unit :=
  questionId <- insert_questions q batchId ;;
  for_of (options q) (fun opt =>
    insert_question_options questionId opt (String.eqb opt (answer q))).

Record QuestionsBody : Type :=
  { body_batch_id : Z; grammar_used : list sqltext; kanji_used : list sqltext;
    count : nat }.

(** Lines 184-279, between [tx.begin()] and [tx.commit()].  [generated] is the
    outcome of lines 231-249: the parsed array, or the message of what was
    thrown on the way (the HTTP call, a missing text, [JSON.parse]). *)
Definition write_questions (now : Z) (grammarList kanjiList : list sqltext)
    (generated : string + list Question) : M store QuestionsBody :=
  batchId <- insert_QuestionBatch now (JSON_stringify grammarList)
               (JSON_stringify kanjiList) ;;
  match generated with
  | inl msg => throw msg
  | inr qs =>
      _ <- for_of qs (insert_question batchId) ;;
      ret {| body_batch_id := batchId; grammar_used := grammarList;
             kanji_used := kanjiList; count := length qs |}
  end.

(** The route.  The two SELECTs run before the transaction opens. *)
Definition post_questions (now : Z) (newid_grammar newid_kanji : nat -> Z)
    (s : store) (fs : list (option string))
    (generated : string + list Question) : response QuestionsBody * store :=
  let grammarList := map Concept (sample_grammar newid_grammar (tabs s)) in
  let kanjiList := map Kanji (sample_kanji newid_kanji (tabs s)) in
  match write_questions now grammarList kanjiList generated
          {| work := s; faults := fs |} with
  | (inr body, t) => (Json body, work t)
  | (inl msg, t) =>
      (Status500 msg, {| tabs := tabs s; idents := idents (work t) |})
  end.

Definition inserts_of_question (q : Question) : nat := S (length (options q)).

Fixpoint inserts_of_questions (l : list Question) : nat :=
  match l with
  | [] => O
  | q :: r => (inserts_of_question q + inserts_of_questions r)%nat
  end.

(** *** GET /api/exam/today, lines 299-373 *)

Record ExamRow : Type :=
  { question_id : Z; r_question_type : sqltext; question_text : sqltext;
    r_answer : sqltext; r_explanation : sqltext; option_id : Z;
    option_text : sqltext; is_correct : bool }.

Record OptionNode : Type :=
  { n_option_id : Z; n_option_text : sqltext; n_is_correct : bool }.

Record QuestionNode : Type :=
  { n_question_id : Z; n_question_type : sqltext; n_question_text : sqltext;
    n_answer : sqltext; n_explanation : sqltext; n_options : list OptionNode }.

Record ExamBody : Type :=
  { exam_batch_id : Z; exam_created_at : Z; grammar_list : list sqltext;
    kanji_list : list sqltext; exam_questions : list QuestionNode }.

(** [CAST(t AS DATE)], with [t] in seconds. *)
Definition date_of (t : Z) : Z := t / 86400.

(** [SELECT TOP 1 ... WHERE CAST(created_at AS DATE) = CAST(GETDATE() AS DATE)
    ORDER BY created_at DESC]. *)
Definition select_today (now : Z) (t : tables) : list QuestionBatchRow :=
  firstn 1
    (order_by (fun a b => qb_created_at b <=? qb_created_at a)
       (filter (fun b => date_of (qb_created_at b) =? date_of now)
          (QuestionBatch t))).

Definition exam_row (q : questionsRow) (o : question_optionsRow) : ExamRow :=
  {| question_id := q_question_id q; r_question_type := q_question_type q;
     question_text := q_question_text q; r_answer := q_answer q;
     r_explanation := q_explanation q; option_id := o_option_id o;
     option_text := o_option_text o; is_correct := o_is_correct o |}.

(** [ORDER BY q.question_id, qo.option_id]. *)
Definition le_question_option (a b : ExamRow) : bool :=
  match question_id a ?= question_id b with
  | Lt => true
  | Gt => false
  | Eq => option_id a <=? option_id b
  end.

(** [questions q JOIN question_options qo ON q.question_id = qo.question_id
    WHERE q.batch_id = @batch_id]: an inner join. *)
Definition select_questions (t : tables) (batch_id : Z) : list ExamRow :=
  order_by le_question_option
    (flat_map
       (fun q => map (exam_row q)
                   (filter (fun o => o_question_id o =? q_question_id q)
                      (question_options t)))
       (filter (fun q => q_batch_id q =? batch_id) (questions t))).

Definition question_node_of_row (row : ExamRow) : QuestionNode :=
  {| n_question_id := question_id row; n_question_type := r_question_type row;
     n_question_text := question_text row; n_answer := r_answer row;
     n_explanation := r_explanation row; n_options := [] |}.

Definition push_option (row : ExamRow) (q : QuestionNode) : QuestionNode :=
  {| n_question_id := n_question_id q; n_question_type := n_question_type q;
     n_question_text := n_question_text q; n_answer := n_answer q;
     n_explanation := n_explanation q;
     n_options := n_options q ++
       [{| n_option_id := option_id row; n_option_text := option_text row;
           n_is_correct := is_correct row |}] |}.

(** The body of [for (const row of questionsResult.recordset)], lines 340-354. *)
Definition group_row (questionsMap : JsObject.t QuestionNode) (row : ExamRow)
  : JsObject.t QuestionNode :=
  let questionsMap1 :=
    if negb (JsObject.has questionsMap (question_id row))
    then JsObject.set questionsMap (question_id row) (question_node_of_row row)
    else questionsMap in
  JsObject.alter (push_option row) questionsMap1 (question_id row).

Definition group_rows (rows : list ExamRow) : list QuestionNode :=
  JsObject.values (fold_left group_row rows (JsObject.empty QuestionNode)).

Definition get_exam_today (now : Z) (s : store) : response ExamBody :=
  match select_today now (tabs s) with
  | [] => Status404
  | batch :: _ =>
      Json {| exam_batch_id := qb_batch_id batch;
              exam_created_at := qb_created_at batch;
              grammar_list := JSON_parse (qb_grammar_list batch);
              kanji_list := JSON_parse (qb_kanji_list batch);
              exam_questions :=
                group_rows (select_questions (tabs s) (qb_batch_id batch)) |}
  end.

(** *** What a write without rejections leaves behind *)

Definition questions_row (batchId questionId : Z) (q : Question) : questionsRow :=
  {| q_question_id := questionId; q_question_type := Some (question_type q);
     q_question_text := Some (question q); q_answer := Some (answer q);
     q_explanation := Some (explanation q); q_batch_id := batchId |}.

Definition options_row (questionId optionId : Z) (canonical : string)
    (opt : string) : question_optionsRow :=
  {| o_option_id := optionId; o_question_id := questionId;
     o_option_text := Some opt; o_is_correct := String.eqb opt canonical |}.

Fixpoint options_rows (questionId optionId : Z) (canonical : string)
    (opts : list string) : list question_optionsRow :=
  match opts with
  | [] => []
  | opt :: r => options_row questionId optionId canonical opt
                :: options_rows questionId (optionId + 1) canonical r
  end.

Fixpoint questions_rows (batchId questionId : Z) (qs : list Question)
  : list questionsRow :=
  match qs with
  | [] => []
  | q :: r => questions_row batchId questionId q
              :: questions_rows batchId (questionId + 1) r
  end.

Fixpoint questions_options_rows (questionId optionId : Z) (qs : list Question)
  : list question_optionsRow :=
  match qs with
  | [] => []
  | q :: r => options_rows questionId optionId (answer q) (options q)
              ++ questions_options_rows (questionId + 1)
                   (optionId + Z.of_nat (length (options q))) r
  end.

Fixpoint option_count (qs : list Question) : nat :=
  match qs with
  | [] => O
  | q :: r => (length (options q) + option_count r)%nat
  end.

Definition make_store (gp : list ConceptRow) (ki : list KanjiInfoRow)
    (qb : list QuestionBatchRow) (qu : list questionsRow)
    (qo : list question_optionsRow) (nb nq no : Z) : store :=
  {| tabs := {| GrammarPoints := gp; KanjiInfo := ki; QuestionBatch := qb;
                questions := qu; question_options := qo |};
     idents := {| next_batch_id := nb; next_question_id := nq;
                  next_option_id := no |} |}.

Definition batch_row (batchId now : Z) (grammarList kanjiList : list sqltext)
  : QuestionBatchRow :=
  {| qb_batch_id := batchId; qb_created_at := now;
     qb_grammar_list := JSON_stringify grammarList;
     qb_kanji_list := JSON_stringify kanjiList |}.

(** The store after the batch and the questions [qs] have been written into [s]. *)
Definition written (now : Z) (grammarList kanjiList : list sqltext) (s : store)
    (qs : list Question) : store :=
  let nb := next_batch_id (idents s) in
  let nq := next_question_id (idents s) in
  let no := next_option_id (idents s) in
  make_store (GrammarPoints (tabs s)) (KanjiInfo (tabs s))
    (QuestionBatch (tabs s) ++ [batch_row nb now grammarList kanjiList])
    (questions (tabs s) ++ questions_rows nb nq qs)
    (question_options (tabs s) ++ questions_options_rows nq no qs)
    (nb + 1) (nq + Z.of_nat (length qs)) (no + Z.of_nat (option_count qs)).

(** [a === b] on two column values that hold text. *)
Definition text_equal (a b : sqltext) : bool :=
  match a, b with
  | Some x, Some y => String.eqb x y
  | _, _ => false
  end.

(** The options stored for question [questionId] that are flagged correct. *)
Definition correct_options (t : tables) (questionId : Z)
  : list question_optionsRow :=
  filter (fun o => (o_question_id o =? questionId) && o_is_correct o)
    (question_options t).

(** *** Concrete stores and documents for the examples *)

(** Five grammar points, ten kanji, nothing else. *)
Definition seeded_store : store :=
  make_store
    (map (fun i => {| GrammarId := i; Concept := Some "concept"%string |})
       [1; 2; 3; 4; 5])
    (map (fun i => {| Id := i; Kanji := Some "kanji"%string |})
       [1; 2; 3; 4; 5; 6; 7; 8; 9; 10])
    [] [] [] 1 1 1.

(** A random source: the key drawn for the row at position [i]. *)
Definition sample_newid (i : nat) : Z := (Z.of_nat i * 7) mod 5.

(** A question whose answer is one of its options, once. *)
Definition sound_question : Question :=
  {| question_type := "Vocabulary (Kanji readings)"; question := "q";
     options := ["a"; "b"; "c"; "d"]; answer := "b"; explanation := "x" |}%string.

(** A question whose answer is none of its options. *)
Definition stray_question : Question :=
  {| question_type := "Vocabulary (Paraphrasing)"; question := "q";
     options := ["a"; "b"]; answer := "c"; explanation := "x" |}%string.

(** A question that lists its answer twice. *)
Definition doubled_question : Question :=
  {| question_type := "Vocabulary (Paraphrasing)"; question := "q";
     options := ["a"; "a"; "b"]; answer := "a"; explanation := "x" |}%string.

(** A store with one batch of today holding question 1 without options and
    question 2 with one option. *)
Definition exam_store : store :=
  make_store [] []
    [batch_row 1 100 [] []]
    [questions_row 1 1 sound_question; questions_row 1 2 sound_question]
    [options_row 2 1 "b" "b"] 2 3 2.

(** *** Identity discipline of the store, as for the grammar tables *)
Definition fresh (s : store) : Prop :=
  Forall (fun b => qb_batch_id b < next_batch_id (idents s))
         (QuestionBatch (tabs s))
  /\ Forall (fun q => q_question_id q < next_question_id (idents s))
            (questions (tabs s))
  /\ Forall (fun o => o_question_id o < next_question_id (idents s))
            (question_options (tabs s)).

(** *** The shape section 4.2 of the specification asks of a question set

    This definition follows the words of the specification, not the code:
    exactly nine questions, each with its answer among its options. *)
Definition spec_question_set_shape (qs : list Question) : bool :=
  (length qs =? 9)%nat
  && forallb (fun q => existsb (String.eqb (answer q)) (options q)) qs.

End Exam.

(* ------------------------------------------------------------------ *)
(** ** Replies with prose around the fence *)

Module Fences.
Import Sanitizer.
Local Open Scope N_scope.

(** The text holds no backtick, so neither pattern can start inside it. *)
Definition no_backtick (t : jsstring) : bool :=
  forallb (fun c => negb (c =? 96)) t.

End Fences.

(* ------------------------------------------------------------------ *)
(** ** Vocabulary for the statements that relate the two read routes *)

Module GrammarViews.
Import Grammar.

(** An entry of the list answer without its identifier fields: the shape of
    the single answer. *)
Definition strip_entry (n : GrammarEntry) : GrammarNode :=
  {| n_concept := g_concept n; n_grammar_meaning := g_meaning n;
     n_details := g_details n; n_examples := map strip_id (g_examples n) |}.

(** The single answer for a grammar row that no example refers to. *)
Definition bare_node (g : GrammarPointsRow) : GrammarNode :=
  {| n_concept := gp_Concept g; n_grammar_meaning := gp_Meaning g;
     n_details := gp_Details g; n_examples := [] |}.

(** The scalar fields of a node are those of the row that created it. *)
Definition created_from (row : Row) (n : GrammarEntry) : Prop :=
  g_id n = GrammarId row /\ g_concept n = Concept row
  /\ g_meaning n = Meaning row /\ g_details n = Details row.

(** One column of an ascending ORDER BY: NULL first, then the numbers. *)
Definition sqlint_le (a b : sqlint) : bool :=
  match compare_sqlint a b with Gt => false | _ => true end.

(** Two grammar points stored in the order 2, 1.  Grammar point 1 has the
    examples 12, 10 and 0, stored in that order, grammar point 2 has example
    11; example 12 has the vocabulary entries 5 and 3, example 10 the entry 4. *)
Definition crowded_store : store :=
  make_store
    [ {| gp_GrammarId := 2; gp_Concept := Some "c2"%string; gp_Meaning := None;
         gp_Details := None |};
      {| gp_GrammarId := 1; gp_Concept := Some "c1"%string; gp_Meaning := None;
         gp_Details := None |} ]
    [ {| ex_ExampleId := 12; ex_GrammarId := 1; ex_Japanese := Some "j12"%string;
         ex_Romaji := None; ex_English := None |};
      {| ex_ExampleId := 11; ex_GrammarId := 2; ex_Japanese := Some "j11"%string;
         ex_Romaji := None; ex_English := None |};
      {| ex_ExampleId := 10; ex_GrammarId := 1; ex_Japanese := Some "j10"%string;
         ex_Romaji := None; ex_English := None |};
      {| ex_ExampleId := 0; ex_GrammarId := 1; ex_Japanese := Some "j0"%string;
         ex_Romaji := None; ex_English := None |} ]
    [ {| vo_VocabId := 5; vo_ExampleId := 12; vo_Word := Some "w5"%string;
         vo_Romaji := None; vo_Meaning := None |};
      {| vo_VocabId := 4; vo_ExampleId := 10; vo_Word := Some "w4"%string;
         vo_Romaji := None; vo_Meaning := None |};
      {| vo_VocabId := 3; vo_ExampleId := 12; vo_Word := Some "w3"%string;
         vo_Romaji := None; vo_Meaning := None |} ]
    3 13 6.

(** The entry the list answer holds for grammar point 1 of that store. *)
Definition crowded_entry : GrammarEntry :=
  {| g_id := 1; g_concept := Some "c1"%string; g_meaning := None;
     g_details := None;
     g_examples :=
       [ {| e_id := 10; e_japanese := Some "j10"%string; e_romaji := None;
            e_english := None;
            e_vocab := [ {| n_word := Some "w4"%string; n_romaji := None;
                            n_meaning := None |} ] |};
         {| e_id := 12; e_japanese := Some "j12"%string; e_romaji := None;
            e_english := None;
            e_vocab := [ {| n_word := Some "w3"%string; n_romaji := None;
                            n_meaning := None |};
                         {| n_word := Some "w5"%string; n_romaji := None;
                            n_meaning := None |} ] |} ] |}.

(** A grammar point stored without examples, for the examples. *)
Definition lone_store : store :=
  make_store [{| gp_GrammarId := 1; gp_Concept := Some "c"%string;
                 gp_Meaning := Some "m"%string; gp_Details := None |}]
    [] [] 2 1 1.

(** Two grammar points stored in descending order of identifier. *)
Definition unsorted_store : store :=
  make_store [{| gp_GrammarId := 2; gp_Concept := Some "b"%string;
                 gp_Meaning := None; gp_Details := None |};
              {| gp_GrammarId := 1; gp_Concept := Some "a"%string;
                 gp_Meaning := None; gp_Details := None |}]
    [] [] 3 1 1.

End GrammarViews.

(* ------------------------------------------------------------------ *)
(** ** Vocabulary for the statements about the exam read route *)

Module ExamViews.
Import Exam.

(** What a reader can compare with the generated question, identifiers
    apart: the four texts and, per option, its text and its flag. *)
Definition option_view (o : OptionNode) : sqltext * bool :=
  (n_option_text o, n_is_correct o).

Definition question_view (n : QuestionNode)
  : sqltext * sqltext * sqltext * sqltext * list (sqltext * bool) :=
  (n_question_type n, n_question_text n, n_answer n, n_explanation n,
   map option_view (n_options n)).

Definition generated_view (q : Question)
  : sqltext * sqltext * sqltext * sqltext * list (sqltext * bool) :=
  (Some (question_type q), Some (question q), Some (answer q),
   Some (explanation q),
   map (fun opt => (Some opt, String.eqb opt (answer q))) (options q)).

Definition has_options (q : Question) : bool :=
  match options q with [] => false | _ :: _ => true end.

(** The entry [push_option] appends for a joined row. *)
Definition option_node_of_row (row : ExamRow) : OptionNode :=
  {| n_option_id := option_id row; n_option_text := option_text row;
     n_is_correct := is_correct row |}.

(** The options held by the question object at [questionsMap[k]]. *)
Definition options_at (questionsMap : JsObject.t QuestionNode) (k : Z)
  : list OptionNode :=
  match JsObject.get questionsMap k with
  | Some n => n_options n
  | None => []
  end.

(** The joined rows of the questions [qs] of a batch, numbered from
    [questionId] and [optionId] on. *)
Fixpoint written_exam_rows (batchId questionId optionId : Z) (qs : list Question)
  : list ExamRow :=
  match qs with
  | [] => []
  | q :: r =>
      map (exam_row (questions_row batchId questionId q))
        (options_rows questionId optionId (answer q) (options q))
      ++ written_exam_rows batchId (questionId + 1)
           (optionId + Z.of_nat (length (options q))) r
  end.

(** The question object the loop builds from the rows of question [qr]
    joined with the option rows [os]. *)
Definition written_node (qr : questionsRow) (os : list question_optionsRow)
  : QuestionNode :=
  fold_left (fun n o => push_option (exam_row qr o) n) os
    {| n_question_id := q_question_id qr; n_question_type := q_question_type qr;
       n_question_text := q_question_text qr; n_answer := q_answer qr;
       n_explanation := q_explanation qr; n_options := [] |}.

(** The properties of [questionsMap] after those rows, in creation order. *)
Fixpoint written_entries (batchId questionId optionId : Z) (qs : list Question)
  : list (Z * QuestionNode) :=
  match qs with
  | [] => []
  | q :: r =>
      match options q with
      | [] => []
      | _ :: _ =>
          [(questionId,
            written_node (questions_row batchId questionId q)
              (options_rows questionId optionId (answer q) (options q)))]
      end
      ++ written_entries batchId (questionId + 1)
           (optionId + Z.of_nat (length (options q))) r
  end.

(** The identity discipline with the foreign key of [questions]. *)
Definition disciplined (s : store) : Prop :=
  fresh s
  /\ Forall (fun q => q_batch_id q < next_batch_id (idents s)) (questions (tabs s)).

(** The identity counters never go back. *)
Definition advances (s s' : store) : Prop :=
  next_batch_id (idents s) <= next_batch_id (idents s')
  /\ next_question_id (idents s) <= next_question_id (idents s')
  /\ next_option_id (idents s) <= next_option_id (idents s').

(** A question the generator sent without options. *)
Definition bare_question : Question :=
  {| question_type := "Vocabulary (Paraphrasing)"; question := "q";
     options := []; answer := "a"; explanation := "x" |}%string.

(** One batch of today.  Its questions 2 and 1 are stored in that order,
    question 3 belongs to another batch; the options 5 and 4 of question 2
    and 3 and 1 of question 1 are stored interleaved, option 2 belongs to
    question 3. *)
Definition shuffled_exam_store : store :=
  make_store [] []
    [batch_row 1 100 [] []]
    [questions_row 1 2 doubled_question; questions_row 1 1 sound_question;
     questions_row 7 3 stray_question]
    [options_row 2 5 "a" "b"; options_row 1 3 "b" "b"; options_row 2 4 "a" "a";
     options_row 1 1 "b" "a"; options_row 3 2 "c" "a"]
    2 4 6.

(** A store with rows in the three exam tables and counters that ran ahead
    of them: batches 1 and 3, question 1 of batch 1 with two options and
    question 4 of batch 3 with one. *)
Definition stocked_store : store :=
  make_store (GrammarPoints (tabs seeded_store)) (KanjiInfo (tabs seeded_store))
    [batch_row 1 100 [] []; batch_row 3 150 [] []]
    [questions_row 1 1 sound_question; questions_row 3 4 stray_question]
    [options_row 1 1 "b" "a"; options_row 1 2 "b" "b"; options_row 4 6 "c" "a"]
    4 6 8.

End ExamViews.

(* ================================================================== *)
(** * Part II: properties *)

(* ------------------------------------------------------------------ *)
(** ** ORDER BY *)

Section OrderByFacts.
Variable A : Type.
Variable le : A -> A -> bool.

Lemma insert_by_perm (a : A) (l : list A) :
  Permutation (a :: l) (insert_by le a l).
Proof.
  induction l as [|b r IH]; simpl; [reflexivity|].
  destruct (le a b); [reflexivity|].
  rewrite perm_swap. now apply perm_skip.
Qed.

Lemma order_by_perm (l : list A) : Permutation l (order_by le l).
Proof.
  induction l as [|a r IH]; simpl; [constructor|].
  rewrite <- insert_by_perm. now apply perm_skip.
Qed.

Lemma order_by_length (l : list A) : length (order_by le l) = length l.
Proof. symmetry. apply Permutation_length, order_by_perm. Qed.

Lemma order_by_in (x : A) (l : list A) : In x (order_by le l) <-> In x l.
Proof.
  split; intro H.
  - eapply Permutation_in; [symmetry; apply order_by_perm | exact H].
  - eapply Permutation_in; [apply order_by_perm | exact H].
Qed.

(** A row set that already arrives in order is left as it is. *)
Lemma order_by_ordered (l : list A) : ordered le l = true -> order_by le l = l.
Proof.
  induction l as [|a r IH]; [reflexivity|].
  intro H. simpl in H. destruct r as [|b r'].
  - reflexivity.
  - apply andb_prop in H as [Hab Hr].
    change (order_by le (a :: b :: r')) with (insert_by le a (order_by le (b :: r'))).
    rewrite (IH Hr). simpl. now rewrite Hab.
Qed.

Lemma ordered_cons (a b : A) (l : list A) :
  ordered le (a :: b :: l) = le a b && ordered le (b :: l).
Proof. reflexivity. Qed.

Lemma ordered_tail (a : A) (l : list A) :
  ordered le (a :: l) = true -> ordered le l = true.
Proof.
  destruct l as [|b r]; [reflexivity|].
  rewrite ordered_cons. intro H. now apply andb_prop in H.
Qed.

Hypothesis le_total : forall a b, le a b = false -> le b a = true.

Lemma insert_by_ordered (a : A) (l : list A) :
  ordered le l = true -> ordered le (insert_by le a l) = true.
Proof.
  induction l as [|b r IH]; intro H; [reflexivity|].
  simpl insert_by. destruct (le a b) eqn:E.
  - rewrite ordered_cons, E. exact H.
  - pose proof (@le_total _ _ E) as Hba.
    destruct r as [|c r'].
    + simpl. now rewrite Hba.
    + rewrite ordered_cons in H. apply andb_prop in H as [Hbc Hr].
      specialize (IH Hr). simpl insert_by in *.
      destruct (le a c) eqn:E2.
      * rewrite ordered_cons, Hba. exact IH.
      * rewrite ordered_cons, Hbc. exact IH.
Qed.

Lemma order_by_is_ordered (l : list A) : ordered le (order_by le l) = true.
Proof.
  induction l as [|a r IH]; [reflexivity|].
  simpl. now apply insert_by_ordered.
Qed.
End OrderByFacts.

(* ------------------------------------------------------------------ *)
(** ** First-seen order *)

Lemma existsb_eqb_in (k : Z) (l : list Z) :
  existsb (Z.eqb k) l = true <-> In k l.
Proof.
  rewrite existsb_exists. split.
  - intros [x [Hin Heq]]. apply Z.eqb_eq in Heq. now subst.
  - intro H. exists k. split; [exact H | apply Z.eqb_refl].
Qed.

Lemma add_new_in (acc : list Z) (k x : Z) :
  In x (add_new acc k) <-> In x acc \/ x = k.
Proof.
  unfold add_new. destruct (existsb (Z.eqb k) acc) eqn:E.
  - apply existsb_eqb_in in E. split; [tauto|]. intros [H|H]; [exact H | now subst].
  - rewrite in_app_iff. simpl. intuition.
Qed.

Lemma add_new_nodup (acc : list Z) (k : Z) : NoDup acc -> NoDup (add_new acc k).
Proof.
  intro H. unfold add_new. destruct (existsb (Z.eqb k) acc) eqn:E; [exact H|].
  assert (Hk : ~ In k acc).
  { intro Hin. apply existsb_eqb_in in Hin. congruence. }
  clear E. induction H as [|a l Ha Hl IH]; simpl.
  - constructor; [tauto | constructor].
  - constructor.
    + rewrite in_app_iff. simpl. intros [H1|[H1|[]]]; [tauto|].
      subst. apply Hk. now left.
    + apply IH. intro H1. apply Hk. now right.
Qed.

Lemma fold_add_new_in (l acc : list Z) (x : Z) :
  In x (fold_left add_new l acc) <-> In x acc \/ In x l.
Proof.
  revert acc. induction l as [|k r IH]; intro acc; simpl; [tauto|].
  rewrite IH, add_new_in. intuition; subst; auto.
Qed.

Lemma fold_add_new_nodup (l acc : list Z) :
  NoDup acc -> NoDup (fold_left add_new l acc).
Proof.
  revert acc. induction l as [|k r IH]; intros acc H; simpl; [exact H|].
  apply IH, add_new_nodup, H.
Qed.

Lemma first_seen_in (l : list Z) (x : Z) : In x (first_seen l) <-> In x l.
Proof. unfold first_seen. rewrite fold_add_new_in. simpl. tauto. Qed.

Lemma first_seen_nodup (l : list Z) : NoDup (first_seen l).
Proof. apply fold_add_new_nodup. constructor. Qed.

Lemma present_in (l : list sqlint) (x : Z) :
  In x (present l) <-> In (Some x) l /\ x <> 0.
Proof.
  induction l as [|[n|] r IH]; simpl.
  - tauto.
  - destruct (n =? 0) eqn:E.
    + apply Z.eqb_eq in E. subst. rewrite IH. split.
      * intros [H1 H2]. auto.
      * intros [[H1|H1] H2]; [congruence | auto].
    + apply Z.eqb_neq in E. simpl. rewrite IH. split.
      * intros [H|[H1 H2]]; [subst; auto | auto].
      * intros [[H1|H1] H2]; [left; congruence | auto].
  - rewrite IH. split.
    + intros [H1 H2]. auto.
    + intros [[H1|H1] H2]; [discriminate | auto].
Qed.

Lemma present_app (l1 l2 : list sqlint) :
  present (l1 ++ l2) = present l1 ++ present l2.
Proof.
  induction l1 as [|[n|] r IH]; simpl; [reflexivity| |exact IH].
  destruct (n =? 0); [exact IH | simpl; now rewrite IH].
Qed.

(* ------------------------------------------------------------------ *)
(** ** Response Sanitizer *)

Module SanitizerFacts.
Import Sanitizer.
Local Open Scope N_scope.

Lemma skip_spaces_idem (t : jsstring) : skip_spaces (skip_spaces t) = skip_spaces t.
Proof.
  induction t as [|c r IH]; [reflexivity|].
  simpl. destruct (is_space c) eqn:E; [exact IH|].
  simpl. now rewrite E.
Qed.

Lemma trim_skip_spaces (t : jsstring) : trim (skip_spaces t) = trim t.
Proof. unfold trim. now rewrite skip_spaces_idem. Qed.

(** [\s*] stops at the closing fence at the latest: a backtick is no space. *)
Lemma skip_spaces_before_fence (inner post : jsstring) :
  skip_spaces (inner ++ fence ++ post) = skip_spaces inner ++ fence ++ post.
Proof.
  induction inner as [|c r IH]; [reflexivity|].
  simpl. destruct (is_space c); [exact IH | reflexivity].
Qed.

Lemma until_fence_cons (c : N) (r : jsstring) :
  until_fence (c :: r) =
  if starts_with fence (c :: r) then Some []
  else option_map (cons c) (until_fence r).
Proof. reflexivity. Qed.

Lemma fence_free_tail (c : N) (r : jsstring) : fence_free (c :: r) -> fence_free r.
Proof.
  unfold fence_free. rewrite <- app_comm_cons, until_fence_cons.
  destruct (starts_with fence (c :: r ++ [96; 96])); [discriminate|].
  destruct (until_fence (r ++ [96; 96])); [discriminate | reflexivity].
Qed.

Lemma fence_free_skip_spaces (inner : jsstring) :
  fence_free inner -> fence_free (skip_spaces inner).
Proof.
  induction inner as [|c r IH]; intro H; [exact H|].
  simpl. destruct (is_space c); [|exact H].
  apply IH. eapply fence_free_tail, H.
Qed.

Lemma fence_free_head (c : N) (r post : jsstring) :
  fence_free (c :: r) -> starts_with fence (c :: r ++ fence ++ post) = false.
Proof.
  unfold fence_free. rewrite <- app_comm_cons, until_fence_cons.
  destruct (starts_with fence (c :: r ++ [96; 96])) eqn:E; [discriminate|].
  intros _. destruct r as [|b [|a r']]; exact E.
Qed.

(** The lazy group takes exactly the text up to the closing fence. *)
Lemma until_fence_closing (inner post : jsstring) :
  fence_free inner -> until_fence (inner ++ fence ++ post) = Some inner.
Proof.
  induction inner as [|c r IH]; intro H; [reflexivity|].
  rewrite <- app_comm_cons, until_fence_cons.
  rewrite (fence_free_head _ H), (IH (fence_free_tail H)). reflexivity.
Qed.

(** For a text that opens with a fence tagged json (in any letter case is
    shown by [json_fence_upper_case] below), both sanitizers return the inner
    content of the fence, trimmed. *)
Lemma jsonMatch_json_fence (inner post : jsstring) :
  fence_free inner ->
  jsonMatch (json_open ++ inner ++ fence ++ post) = Some (skip_spaces inner).
Proof.
  intro H. unfold jsonMatch.
  change (match_json_fence (json_open ++ inner ++ fence ++ post))
    with (match until_fence (skip_spaces (inner ++ fence ++ post)) with
          | Some i => Some i
          | None => match_json_fence
                      (skipn 1 (json_open ++ inner ++ fence ++ post))
          end).
  rewrite skip_spaces_before_fence.
  now rewrite (until_fence_closing _ (fence_free_skip_spaces H)).
Qed.

Lemma sanitize_index_json_fence (inner post : jsstring) :
  fence_free inner ->
  sanitize_index (json_open ++ inner ++ fence ++ post) = trim inner.
Proof.
  intro H. unfold sanitize_index.
  rewrite (jsonMatch_json_fence post H). apply trim_skip_spaces.
Qed.

Lemma sanitize_new_json_fence (inner post : jsstring) :
  fence_free inner ->
  sanitize_new (json_open ++ inner ++ fence ++ post) = trim inner.
Proof.
  intro H. unfold sanitize_new.
  rewrite (jsonMatch_json_fence post H). apply trim_skip_spaces.
Qed.

(** [index.js] trims whichever text it ends up with. *)
Lemma sanitize_index_trims (t : jsstring) :
  sanitize_index t = trim (match jsonMatch t with Some inner => inner | None => t end).
Proof. unfold sanitize_index. now destruct (jsonMatch t). Qed.

(** The tagged fence wins over an untagged one that comes first. *)
Example json_fence_first :
  sanitize_index (of_string "``` x ``` ```json {} ```") = of_string "{}".
Proof. reflexivity. Qed.

Example json_fence_upper_case :
  sanitize_index (of_string "Here: ```JSON [1] ``` bye") = of_string "[1]".
Proof. reflexivity. Qed.

(** Without a fence, [new.js] hands the text on untouched. *)
Lemma sanitize_new_without_fence (t : jsstring) :
  jsonMatch t = None -> sanitize_new t = t.
Proof. intro H. unfold sanitize_new. now rewrite H. Qed.

(** C5, on a text without a fence and with white space around it.  The
    sanitizer is to trim the full text when no fence is found.  [index.js]
    does; the copy of the sanitizer in [new.js] has lost the [else] branch
    and hands the text on with its surrounding white space. *)
Theorem sanitizer_new_keeps_white_space :
  jsonMatch unfenced_padded = None
  /\ sanitize_index unfenced_padded = [91; 93]
  /\ sanitize_new unfenced_padded = unfenced_padded
  /\ sanitize_new unfenced_padded <> trim unfenced_padded.
Proof. repeat split; try reflexivity. discriminate. Qed.

End SanitizerFacts.

(* ------------------------------------------------------------------ *)
(** ** Objects keyed by identifiers *)

Module JsObjectFacts.
Import JsObject.

Section Facts.
Variable V : Type.
Implicit Types (o : t V) (k : Z) (v : V).

Lemma has_keys o k : has o k = existsb (Z.eqb k) (keys o).
Proof.
  unfold has. induction o as [|[k' v'] r IH]; [reflexivity|].
  simpl. rewrite (Z.eqb_sym k k'). destruct (k' =? k); [reflexivity | exact IH].
Qed.

Lemma has_in o k : has o k = true <-> In k (keys o).
Proof. rewrite has_keys. apply existsb_eqb_in. Qed.

Lemma get_set_same o k v : get (set o k v) k = Some v.
Proof.
  induction o as [|[k' v'] r IH]; simpl.
  - now rewrite Z.eqb_refl.
  - destruct (k' =? k) eqn:E; simpl; [now rewrite Z.eqb_refl | now rewrite E].
Qed.

Lemma get_set_other o k k' v : k <> k' -> get (set o k v) k' = get o k'.
Proof.
  intro H. induction o as [|[k0 v0] r IH]; simpl.
  - apply Z.eqb_neq in H. now rewrite H.
  - destruct (k0 =? k) eqn:E; simpl.
    + apply Z.eqb_eq in E. subst k0. apply Z.eqb_neq in H. now rewrite H.
    + destruct (k0 =? k'); [reflexivity | exact IH].
Qed.

Lemma get_alter_same (f : V -> V) o k :
  get (alter f o k) k = option_map f (get o k).
Proof.
  induction o as [|[k0 v0] r IH]; [reflexivity|].
  simpl. destruct (k0 =? k) eqn:E; simpl; now rewrite E.
Qed.

Lemma get_alter_other (f : V -> V) o k k' :
  k <> k' -> get (alter f o k) k' = get o k'.
Proof.
  intro H. induction o as [|[k0 v0] r IH]; [reflexivity|].
  simpl. destruct (k0 =? k) eqn:E; simpl.
  - apply Z.eqb_eq in E. subst k0. apply Z.eqb_neq in H. now rewrite H.
  - destruct (k0 =? k'); [reflexivity | exact IH].
Qed.

Lemma keys_alter (f : V -> V) o k : keys (alter f o k) = keys o.
Proof.
  unfold keys. induction o as [|[k0 v0] r IH]; [reflexivity|].
  simpl. destruct (k0 =? k); simpl; [reflexivity | now rewrite IH].
Qed.

(** Creating a property puts it last. *)
Lemma set_new o k v : has o k = false -> set o k v = o ++ [(k, v)].
Proof.
  unfold has. induction o as [|[k0 v0] r IH]; [reflexivity|].
  simpl. destruct (k0 =? k); [discriminate|].
  intro H. now rewrite (IH H).
Qed.

Lemma keys_set_new o k v : has o k = false -> keys (set o k v) = keys o ++ [k].
Proof.
  intro H. rewrite set_new by exact H. unfold keys. now rewrite map_app.
Qed.

Lemma get_in o k v : get o k = Some v -> In (k, v) o.
Proof.
  induction o as [|[k0 v0] r IH]; [discriminate|].
  simpl. destruct (k0 =? k) eqn:E.
  - apply Z.eqb_eq in E. intro H. injection H as <-. subst. now left.
  - intro H. right. now apply IH.
Qed.

Lemma in_get o k v : NoDup (keys o) -> In (k, v) o -> get o k = Some v.
Proof.
  induction o as [|[k0 v0] r IH]; [intros _ []|].
  simpl. intros Hnd [H|H].
  - injection H as -> ->. now rewrite Z.eqb_refl.
  - inversion Hnd as [|? ? Hk Hr]. subst.
    destruct (k0 =? k) eqn:E.
    + apply Z.eqb_eq in E. subst k0. exfalso. apply Hk.
      change k with (fst (k, v)). now apply in_map.
    + now apply IH.
Qed.

Lemma values_perm o : Permutation (map snd o) (values o).
Proof.
  unfold values. rewrite <- (order_by_perm (@key_le V)), <- map_app.
  apply Permutation_map.
  induction o as [|[k0 v0] r IH]; [constructor|].
  simpl. destruct (is_index k0); simpl.
  - now apply perm_skip.
  - now apply Permutation_cons_app.
Qed.

Lemma values_in o v : In v (values o) <-> In v (map snd o).
Proof.
  split; intro H.
  - eapply Permutation_in; [symmetry; apply values_perm | exact H].
  - eapply Permutation_in; [apply values_perm | exact H].
Qed.

Lemma ordered_keys o :
  ordered (@key_le V) o = ordered Z.leb (keys o).
Proof.
  induction o as [|[k0 v0] r IH]; [reflexivity|].
  destruct r as [|[k1 v1] r']; [reflexivity|].
  change (key_le (k0, v0) (k1, v1) && ordered (@key_le V) ((k1, v1) :: r')
          = (k0 <=? k1) && ordered Z.leb (keys ((k1, v1) :: r'))).
  now rewrite IH.
Qed.

(** When every key is an array index and the properties were created in
    ascending key order, enumeration order is creation order. *)
Lemma values_in_creation_order o :
  forallb is_index (keys o) = true -> ordered Z.leb (keys o) = true ->
  values o = map snd o.
Proof.
  intros Hidx Hord. unfold values.
  assert (H1 : filter (fun p => is_index (fst p)) o = o).
  { clear Hord. induction o as [|[k0 v0] r IH]; [reflexivity|].
    simpl in *. apply andb_prop in Hidx as [Hk Hr].
    rewrite Hk. now rewrite (IH Hr). }
  assert (H2 : filter (fun p => negb (is_index (fst p))) o = []).
  { clear Hord H1. induction o as [|[k0 v0] r IH]; [reflexivity|].
    simpl in *. apply andb_prop in Hidx as [Hk Hr].
    rewrite Hk. simpl. now apply IH. }
  rewrite H1, H2, app_nil_r, order_by_ordered; [reflexivity|].
  now rewrite ordered_keys.
Qed.
End Facts.
End JsObjectFacts.

(* ------------------------------------------------------------------ *)
(** ** Row-to-Tree Reconstructor *)

Module GrammarFacts.
Import Grammar JsObject JsObjectFacts.

(** *** All roots: what [grammarMap] holds after any row stream *)

Lemma update_first_ids (row : Row) (es : list ExampleEntry) :
  map e_id (update_first (same_example row) (push_entry_vocab row) es)
  = map e_id es.
Proof.
  induction es as [|a r IH]; [reflexivity|].
  simpl. destruct (same_example row a); simpl; [reflexivity | now rewrite IH].
Qed.

Lemma existsb_same_example (row : Row) (es : list ExampleEntry) :
  existsb (same_example row) es
  = existsb (Z.eqb (number_of (ExampleId row))) (map e_id es).
Proof.
  induction es as [|a r IH]; [reflexivity|].
  simpl. unfold same_example at 1. now rewrite Z.eqb_sym, IH.
Qed.

Lemma handle_examples_ids (row : Row) (es : list ExampleEntry) :
  map e_id (handle_examples row es)
  = add_new (map e_id es) (number_of (ExampleId row)).
Proof.
  unfold handle_examples, add_new. rewrite <- existsb_same_example.
  destruct (existsb (same_example row) es); destruct (truthy (VocabId row));
    rewrite ?update_first_ids, ?map_app; reflexivity.
Qed.

Lemma collect_row_keys (m : t GrammarEntry) (row : Row) :
  keys (collect_row m row) = add_new (keys m) (GrammarId row).
Proof.
  unfold collect_row, add_new. rewrite <- has_keys.
  destruct (has m (GrammarId row)) eqn:E; simpl negb; cbv iota zeta;
    destruct (truthy (ExampleId row));
    rewrite ?keys_alter, ?keys_set_new by exact E; reflexivity.
Qed.

Lemma collect_rows_keys (rows : list Row) (m : t GrammarEntry) :
  keys (fold_left collect_row rows m)
  = fold_left add_new (map GrammarId rows) (keys m).
Proof.
  revert m. induction rows as [|row r IH]; intro m; [reflexivity|].
  simpl. now rewrite IH, collect_row_keys.
Qed.

Lemma has_false_get (m : t GrammarEntry) (k : Z) : has m k = false -> get m k = None.
Proof. unfold has. now destruct (get m k). Qed.

Lemma collect_row_entries (m : t GrammarEntry) (row : Row) (g : Z) :
  entries_of (collect_row m row) g
  = if of_grammar g row && truthy (ExampleId row)
    then handle_examples row (entries_of m g)
    else entries_of m g.
Proof.
  unfold collect_row, entries_of, of_grammar.
  destruct (GrammarId row =? g) eqn:Eg.
  - apply Z.eqb_eq in Eg. subst g.
    destruct (has m (GrammarId row)) eqn:E; simpl negb; cbv iota zeta;
      destruct (truthy (ExampleId row)); simpl andb; cbv iota;
      rewrite ?get_alter_same, ?get_set_same.
    + unfold has in E. now destruct (get m (GrammarId row)).
    + reflexivity.
    + now rewrite (has_false_get _ _ E).
    + now rewrite (has_false_get _ _ E).
  - apply Z.eqb_neq in Eg. simpl andb. cbv iota.
    destruct (has m (GrammarId row)); simpl negb; cbv iota zeta;
      destruct (truthy (ExampleId row));
      rewrite ?get_alter_other, ?get_set_other by exact Eg; reflexivity.
Qed.

Lemma collect_rows_example_ids (rows : list Row) (m : t GrammarEntry) (g : Z) :
  map e_id (entries_of (fold_left collect_row rows m) g)
  = fold_left add_new (present (map ExampleId (filter (of_grammar g) rows)))
      (map e_id (entries_of m g)).
Proof.
  revert m. induction rows as [|row r IH]; intro m; [reflexivity|].
  simpl fold_left at 1. rewrite IH, collect_row_entries. simpl filter.
  destruct (of_grammar g row); [|reflexivity].
  simpl andb. simpl map. unfold truthy.
  destruct (ExampleId row) as [n|] eqn:En; simpl present.
  - destruct (n =? 0); simpl negb; cbv iota; [reflexivity|].
    simpl. rewrite handle_examples_ids, En. reflexivity.
  - reflexivity.
Qed.

Lemma find_snoc (A : Type) (p : A -> bool) (l : list A) (x : A) :
  find p (l ++ [x])
  = match find p l with
    | Some y => Some y
    | None => if p x then Some x else None
    end.
Proof.
  induction l as [|a r IH]; [reflexivity|].
  simpl. destruct (p a); [reflexivity | exact IH].
Qed.

Lemma leaves_of_new_example (row : Row) (es : list ExampleEntry) (e : Z) :
  leaves_of (es ++ [example_entry_of_row row]) e = leaves_of es e.
Proof.
  unfold leaves_of. rewrite find_snoc.
  destruct (find (fun ex => e_id ex =? e) es); [reflexivity|].
  now destruct (e_id (example_entry_of_row row) =? e).
Qed.

Lemma leaves_of_update_first (row : Row) (es : list ExampleEntry) (e : Z) :
  leaves_of (update_first (same_example row) (push_entry_vocab row) es) e
  = if (number_of (ExampleId row) =? e) && existsb (same_example row) es
    then leaves_of es e ++ [vocab_of_row row]
    else leaves_of es e.
Proof.
  unfold leaves_of. induction es as [|a r IH].
  - simpl. now rewrite andb_false_r.
  - simpl update_first. simpl existsb. unfold same_example at 1 3.
    destruct (e_id a =? number_of (ExampleId row)) eqn:Ea.
    + apply Z.eqb_eq in Ea. rewrite orb_true_l, andb_true_r.
      cbn [find push_entry_vocab e_id e_vocab]. rewrite Ea.
      now destruct (number_of (ExampleId row) =? e).
    + rewrite orb_false_l. cbn [find].
      destruct (e_id a =? e) eqn:Ee; [|exact IH].
      apply Z.eqb_eq in Ee. subst e. rewrite (Z.eqb_sym _ (e_id a)), Ea.
      reflexivity.
Qed.

Lemma handle_examples_leaves (row : Row) (es : list ExampleEntry) (e : Z) :
  leaves_of (handle_examples row es) e
  = if (number_of (ExampleId row) =? e) && truthy (VocabId row)
    then leaves_of es e ++ [vocab_of_row row]
    else leaves_of es e.
Proof.
  unfold handle_examples.
  destruct (truthy (VocabId row)).
  - destruct (existsb (same_example row) es) eqn:E.
    + now rewrite leaves_of_update_first, E.
    + rewrite leaves_of_update_first, existsb_app, E, leaves_of_new_example.
      simpl. unfold same_example. simpl. now rewrite Z.eqb_refl.
  - rewrite andb_false_r.
    destruct (existsb (same_example row) es); [reflexivity|].
    apply leaves_of_new_example.
Qed.

Lemma collect_rows_leaves (rows : list Row) (m : t GrammarEntry) (g e : Z) :
  leaves_of (entries_of (fold_left collect_row rows m) g) e
  = leaves_of (entries_of m g) e
    ++ map vocab_of_row (filter (pushes_leaf g e) rows).
Proof.
  revert m. induction rows as [|row r IH]; intro m.
  - simpl. now rewrite app_nil_r.
  - simpl fold_left. rewrite IH, collect_row_entries. simpl filter.
    unfold pushes_leaf at 2. unfold of_example.
    destruct (of_grammar g row); simpl andb; cbv iota; [|reflexivity].
    destruct (ExampleId row) as [n|] eqn:En; [|reflexivity].
    change (truthy (Some n)) with (negb (n =? 0)).
    destruct (n =? 0); simpl negb; simpl andb; cbv iota; [reflexivity|].
    rewrite handle_examples_leaves, En. simpl number_of.
    destruct ((n =? e) && truthy (VocabId row)); [|reflexivity].
    simpl map. now rewrite <- app_assoc.
Qed.

Lemma Forall_set (V : Type) (P : Z * V -> Prop) (m : t V) (k : Z) (v : V) :
  Forall P m -> P (k, v) -> Forall P (set m k v).
Proof.
  intros Hm Hv. induction Hm as [|[k0 v0] r H0 Hr IH]; simpl.
  - constructor; [exact Hv | constructor].
  - destruct (k0 =? k); constructor; auto.
Qed.

Lemma Forall_alter (V : Type) (P : Z * V -> Prop) (f : V -> V) (m : t V) (k : Z) :
  Forall P m -> (forall k0 v0, P (k0, v0) -> P (k0, f v0)) ->
  Forall P (alter f m k).
Proof.
  intros Hm Hf. induction Hm as [|[k0 v0] r H0 Hr IH]; simpl.
  - constructor.
  - destruct (k0 =? k); constructor; auto.
Qed.

(** Every grammar object sits under its own identifier. *)
Lemma collect_rows_keyed (rows : list Row) (m : t GrammarEntry) :
  Forall (fun p => g_id (snd p) = fst p) m ->
  Forall (fun p => g_id (snd p) = fst p) (fold_left collect_row rows m).
Proof.
  revert m. induction rows as [|row r IH]; intros m H; [exact H|].
  simpl. apply IH. unfold collect_row.
  assert (H1 : Forall (fun p => g_id (snd p) = fst p)
                 (if negb (has m (GrammarId row))
                  then set m (GrammarId row) (grammar_entry_of_row row)
                  else m)).
  { destruct (negb (has m (GrammarId row))); [|exact H].
    apply Forall_set; [exact H | reflexivity]. }
  cbv zeta. destruct (truthy (ExampleId row)); [|exact H1].
  apply Forall_alter; [exact H1|]. intros k0 v0 Hk. exact Hk.
Qed.

Lemma keys_of_keyed (m : t GrammarEntry) :
  Forall (fun p => g_id (snd p) = fst p) m -> map g_id (map snd m) = keys m.
Proof.
  intro H. unfold keys. rewrite map_map. apply map_ext_in.
  intros p Hp. rewrite Forall_forall in H. now apply H.
Qed.

Lemma collect_rows_root_keys (rows : list Row) :
  keys (collect_rows rows) = first_seen (map GrammarId rows).
Proof. unfold collect_rows. now rewrite collect_rows_keys. Qed.

Lemma grammars_of_rows_values (rows : list Row) :
  grammars_of_rows rows = values (collect_rows rows).
Proof. now destruct rows. Qed.

Lemma root_ids_perm (rows : list Row) :
  Permutation (first_seen (map GrammarId rows)) (map g_id (grammars_of_rows rows)).
Proof.
  rewrite grammars_of_rows_values, <- collect_rows_root_keys.
  assert (Hk : map g_id (map snd (collect_rows rows)) = keys (collect_rows rows)).
  { apply keys_of_keyed. unfold collect_rows. apply collect_rows_keyed. constructor. }
  rewrite <- Hk. apply Permutation_map, values_perm.
Qed.

(** The grammar object returned for a root is the one the map holds for it. *)
Lemma root_lookup (rows : list Row) (n : GrammarEntry) :
  In n (grammars_of_rows rows) -> get (collect_rows rows) (g_id n) = Some n.
Proof.
  rewrite grammars_of_rows_values, values_in, in_map_iff.
  intros [[k v] [Hv Hin]]. simpl in Hv. subst v.
  assert (Hk : Forall (fun p => g_id (snd p) = fst p) (collect_rows rows)).
  { unfold collect_rows. apply collect_rows_keyed. constructor. }
  rewrite Forall_forall in Hk. specialize (Hk _ Hin). simpl in Hk. subst k.
  apply in_get; [|exact Hin].
  rewrite collect_rows_root_keys. apply first_seen_nodup.
Qed.

Lemma root_examples (rows : list Row) (n : GrammarEntry) :
  In n (grammars_of_rows rows) ->
  g_examples n = entries_of (collect_rows rows) (g_id n).
Proof. intro H. unfold entries_of. now rewrite (root_lookup _ _ H). Qed.

Lemma example_ids_first_seen (rows : list Row) (n : GrammarEntry) :
  In n (grammars_of_rows rows) ->
  map e_id (g_examples n)
  = first_seen (present (map ExampleId (filter (of_grammar (g_id n)) rows))).
Proof.
  intro H. rewrite (root_examples _ _ H). unfold collect_rows.
  now rewrite collect_rows_example_ids.
Qed.

Lemma find_unique (es : list ExampleEntry) (ex : ExampleEntry) :
  NoDup (map e_id es) -> In ex es ->
  find (fun x => e_id x =? e_id ex) es = Some ex.
Proof.
  induction es as [|a r IH]; [intros _ []|].
  simpl. intros Hnd [H|H].
  - subst a. now rewrite Z.eqb_refl.
  - inversion Hnd as [|? ? Ha Hr]. subst.
    destruct (e_id a =? e_id ex) eqn:E; [|now apply IH].
    apply Z.eqb_eq in E. exfalso. apply Ha. rewrite E. now apply in_map.
Qed.

(** The vocabulary of an example of the tree: one entry for every row that
    carries the example with a truthy [VocabId], in row order. *)
Lemma example_leaves (rows : list Row) (n : GrammarEntry) (ex : ExampleEntry) :
  In n (grammars_of_rows rows) -> In ex (g_examples n) ->
  e_vocab ex = map vocab_of_row (filter (pushes_leaf (g_id n) (e_id ex)) rows).
Proof.
  intros Hn Hex.
  assert (Hnd : NoDup (map e_id (g_examples n))).
  { rewrite (example_ids_first_seen _ _ Hn). apply first_seen_nodup. }
  transitivity (leaves_of (g_examples n) (e_id ex)).
  - unfold leaves_of. now rewrite (find_unique _ _ Hnd Hex).
  - rewrite (root_examples _ _ Hn). unfold collect_rows.
    rewrite collect_rows_leaves. reflexivity.
Qed.

(** *** Single root: what the loop state holds after any row stream *)

Lemma transform_row_keys (st : loop_state) (row : Row) :
  keys (snd (transform_row st row))
  = if truthy (ExampleId row)
    then add_new (keys (snd st)) (number_of (ExampleId row))
    else keys (snd st).
Proof.
  destruct st as [l m]. unfold transform_row, add_new. cbn [snd].
  rewrite <- has_keys.
  destruct (truthy (ExampleId row)); [|reflexivity].
  cbv zeta.
  destruct (has m (number_of (ExampleId row))) eqn:E; simpl negb; cbv iota;
    destruct (truthy (VocabId row));
    try match goal with
        | |- context [get ?o ?k] => destruct (get o k)
        end;
    simpl snd; rewrite ?keys_set_new by exact E; reflexivity.
Qed.

Lemma transform_rows_keys (rows : list Row) (st : loop_state) :
  keys (snd (fold_left transform_row rows st))
  = fold_left add_new (present (map ExampleId rows)) (keys (snd st)).
Proof.
  revert st. induction rows as [|row r IH]; intro st; [reflexivity|].
  simpl fold_left at 1. rewrite IH, transform_row_keys. simpl map.
  destruct (ExampleId row) as [n|]; simpl; [|reflexivity].
  now destruct (n =? 0).
Qed.

Lemma update_nth_length (A : Type) (i : nat) (f : A -> A) (l : list A) :
  length (update_nth i f l) = length l.
Proof.
  revert i. induction l as [|a r IH]; intros [|j]; simpl; auto.
Qed.

(** One example object per property of [exampleMap]. *)
Lemma transform_row_lengths (st : loop_state) (row : Row) :
  length (fst st) = length (snd st) ->
  length (fst (transform_row st row)) = length (snd (transform_row st row)).
Proof.
  destruct st as [l m]. simpl. intro H. unfold transform_row.
  destruct (truthy (ExampleId row)); [|exact H].
  cbv zeta.
  destruct (has m (number_of (ExampleId row))) eqn:E; simpl negb; cbv iota;
    destruct (truthy (VocabId row));
    try match goal with
        | |- context [get ?o ?k] => destruct (get o k)
        end;
    simpl fst; simpl snd;
    rewrite ?update_nth_length, ?set_new by exact E;
    rewrite ?length_app; simpl; lia.
Qed.

Lemma transform_rows_lengths (rows : list Row) (st : loop_state) :
  length (fst st) = length (snd st) ->
  length (fst (fold_left transform_row rows st))
  = length (snd (fold_left transform_row rows st)).
Proof.
  revert st. induction rows as [|row r IH]; intros st H; [exact H|].
  simpl. apply IH, transform_row_lengths, H.
Qed.

(** The one-node-per-identifier half of C3 for the single-root route. *)
Lemma transform_rows_count (rows : list Row) :
  length (fst (transform_rows rows))
  = length (first_seen (present (map ExampleId rows))).
Proof.
  unfold transform_rows. rewrite transform_rows_lengths by reflexivity.
  pose proof (transform_rows_keys rows ([], empty nat)) as H.
  change (keys (snd ([], empty nat))) with (@nil Z) in H.
  unfold first_seen. rewrite <- H. unfold keys. now rewrite length_map.
Qed.

(** Every reference kept in [exampleMap] points into [grammar.examples]. *)
Lemma transform_row_refs (st : loop_state) (row : Row) :
  (forall k i, get (snd st) k = Some i -> (i < length (fst st))%nat) ->
  forall k i, get (snd (transform_row st row)) k = Some i ->
              (i < length (fst (transform_row st row)))%nat.
Proof.
  destruct st as [l m]. cbn [fst snd]. intros H k i.
  unfold transform_row.
  destruct (truthy (ExampleId row)); [|apply H].
  cbv zeta. set (e := number_of (ExampleId row)).
  assert (H1 : forall k i,
             get (snd (if negb (has m e)
                       then (l ++ [example_of_row row], set m e (length l))
                       else (l, m))) k = Some i ->
             (i < length (fst (if negb (has m e)
                               then (l ++ [example_of_row row], set m e (length l))
                               else (l, m))))%nat).
  { destruct (has m e); simpl negb; cbv iota; cbn [fst snd]; [apply H|].
    intros k0 i0. rewrite length_app. simpl.
    destruct (Z.eq_dec e k0) as [->|Hne].
    - rewrite get_set_same. intro Hi. injection Hi as <-. lia.
    - rewrite get_set_other by exact Hne. intro Hi. specialize (H _ _ Hi). lia. }
  destruct (truthy (VocabId row)); [|apply H1].
  destruct (get _ e); [|apply H1].
  cbn [fst snd]. rewrite update_nth_length. apply H1.
Qed.

Lemma all_leaves_update_nth (i : nat) (row : Row) (l : list ExampleNode) :
  (i < length l)%nat ->
  length (all_leaves (update_nth i (push_vocab row) l))
  = S (length (all_leaves l)).
Proof.
  unfold all_leaves. revert i. induction l as [|a r IH]; intros i Hi.
  - simpl in Hi. lia.
  - destruct i as [|j]; simpl.
    + rewrite !length_app. simpl. lia.
    + simpl in Hi. rewrite !length_app, IH by lia. lia.
Qed.

Lemma all_leaves_new_example (row : Row) (l : list ExampleNode) :
  all_leaves (l ++ [example_of_row row]) = all_leaves l.
Proof. unfold all_leaves. rewrite flat_map_app. simpl. now rewrite app_nil_r. Qed.

(** A row adds a leaf exactly when both identifiers pass the truthiness test. *)
Lemma transform_row_leaves (st : loop_state) (row : Row) :
  (forall k i, get (snd st) k = Some i -> (i < length (fst st))%nat) ->
  length (all_leaves (fst (transform_row st row)))
  = (length (all_leaves (fst st))
     + if truthy (ExampleId row) && truthy (VocabId row) then 1 else 0)%nat.
Proof.
  destruct st as [l m]. cbn [fst snd]. intro H.
  unfold transform_row.
  destruct (truthy (ExampleId row)); simpl andb; cbv iota; [|cbn [fst]; lia].
  cbv zeta. set (e := number_of (ExampleId row)).
  destruct (has m e) eqn:E; simpl negb; cbv iota.
  - destruct (truthy (VocabId row)); [|cbn [fst]; lia].
    cbn [fst snd]. unfold has in E.
    destruct (get m e) as [ref|] eqn:G; [|discriminate].
    cbn [fst]. rewrite all_leaves_update_nth by (eapply H, G). lia.
  - destruct (truthy (VocabId row)); cbn [fst snd].
    + rewrite get_set_same. cbn [fst].
      rewrite all_leaves_update_nth by (rewrite length_app; simpl; lia).
      rewrite all_leaves_new_example. lia.
    + rewrite all_leaves_new_example. lia.
Qed.

Lemma transform_rows_refs (rows : list Row) (st : loop_state) :
  (forall k i, get (snd st) k = Some i -> (i < length (fst st))%nat) ->
  forall k i, get (snd (fold_left transform_row rows st)) k = Some i ->
              (i < length (fst (fold_left transform_row rows st)))%nat.
Proof.
  revert st. induction rows as [|row r IH]; intros st H; [exact H|].
  simpl. apply IH. now apply transform_row_refs.
Qed.

Lemma transform_rows_leaves (rows : list Row) (st : loop_state) :
  (forall k i, get (snd st) k = Some i -> (i < length (fst st))%nat) ->
  length (all_leaves (fst (fold_left transform_row rows st)))
  = (length (all_leaves (fst st))
     + length (filter (fun r => truthy (ExampleId r) && truthy (VocabId r)) rows))%nat.
Proof.
  revert st. induction rows as [|row r IH]; intros st H.
  - simpl. lia.
  - simpl fold_left. rewrite IH by (now apply transform_row_refs).
    rewrite transform_row_leaves by exact H. simpl filter.
    destruct (truthy (ExampleId row) && truthy (VocabId row)); simpl; lia.
Qed.

(** *** Lists of identifiers *)

Lemma fold_add_new_fresh (l acc : list Z) :
  NoDup (acc ++ l) -> fold_left add_new l acc = acc ++ l.
Proof.
  revert acc. induction l as [|k r IH]; intros acc H.
  - simpl. now rewrite app_nil_r.
  - simpl. unfold add_new at 2.
    destruct (existsb (Z.eqb k) acc) eqn:E.
    + apply existsb_eqb_in in E. exfalso.
      apply NoDup_remove_2 in H. apply H. rewrite in_app_iff. now left.
    + rewrite IH; rewrite <- app_assoc; [reflexivity | exact H].
Qed.

(** A column without repetitions lists its distinct identifiers already. *)
Lemma first_seen_nodup_id (l : list Z) : NoDup l -> first_seen l = l.
Proof. intro H. unfold first_seen. now rewrite fold_add_new_fresh. Qed.

Lemma present_vocab_filter_in (p : Row -> bool) (rows : list Row) (x : Z) :
  In x (present (map VocabId (filter p rows))) ->
  In x (present (map VocabId rows)).
Proof.
  rewrite !present_in, !in_map_iff.
  intros [[r [Hr Hin]] Hx]. apply filter_In in Hin as [Hin _].
  split; [exists r; auto | exact Hx].
Qed.

Lemma present_vocab_filter_nodup (p : Row -> bool) (rows : list Row) :
  NoDup (present (map VocabId rows)) ->
  NoDup (present (map VocabId (filter p rows))).
Proof.
  induction rows as [|row r IH]; intro H; [constructor|].
  simpl in *.
  assert (Hr : NoDup (present (map VocabId r))).
  { destruct (VocabId row) as [n|]; [|exact H].
    destruct (n =? 0); [exact H | now inversion H]. }
  destruct (p row); [|now apply IH].
  simpl. destruct (VocabId row) as [n|]; [|now apply IH].
  destruct (n =? 0); [now apply IH|].
  inversion H as [|? ? Hn Hnd]. subst.
  constructor; [|now apply IH].
  intro Hin. apply Hn. eapply present_vocab_filter_in, Hin.
Qed.

Lemma present_vocab_length (rows : list Row) :
  length (present (map VocabId rows))
  = length (filter (fun r => truthy (VocabId r)) rows).
Proof.
  induction rows as [|row r IH]; [reflexivity|].
  simpl. unfold truthy at 1. destruct (VocabId row) as [n|]; [|exact IH].
  destruct (n =? 0); simpl; [exact IH | now rewrite IH].
Qed.

Lemma filter_filter (A : Type) (p q : A -> bool) (l : list A) :
  filter q (filter p l) = filter (fun x => p x && q x) l.
Proof.
  induction l as [|a r IH]; [reflexivity|].
  simpl. destruct (p a); simpl; [|exact IH].
  destruct (q a); [now rewrite IH | exact IH].
Qed.

(** *** The single-root loop builds what the all-roots loop builds for one root *)

Lemma index_of_snoc (k : Z) (es : list ExampleEntry) (x : ExampleEntry) :
  index_of k (es ++ [x])
  = match index_of k es with
    | Some i => Some i
    | None => if e_id x =? k then Some (length es) else None
    end.
Proof.
  induction es as [|a r IH]; simpl.
  - now destruct (e_id x =? k).
  - destruct (e_id a =? k); [reflexivity|]. rewrite IH.
    destruct (index_of k r); [reflexivity|]. now destruct (e_id x =? k).
Qed.

Lemma index_of_exists (k : Z) (es : list ExampleEntry) :
  existsb (fun ex => e_id ex =? k) es
  = match index_of k es with Some _ => true | None => false end.
Proof.
  induction es as [|a r IH]; [reflexivity|].
  simpl. destruct (e_id a =? k); [reflexivity|]. rewrite IH.
  now destruct (index_of k r).
Qed.

Lemma index_of_update_first (row : Row) (k : Z) (es : list ExampleEntry) :
  index_of k (update_first (same_example row) (push_entry_vocab row) es)
  = index_of k es.
Proof.
  induction es as [|a r IH]; [reflexivity|].
  simpl. destruct (same_example row a); simpl; [reflexivity|].
  now rewrite IH.
Qed.

Lemma strip_update_first (row : Row) (es : list ExampleEntry) (i : nat) :
  index_of (number_of (ExampleId row)) es = Some i ->
  map strip_id (update_first (same_example row) (push_entry_vocab row) es)
  = update_nth i (push_vocab row) (map strip_id es).
Proof.
  revert i. induction es as [|a r IH]; intros i H; [discriminate|].
  simpl in H. simpl update_first. unfold same_example at 1.
  destruct (e_id a =? number_of (ExampleId row)).
  - injection H as <-. reflexivity.
  - destruct (index_of (number_of (ExampleId row)) r) as [j|]; [|discriminate].
    injection H as <-. simpl. now rewrite (IH j).
Qed.

Lemma transform_row_mirrors (st : loop_state) (es : list ExampleEntry) (row : Row) :
  mirrors st es ->
  mirrors (transform_row st row)
    (if truthy (ExampleId row) then handle_examples row es else es).
Proof.
  destruct st as [l m]. intros [Hl Hm]. simpl in Hl. simpl snd in Hm. subst l.
  unfold transform_row.
  destruct (truthy (ExampleId row)); [|now split].
  cbv zeta. set (k := number_of (ExampleId row)).
  unfold handle_examples.
  change (existsb (same_example row) es)
    with (existsb (fun ex => e_id ex =? k) es).
  rewrite index_of_exists. unfold has. rewrite Hm.
  destruct (index_of k es) as [i|] eqn:Ei; simpl negb; cbv iota.
  - destruct (truthy (VocabId row)); [|now split].
    cbn [fst snd]. rewrite Hm, Ei. split; cbn [fst snd].
    + symmetry. now apply strip_update_first.
    + intro k'. rewrite index_of_update_first. apply Hm.
  - assert (Hnew : forall k', get (set m k (length (map strip_id es))) k'
                              = index_of k' (es ++ [example_entry_of_row row])).
    { intro k'. rewrite index_of_snoc, length_map.
      destruct (Z.eq_dec k k') as [<-|Hne].
      - rewrite get_set_same, Ei. cbn [example_entry_of_row e_id]. fold k.
        now rewrite Z.eqb_refl.
      - rewrite get_set_other by exact Hne. rewrite Hm.
        destruct (index_of k' es); [reflexivity|].
        cbn [example_entry_of_row e_id]. fold k.
        apply Z.eqb_neq in Hne. now rewrite Hne. }
    destruct (truthy (VocabId row)).
    + cbn [fst snd]. rewrite get_set_same. split; cbn [fst snd].
      * replace (map strip_id es ++ [example_of_row row])
          with (map strip_id (es ++ [example_entry_of_row row]))
          by now rewrite map_app.
        symmetry. apply strip_update_first. fold k.
        rewrite index_of_snoc, Ei. cbn [example_entry_of_row e_id]. fold k.
        now rewrite Z.eqb_refl, length_map.
      * intro k'. rewrite index_of_update_first. apply Hnew.
    + split; cbn [fst snd]; [|exact Hnew].
      now rewrite map_app.
Qed.

Lemma transform_rows_mirror (rows : list Row) (st : loop_state)
    (es : list ExampleEntry) :
  mirrors st es -> mirrors (fold_left transform_row rows st) (handle_rows rows es).
Proof.
  revert st es. induction rows as [|row r IH]; intros st es H; [exact H|].
  simpl. apply IH. now apply transform_row_mirrors.
Qed.

(** The examples of the single-root tree, with identifiers attached. *)
Lemma transform_rows_handle_rows (rows : list Row) :
  fst (transform_rows rows) = map strip_id (handle_rows rows []).
Proof.
  unfold transform_rows.
  apply (transform_rows_mirror rows (st := ([], empty nat)) (es := [])).
  split; [reflexivity | intro k; reflexivity].
Qed.

Lemma handle_rows_ids (rows : list Row) (es : list ExampleEntry) :
  map e_id (handle_rows rows es)
  = fold_left add_new (present (map ExampleId rows)) (map e_id es).
Proof.
  revert es. induction rows as [|row r IH]; intro es; [reflexivity|].
  unfold handle_rows in *. simpl fold_left at 1. rewrite IH. simpl map.
  unfold truthy. destruct (ExampleId row) as [n|] eqn:En; simpl present;
    [|reflexivity].
  destruct (n =? 0); simpl negb; cbv iota; [reflexivity|].
  simpl. now rewrite handle_examples_ids, En.
Qed.

Lemma handle_rows_leaves (rows : list Row) (es : list ExampleEntry) (e : Z) :
  leaves_of (handle_rows rows es) e
  = leaves_of es e
    ++ map vocab_of_row
         (filter (fun r => truthy (ExampleId r) && of_example e r
                           && truthy (VocabId r)) rows).
Proof.
  revert es. induction rows as [|row r IH]; intro es.
  - simpl. now rewrite app_nil_r.
  - unfold handle_rows in *. simpl fold_left. rewrite IH. simpl filter.
    unfold of_example at 2.
    destruct (ExampleId row) as [n|] eqn:En; [|reflexivity].
    change (truthy (Some n)) with (negb (n =? 0)).
    destruct (n =? 0); simpl negb; simpl andb; cbv iota; [reflexivity|].
    rewrite handle_examples_leaves, En. simpl number_of.
    destruct ((n =? e) && truthy (VocabId row)); [|reflexivity].
    simpl map. now rewrite <- app_assoc.
Qed.

(** The vocabulary counts of the single-root tree, example by example: for
    each distinct identifier in first-seen order, the number of rows that
    carry it with a truthy [VocabId]. *)
Lemma transform_rows_vocab_counts (rows : list Row) :
  map (fun n => length (n_vocab n)) (fst (transform_rows rows))
  = map (fun e => length (filter (fun r => of_example e r && truthy (VocabId r))
                            rows))
      (first_seen (present (map ExampleId rows))).
Proof.
  rewrite transform_rows_handle_rows, map_map.
  assert (Hids : map e_id (handle_rows rows [])
                 = first_seen (present (map ExampleId rows)))
    by apply handle_rows_ids.
  rewrite <- Hids, map_map. apply map_ext_in. intros ex Hex.
  assert (Hnd : NoDup (map e_id (handle_rows rows []))).
  { rewrite Hids. apply first_seen_nodup. }
  assert (Hnz : e_id ex <> 0).
  { assert (H : In (e_id ex) (map e_id (handle_rows rows [])))
      by now apply in_map.
    rewrite Hids, first_seen_in, present_in in H. tauto. }
  cbn [strip_id n_vocab].
  transitivity (length (leaves_of (handle_rows rows []) (e_id ex))).
  - unfold leaves_of. now rewrite (find_unique _ _ Hnd Hex).
  - rewrite handle_rows_leaves.
    change (leaves_of [] (e_id ex)) with (@nil VocabNode).
    rewrite app_nil_l, length_map. f_equal.
    apply filter_ext. intro r. unfold of_example, truthy.
    destruct (ExampleId r) as [n|]; [|reflexivity].
    destruct (n =? e_id ex) eqn:E; [|now rewrite andb_false_r].
    apply Z.eqb_eq in E. subst n. apply Z.eqb_neq in Hnz. now rewrite Hnz.
Qed.

(** *** C3: one node per parent identifier, one leaf per grandchild identifier *)

Lemma example_row_witness (rows : list Row) (n : GrammarEntry) (ex : ExampleEntry) :
  In n (grammars_of_rows rows) -> In ex (g_examples n) ->
  exists r, In r rows /\ GrammarId r = g_id n
            /\ ExampleId r = Some (e_id ex) /\ e_id ex <> 0.
Proof.
  intros Hn Hex.
  assert (H : In (e_id ex) (map e_id (g_examples n))) by now apply in_map.
  rewrite (example_ids_first_seen _ _ Hn), first_seen_in, present_in in H.
  destruct H as [H Hnz]. apply in_map_iff in H as [r [Hr Hin]].
  apply filter_In in Hin as [Hin Hg]. apply Z.eqb_eq in Hg.
  exists r. auto.
Qed.

Lemma pushes_leaf_of_example (rows : list Row) (n : GrammarEntry) (ex : ExampleEntry) :
  join_shaped rows -> In n (grammars_of_rows rows) -> In ex (g_examples n) ->
  filter (pushes_leaf (g_id n) (e_id ex)) rows
  = filter (fun r => of_example (e_id ex) r && truthy (VocabId r)) rows.
Proof.
  intros [_ [Hfd _]] Hn Hex.
  destruct (example_row_witness _ _ _ Hn Hex) as [r0 [Hin0 [Hg0 [He0 Hnz]]]].
  apply filter_ext_in. intros r Hin. unfold pushes_leaf, of_example, of_grammar.
  destruct (ExampleId r) as [k|] eqn:Ek.
  - destruct (k =? e_id ex) eqn:E.
    + apply Z.eqb_eq in E. subst k.
      assert (Hg : GrammarId r0 = GrammarId r).
      { apply Hfd; [exact Hin0 | exact Hin | rewrite He0; discriminate |].
        now rewrite He0, Ek. }
      rewrite <- Hg, Hg0, Z.eqb_refl. simpl.
      apply Z.eqb_neq in Hnz. now rewrite Hnz.
    + now rewrite !andb_false_r.
  - now rewrite !andb_false_r.
Qed.

(** C3.  For every row set shaped as the root-child-grandchild left join
    delivers it, fan-out duplicates included: the all-roots route returns one
    grammar node per distinct [GrammarId], each with one example node per
    distinct [ExampleId] of its rows (no identifier under two nodes anywhere
    in the output), each example holding one vocabulary entry per distinct
    [VocabId] of its rows; the single-root route builds one example node per
    distinct [ExampleId], in first-seen order, each holding one vocabulary
    entry per distinct [VocabId] of the rows of that example, and so one
    vocabulary entry per distinct [VocabId] in all. *)
Theorem reconstruction_one_node_per_identifier (rows : list Row) :
  join_shaped rows ->
  (NoDup (map g_id (grammars_of_rows rows))
   /\ forall g, In g (map g_id (grammars_of_rows rows)) <-> In g (map GrammarId rows))
  /\ (forall n, In n (grammars_of_rows rows) ->
        map e_id (g_examples n)
        = first_seen (present (map ExampleId (filter (of_grammar (g_id n)) rows)))
        /\ forall ex, In ex (g_examples n) ->
             length (e_vocab ex)
             = length (first_seen
                         (present (map VocabId (filter (of_example (e_id ex)) rows)))))
  /\ (forall n1 n2 ex1 ex2,
        In n1 (grammars_of_rows rows) -> In n2 (grammars_of_rows rows) ->
        In ex1 (g_examples n1) -> In ex2 (g_examples n2) ->
        e_id ex1 = e_id ex2 -> n1 = n2 /\ ex1 = ex2)
  /\ length (fst (transform_rows rows))
     = length (first_seen (present (map ExampleId rows)))
  /\ map (fun n => length (n_vocab n)) (fst (transform_rows rows))
     = map (fun e => length (first_seen
                                (present (map VocabId (filter (of_example e) rows)))))
         (first_seen (present (map ExampleId rows)))
  /\ length (all_leaves (fst (transform_rows rows)))
     = length (first_seen (present (map VocabId rows))).
Proof.
  intro Hj. pose proof Hj as [Hz [Hfd Hnd]].
  repeat apply conj.
  - eapply Permutation_NoDup; [apply root_ids_perm | apply first_seen_nodup].
  - intro g. rewrite <- (first_seen_in (map GrammarId rows)). split; intro H.
    + eapply Permutation_in; [symmetry; apply root_ids_perm | exact H].
    + eapply Permutation_in; [apply root_ids_perm | exact H].
  - intros n Hn. split; [now apply example_ids_first_seen|].
    intros ex Hex.
    rewrite (example_leaves _ _ _ Hn Hex), length_map.
    rewrite (@pushes_leaf_of_example rows n ex Hj Hn Hex).
    rewrite first_seen_nodup_id by now apply present_vocab_filter_nodup.
    now rewrite present_vocab_length, filter_filter.
  - intros n1 n2 ex1 ex2 Hn1 Hn2 Hex1 Hex2 He.
    destruct (example_row_witness _ _ _ Hn1 Hex1) as [r1 [Hin1 [Hg1 [He1 Hnz1]]]].
    destruct (example_row_witness _ _ _ Hn2 Hex2) as [r2 [Hin2 [Hg2 [He2 Hnz2]]]].
    assert (Hg : g_id n1 = g_id n2).
    { rewrite <- Hg1, <- Hg2. apply Hfd; auto; [rewrite He1; discriminate|].
      now rewrite He1, He2, He. }
    assert (Hn : n1 = n2).
    { pose proof (root_lookup _ _ Hn1) as L1.
      pose proof (root_lookup _ _ Hn2) as L2. rewrite Hg in L1. congruence. }
    subst n2. split; [reflexivity|].
    assert (Hids : NoDup (map e_id (g_examples n1))).
    { rewrite (example_ids_first_seen _ _ Hn1). apply first_seen_nodup. }
    pose proof (find_unique _ _ Hids Hex1) as F1.
    pose proof (find_unique _ _ Hids Hex2) as F2.
    rewrite He in F1. congruence.
  - apply transform_rows_count.
  - rewrite transform_rows_vocab_counts. apply map_ext. intro e.
    rewrite first_seen_nodup_id by now apply present_vocab_filter_nodup.
    now rewrite present_vocab_length, filter_filter.
  - unfold transform_rows. rewrite transform_rows_leaves.
    + simpl. rewrite first_seen_nodup_id by exact Hnd.
      rewrite present_vocab_length. f_equal.
      apply filter_ext_in. intros r Hin.
      rewrite Forall_forall in Hz. destruct (Hz _ Hin) as [H0 [H1 H2]].
      unfold truthy. destruct (VocabId r) as [v|]; [|now rewrite andb_false_r].
      destruct (ExampleId r) as [e|].
      * destruct (e =? 0) eqn:E; [|reflexivity].
        apply Z.eqb_eq in E. subst e. now elim H0.
      * exfalso. apply H2; [discriminate | reflexivity].
    + intros k i. simpl. discriminate.
Qed.

Lemma scenario_rows_join_shaped : join_shaped scenario_rows.
Proof.
  unfold join_shaped, scenario_rows. repeat apply conj.
  - repeat constructor; simpl; try discriminate; intro H; now elim H.
  - intros r1 r2 H1 H2 _ _. simpl in H1, H2.
    destruct H1 as [<-|[<-|[<-|[]]]]; destruct H2 as [<-|[<-|[<-|[]]]]; reflexivity.
  - simpl. repeat constructor; simpl; intuition discriminate.
Qed.

(** The three rows of the specification's scenario are shaped as the join
    delivers them, and the single-root tree built from them has one example
    per identifier (10 and 11) with 2 and 0 vocabulary entries. *)
Lemma reconstruction_one_node_per_identifier_witness :
  join_shaped scenario_rows
  /\ map g_id (grammars_of_rows scenario_rows) = [1]
  /\ length (fst (transform_rows scenario_rows))
     = length (first_seen (present (map ExampleId scenario_rows)))
  /\ map (fun n => length (n_vocab n)) (fst (transform_rows scenario_rows))
     = map (fun e => length (first_seen
                                (present (map VocabId
                                            (filter (of_example e) scenario_rows)))))
         (first_seen (present (map ExampleId scenario_rows)))
  /\ length (all_leaves (fst (transform_rows scenario_rows)))
     = length (first_seen (present (map VocabId scenario_rows))).
Proof.
  split; [exact scenario_rows_join_shaped|].
  split; [reflexivity|].
  exact (proj2 (proj2 (proj2
    (reconstruction_one_node_per_identifier scenario_rows_join_shaped)))).
Defined.

Example scenario_single_root :
  grammar_of_rows scenario_rows
  = Json {| n_concept := Some "c"%string; n_grammar_meaning := Some "m"%string;
            n_details := Some "d"%string;
            n_examples :=
              [ {| n_japanese := Some "j"%string;
                   n_example_romaji := Some "r"%string;
                   n_english := Some "e"%string;
                   n_vocab :=
                     [ {| n_word := Some "w"%string; n_romaji := Some "vr"%string;
                          n_meaning := Some "vm"%string |};
                       {| n_word := Some "w"%string; n_romaji := Some "vr"%string;
                          n_meaning := Some "vm"%string |} ] |};
                {| n_japanese := Some "j"%string;
                   n_example_romaji := Some "r"%string;
                   n_english := Some "e"%string; n_vocab := [] |} ] |}.
Proof. reflexivity. Qed.

Example scenario_all_roots :
  map (fun n => (g_id n, map (fun ex => (e_id ex, length (e_vocab ex))) (g_examples n)))
      (grammars_of_rows scenario_rows)
  = [(1, [(10, 2%nat); (11, 0%nat)])].
Proof. reflexivity. Qed.

(** *** C7: the order of the roots *)

Lemma ordered_strongly_sorted (l : list Z) :
  ordered Z.leb l = true -> StronglySorted Z.le l.
Proof.
  induction l as [|a r IH]; intro H; [constructor|].
  pose proof (ordered_tail _ _ _ H) as Hr. specialize (IH Hr).
  constructor; [exact IH|].
  destruct r as [|b r']; [constructor|].
  rewrite ordered_cons in H. apply andb_prop in H as [Hab _].
  apply Z.leb_le in Hab. inversion IH as [|? ? _ Hb]. subst.
  constructor; [exact Hab|].
  eapply Forall_impl; [|exact Hb]. intros c Hc. simpl in Hc. lia.
Qed.

Lemma strongly_sorted_ordered (l : list Z) :
  StronglySorted Z.le l -> ordered Z.leb l = true.
Proof.
  induction 1 as [|a r Hr IH Ha]; [reflexivity|].
  destruct r as [|b r']; [reflexivity|].
  rewrite ordered_cons, IH, andb_true_r.
  inversion Ha. subst. now apply Z.leb_le.
Qed.

Lemma strongly_sorted_remove (a b : list Z) (x : Z) :
  StronglySorted Z.le (a ++ x :: b) -> StronglySorted Z.le (a ++ b).
Proof.
  induction a as [|y a' IH]; simpl; intro H.
  - now inversion H.
  - inversion H as [|? ? Hs Hf]. subst. constructor; [now apply IH|].
    apply Forall_app in Hf as [H1 H2]. apply Forall_app. split; [exact H1|].
    now inversion H2.
Qed.

Lemma fold_add_new_sorted (l acc : list Z) :
  StronglySorted Z.le (acc ++ l) -> StronglySorted Z.le (fold_left add_new l acc).
Proof.
  revert acc. induction l as [|k r IH]; intros acc H.
  - simpl. now rewrite app_nil_r in H.
  - simpl. apply IH. unfold add_new.
    destruct (existsb (Z.eqb k) acc).
    + eapply strongly_sorted_remove, H.
    + now rewrite <- app_assoc.
Qed.

Lemma first_seen_ordered (l : list Z) :
  ordered Z.leb l = true -> ordered Z.leb (first_seen l) = true.
Proof.
  intro H. apply strongly_sorted_ordered, fold_add_new_sorted.
  now apply ordered_strongly_sorted.
Qed.

(** With array-index identifiers met in ascending order, [Object.values]
    returns the grammar objects in the order of their creation. *)
Lemma roots_in_creation_order (rows : list Row) :
  forallb is_index (map GrammarId rows) = true ->
  ordered Z.leb (map GrammarId rows) = true ->
  grammars_of_rows rows = map snd (collect_rows rows).
Proof.
  intros Hidx Hord.
  rewrite grammars_of_rows_values. apply values_in_creation_order.
  - rewrite collect_rows_root_keys. apply forallb_forall. intros k Hk.
    apply (proj1 (first_seen_in _ _)) in Hk.
    exact (proj1 (forallb_forall _ _) Hidx k Hk).
  - rewrite collect_rows_root_keys. now apply first_seen_ordered.
Qed.

(** The grammar objects were created in first-seen order of their identifiers. *)
Lemma created_in_first_seen_order (rows : list Row) :
  map g_id (map snd (collect_rows rows)) = first_seen (map GrammarId rows).
Proof.
  rewrite keys_of_keyed; [apply collect_rows_root_keys|].
  unfold collect_rows. apply collect_rows_keyed. constructor.
Qed.




(** In general the roots come back as a rearrangement of the first-seen list. *)
Lemma roots_permutation_of_first_seen (rows : list Row) :
  Permutation (first_seen (map GrammarId rows)) (map g_id (grammars_of_rows rows)).
Proof. apply root_ids_perm. Qed.

(** *** C10: the identifier 0 *)

(** C10.  A row whose [ExampleId] is 0 leaves the loop state as it was, like
    a row whose [ExampleId] is NULL: no example node, and no vocabulary
    entry even when the row carries one.  A row whose [VocabId] is 0 is
    handled like the same row with a NULL [VocabId] and adds no vocabulary
    entry.  This holds in the single-root loop and in the all-roots loop. *)
Theorem zero_identifier_is_absent (row : Row) :
  (forall st, transform_row st (with_ExampleId (Some 0) row) = st
              /\ transform_row st (with_ExampleId None row) = st)
  /\ (forall st, transform_row st (with_VocabId (Some 0) row)
                 = transform_row st (with_VocabId None row)
                 /\ all_leaves (fst (transform_row st (with_VocabId (Some 0) row)))
                    = all_leaves (fst st))
  /\ (forall m, collect_row m (with_ExampleId (Some 0) row)
                = collect_row m (with_ExampleId None row)
                /\ forall g, entries_of (collect_row m (with_ExampleId (Some 0) row)) g
                             = entries_of m g)
  /\ (forall m, collect_row m (with_VocabId (Some 0) row)
                = collect_row m (with_VocabId None row)
                /\ forall g e,
                     leaves_of (entries_of (collect_row m (with_VocabId (Some 0) row)) g) e
                     = leaves_of (entries_of m g) e).
Proof.
  repeat apply conj.
  - intros [l m]. split; reflexivity.
  - intros [l m]. split; [reflexivity|].
    unfold transform_row. cbn [with_VocabId ExampleId VocabId truthy].
    rewrite Z.eqb_refl. cbn [negb].
    destruct (truthy (ExampleId row)); [|reflexivity].
    cbv zeta. destruct (negb (has m (number_of (ExampleId row)))); [|reflexivity].
    cbn [fst]. apply all_leaves_new_example.
  - intro m. split; [reflexivity|]. intro g.
    rewrite collect_row_entries. cbn [with_ExampleId ExampleId truthy].
    rewrite Z.eqb_refl. cbn [negb]. now rewrite andb_false_r.
  - intro m. split; [reflexivity|]. intros g e.
    rewrite collect_row_entries.
    destruct (of_grammar g (with_VocabId (Some 0) row)
              && truthy (ExampleId (with_VocabId (Some 0) row))); [|reflexivity].
    rewrite handle_examples_leaves. cbn [with_VocabId VocabId truthy].
    rewrite Z.eqb_refl. cbn [negb]. now rewrite andb_false_r.
Qed.

End GrammarFacts.

(* ------------------------------------------------------------------ *)
(** ** Statements, rejections and what they cost *)

Lemma first_fault_nil (n : nat) : first_fault n [] = None.
Proof. now destruct n. Qed.

Lemma first_fault_add (n p : nat) (fs : list (option string)) :
  first_fault (n + p) fs
  = match first_fault n fs with
    | Some msg => Some msg
    | None => first_fault p (skipn n fs)
    end.
Proof.
  revert fs. induction n as [|n IH]; intro fs; [reflexivity|].
  destruct fs as [|[msg|] r]; simpl.
  - symmetry. apply first_fault_nil.
  - reflexivity.
  - apply IH.
Qed.

Section TransactionFacts.
Variable db : Type.

Lemma charges_ret (A : Type) (a : A) : charges (ret (db := db) a) 0.
Proof. intro t. simpl. exists a, t. split; reflexivity. Qed.

Lemma charges_statement (A : Type) (run : db -> A * db) :
  charges (statement (db := db) run) 1.
Proof.
  intro t. unfold statement. destruct (faults t) as [|[msg|] r]; simpl.
  - destruct (run (work t)) as [a d]. eexists _, _. split; reflexivity.
  - eexists. reflexivity.
  - destruct (run (work t)) as [a d]. eexists _, _. split; reflexivity.
Qed.

Lemma charges_bind (A B : Type) (m : M db A) (k : A -> M db B) (n p : nat) :
  charges m n -> (forall a, charges (k a) p) -> charges (bind m k) (n + p).
Proof.
  intros Hm Hk t. rewrite first_fault_add. unfold bind.
  specialize (Hm t). destruct (first_fault n (faults t)) as [msg|].
  - destruct Hm as [t' ->]. now exists t'.
  - destruct Hm as [a [t' [-> Hf]]]. specialize (Hk a t'). rewrite Hf in Hk.
    destruct (first_fault p (skipn n (faults t))) as [msg|].
    + exact Hk.
    + destruct Hk as [b [t'' [-> Hf']]]. exists b, t''. split; [reflexivity|].
      now rewrite Hf', skipn_skipn, Nat.add_comm.
Qed.

Lemma charges_for_of (A : Type) (body : A -> M db unit) (cost : A -> nat)
    (l : list A) :
  (forall a, charges (body a) (cost a)) ->
  charges (for_of l body) (fold_right (fun a n => (cost a + n)%nat) O l).
Proof.
  intro H. induction l as [|a r IH]; simpl.
  - apply charges_ret.
  - apply charges_bind; [apply H | intros _; exact IH].
Qed.
Variable R : db -> db -> Prop.
Hypothesis R_refl : forall d, R d d.
Hypothesis R_trans : forall a b c, R a b -> R b c -> R a c.

Lemma steps_ret (A : Type) (a : A) : steps R (ret (db := db) a).
Proof. intro t. apply R_refl. Qed.

Lemma steps_statement (A : Type) (run : db -> A * db) :
  (forall d, R d (snd (run d))) -> steps R (statement run).
Proof.
  intros H t. unfold statement. specialize (H (work t)).
  destruct (faults t) as [|[msg|] r]; destruct (run (work t)) as [a d]; simpl;
    auto.
Qed.

Lemma steps_bind (A B : Type) (m : M db A) (k : A -> M db B) :
  steps R m -> (forall a, steps R (k a)) -> steps R (bind m k).
Proof.
  intros Hm Hk t. unfold bind. specialize (Hm t).
  destruct (m t) as [[msg|a] t']; simpl in *; [exact Hm|].
  eapply R_trans; [exact Hm | apply Hk].
Qed.

Lemma steps_for_of (A : Type) (body : A -> M db unit) (l : list A) :
  (forall a, steps R (body a)) -> steps R (for_of l body).
Proof.
  intro H. induction l as [|a r IH]; simpl.
  - apply steps_ret.
  - apply steps_bind; [apply H | intros _; exact IH].
Qed.
End TransactionFacts.

(* ------------------------------------------------------------------ *)
(** ** Cascading Writer for grammar points *)

Module WriterFacts.
Import Grammar.

(** *** Rejections *)

Lemma insert_example_charges (grammarId : Z) (e : Example) :
  charges (insert_example grammarId e) (inserts_of_example e).
Proof.
  unfold insert_example, inserts_of_example.
  change (S (length (vocab e))) with (1 + length (vocab e))%nat.
  apply charges_bind; [apply charges_statement|].
  intro exampleId.
  replace (length (vocab e))
    with (fold_right (fun (_ : Vocab) n => (1 + n)%nat) O (vocab e)).
  - apply charges_for_of. intro v. apply charges_statement.
  - induction (vocab e) as [|v r IH]; simpl in *; [reflexivity | now rewrite IH].
Qed.

Lemma insert_examples_charges (grammarId : Z) (es : list Example) :
  charges (for_of es (insert_example grammarId)) (inserts_of_examples es).
Proof.
  replace (inserts_of_examples es)
    with (fold_right (fun e n => (inserts_of_example e + n)%nat) O es).
  - apply charges_for_of. intro e. apply insert_example_charges.
  - induction es as [|e r IH]; simpl in *; [reflexivity | now rewrite IH].
Qed.

Lemma cascading_insert_charges (d : GrammarDocument) :
  charges (cascading_insert d) (inserts_of d).
Proof.
  unfold cascading_insert, inserts_of.
  change (S (inserts_of_examples (examples d)))
    with (1 + inserts_of_examples (examples d))%nat.
  apply charges_bind; [apply charges_statement|].
  intro grammarId.
  replace (inserts_of_examples (examples d))
    with (inserts_of_examples (examples d) + 0)%nat by lia.
  apply charges_bind; [apply insert_examples_charges|].
  intros _. apply charges_ret.
Qed.

(** A rejected insert at any level: the route answers 500 with the message of
    the rejection and every table is as it was. *)
Lemma post_gemini_rolls_back (s : store) (fs : list (option string))
    (d : GrammarDocument) (msg : string) :
  first_fault (inserts_of d) fs = Some msg ->
  fst (post_gemini s fs (Some d)) = Status500 msg
  /\ tabs (snd (post_gemini s fs (Some d))) = tabs s.
Proof.
  intro H. unfold post_gemini.
  pose proof (cascading_insert_charges d {| work := s; faults := fs |}) as Hc.
  simpl faults in Hc. rewrite H in Hc. destruct Hc as [t' ->].
  split; reflexivity.
Qed.

(** *** A write that meets no rejection *)

Lemma insert_vocabulary_ok (exampleId : Z) (vs : list Vocab) :
  forall gp ex vo ng ne nv fs,
    first_fault (length vs) fs = None ->
    for_of vs (fun v => insert_Vocabulary exampleId (word v) (vocab_romaji v)
                          (vocab_meaning v))
      {| work := make_store gp ex vo ng ne nv; faults := fs |}
    = (inr tt,
       {| work := make_store gp ex (vo ++ vocabulary_rows exampleId nv vs)
                    ng ne (nv + Z.of_nat (length vs));
          faults := skipn (length vs) fs |}).
Proof.
  induction vs as [|v r IH]; intros gp ex vo ng ne nv fs H.
  - simpl. now rewrite app_nil_r, Z.add_0_r.
  - assert (Hstep :
      insert_Vocabulary exampleId (word v) (vocab_romaji v) (vocab_meaning v)
        {| work := make_store gp ex vo ng ne nv; faults := fs |}
      = (inr tt, {| work := make_store gp ex (vo ++ [vocabulary_row exampleId nv v])
                              ng ne (nv + 1);
                    faults := skipn 1 fs |})
      /\ first_fault (length r) (skipn 1 fs) = None).
    { destruct fs as [|[msg|] fs']; simpl in H.
      - split; [reflexivity | apply first_fault_nil].
      - discriminate.
      - split; [reflexivity | exact H]. }
    destruct Hstep as [Hstep Hrest].
    simpl for_of. unfold bind at 1. rewrite Hstep.
    rewrite (IH _ _ _ _ _ _ _ Hrest).
    rewrite <- app_assoc, skipn_skipn. simpl vocabulary_rows. simpl app.
    replace (nv + 1 + Z.of_nat (length r))
      with (nv + Z.of_nat (length (v :: r))) by (simpl length; lia).
    replace (length r + 1)%nat with (length (v :: r)) by (simpl; lia).
    reflexivity.
Qed.

Lemma insert_examples_ok (grammarId : Z) (es : list Example) :
  forall gp ex vo ng ne nv fs,
    first_fault (inserts_of_examples es) fs = None ->
    for_of es (insert_example grammarId)
      {| work := make_store gp ex vo ng ne nv; faults := fs |}
    = (inr tt,
       {| work := make_store gp (ex ++ examples_rows grammarId ne es)
                    (vo ++ examples_vocabulary_rows ne nv es)
                    ng (ne + Z.of_nat (length es))
                    (nv + Z.of_nat (vocab_count es));
          faults := skipn (inserts_of_examples es) fs |}).
Proof.
  induction es as [|e r IH]; intros gp ex vo ng ne nv fs H.
  - simpl. now rewrite !app_nil_r, !Z.add_0_r.
  - simpl inserts_of_examples in *. unfold inserts_of_example in *.
    assert (Hstep :
      insert_Examples grammarId (japanese e) (romaji e) (english e)
        {| work := make_store gp ex vo ng ne nv; faults := fs |}
      = (inr ne, {| work := make_store gp (ex ++ [examples_row grammarId ne e]) vo
                              ng (ne + 1) nv;
                    faults := skipn 1 fs |})
      /\ first_fault (length (vocab e) + inserts_of_examples r) (skipn 1 fs) = None).
    { destruct fs as [|[msg|] fs']; simpl in H.
      - split; [reflexivity | apply first_fault_nil].
      - discriminate.
      - split; [reflexivity | exact H]. }
    destruct Hstep as [Hstep Hrest].
    rewrite first_fault_add in Hrest.
    destruct (first_fault (length (vocab e)) (skipn 1 fs)) eqn:Hv; [discriminate|].
    simpl for_of. unfold bind at 1. unfold insert_example. unfold bind at 1.
    rewrite Hstep, (insert_vocabulary_ok _ _ _ _ _ _ _ _ _ Hv).
    rewrite (IH _ _ _ _ _ _ _ Hrest).
    rewrite <- !app_assoc, !skipn_skipn.
    simpl examples_rows. simpl examples_vocabulary_rows. simpl app.
    replace (ne + 1 + Z.of_nat (length r))
      with (ne + Z.of_nat (length (e :: r))) by (simpl length; lia).
    replace (nv + Z.of_nat (length (vocab e)) + Z.of_nat (vocab_count r))
      with (nv + Z.of_nat (vocab_count (e :: r))) by (simpl vocab_count; lia).
    replace (inserts_of_examples r + length (vocab e) + 1)%nat
      with (S (length (vocab e) + inserts_of_examples r)) by lia.
    reflexivity.
Qed.

Lemma grammar_store_eta (s : store) :
  s = make_store (GrammarPoints (tabs s)) (Examples (tabs s)) (Vocabulary (tabs s))
        (next_GrammarId (idents s)) (next_ExampleId (idents s))
        (next_VocabId (idents s)).
Proof. now destruct s as [[gp ex vo] [ng ne nv]]. Qed.

Lemma cascading_insert_ok (s : store) (fs : list (option string))
    (d : GrammarDocument) :
  first_fault (inserts_of d) fs = None ->
  cascading_insert d {| work := s; faults := fs |}
  = (inr (next_GrammarId (idents s)),
     {| work := written s d; faults := skipn (inserts_of d) fs |}).
Proof.
  intro H. unfold inserts_of in *.
  change (S (inserts_of_examples (examples d)))
    with (1 + inserts_of_examples (examples d))%nat in *.
  rewrite first_fault_add in H.
  rewrite (grammar_store_eta s) at 1.
  set (ng := next_GrammarId (idents s)).
  assert (Hstep :
    insert_GrammarPoints (concept d) (meaning d) (details d)
      {| work := make_store (GrammarPoints (tabs s)) (Examples (tabs s))
                   (Vocabulary (tabs s)) ng (next_ExampleId (idents s))
                   (next_VocabId (idents s));
         faults := fs |}
    = (inr ng,
       {| work := make_store (GrammarPoints (tabs s) ++ [grammar_row ng d])
                    (Examples (tabs s)) (Vocabulary (tabs s)) (ng + 1)
                    (next_ExampleId (idents s)) (next_VocabId (idents s));
          faults := skipn 1 fs |})
    /\ first_fault (inserts_of_examples (examples d)) (skipn 1 fs) = None).
  { destruct fs as [|[msg|] fs']; simpl in H.
    - split; [reflexivity | apply first_fault_nil].
    - discriminate.
    - split; [reflexivity | exact H]. }
  destruct Hstep as [Hstep Hrest].
  unfold cascading_insert. unfold bind at 1. rewrite Hstep.
  unfold bind at 1. rewrite (insert_examples_ok _ _ _ _ _ _ _ _ _ Hrest).
  unfold ret, written. fold ng. f_equal. f_equal.
  now rewrite skipn_skipn, Nat.add_comm.
Qed.

(** *** The rows the read query returns for a freshly written document *)

Lemma filter_none (A : Type) (p : A -> bool) (l : list A) :
  (forall x, In x l -> p x = false) -> filter p l = [].
Proof.
  induction l as [|a r IH]; intro H; [reflexivity|].
  simpl. rewrite (H a (or_introl eq_refl)). apply IH.
  intros x Hx. apply H. now right.
Qed.

Lemma filter_all (A : Type) (p : A -> bool) (l : list A) :
  (forall x, In x l -> p x = true) -> filter p l = l.
Proof.
  induction l as [|a r IH]; intro H; [reflexivity|].
  simpl. rewrite (H a (or_introl eq_refl)). f_equal. apply IH.
  intros x Hx. apply H. now right.
Qed.

Lemma vocabulary_rows_example (exampleId vocabId : Z) (vs : list Vocab)
    (v : VocabularyRow) :
  In v (vocabulary_rows exampleId vocabId vs) -> vo_ExampleId v = exampleId.
Proof.
  revert vocabId. induction vs as [|a r IH]; intros vocabId H; [destruct H|].
  destruct H as [<-|H]; [reflexivity | eapply IH, H].
Qed.

Lemma examples_vocabulary_rows_lower (exampleId vocabId : Z) (es : list Example)
    (v : VocabularyRow) :
  In v (examples_vocabulary_rows exampleId vocabId es) ->
  exampleId <= vo_ExampleId v.
Proof.
  revert exampleId vocabId. induction es as [|e r IH]; intros exampleId vocabId H.
  - destruct H.
  - simpl in H. apply in_app_iff in H as [H|H].
    + apply vocabulary_rows_example in H. lia.
    + apply IH in H. lia.
Qed.

Lemma examples_rows_grammar (grammarId exampleId : Z) (es : list Example)
    (e : ExamplesRow) :
  In e (examples_rows grammarId exampleId es) -> ex_GrammarId e = grammarId.
Proof.
  revert exampleId. induction es as [|a r IH]; intros exampleId H; [destruct H|].
  destruct H as [<-|H]; [reflexivity | eapply IH, H].
Qed.

Lemma join_examples_rows (t : tables) (g : GrammarPointsRow) (es : list Example) :
  forall ne nv P,
    Vocabulary t = P ++ examples_vocabulary_rows ne nv es ->
    (forall v, In v P -> vo_ExampleId v < ne) ->
    flat_map (join_vocabulary t g) (examples_rows (gp_GrammarId g) ne es)
    = document_rows g ne nv es.
Proof.
  induction es as [|e r IH]; intros ne nv P Ht HP; [reflexivity|].
  simpl examples_rows. simpl flat_map. simpl document_rows. f_equal.
  - unfold join_vocabulary. f_equal. rewrite Ht. simpl examples_vocabulary_rows.
    rewrite !filter_app. simpl ex_ExampleId.
    rewrite (filter_none _ P), (filter_all _ (vocabulary_rows ne nv (vocab e))),
      filter_none.
    + now rewrite app_nil_r.
    + intros v Hv. apply examples_vocabulary_rows_lower in Hv.
      apply Z.eqb_neq. lia.
    + intros v Hv. apply vocabulary_rows_example in Hv. apply Z.eqb_eq. exact Hv.
    + intros v Hv. apply HP in Hv. apply Z.eqb_neq. lia.
  - apply (IH (ne + 1) (nv + Z.of_nat (length (vocab e)))
              (P ++ vocabulary_rows ne nv (vocab e))).
    + rewrite Ht. simpl. now rewrite <- app_assoc.
    + intros v Hv. apply in_app_iff in Hv as [Hv|Hv].
      * apply HP in Hv. lia.
      * apply vocabulary_rows_example in Hv. lia.
Qed.

Lemma ordered_app (A : Type) (le : A -> A -> bool) (l1 l2 : list A) :
  ordered le l1 = true -> ordered le l2 = true ->
  (forall a b, In a l1 -> In b l2 -> le a b = true) ->
  ordered le (l1 ++ l2) = true.
Proof.
  induction l1 as [|a r IH]; intros H1 H2 H; [exact H2|].
  destruct r as [|b r'].
  - simpl app. destruct l2 as [|c l2']; [reflexivity|].
    rewrite ordered_cons, H2, andb_true_r. apply H; now left.
  - rewrite ordered_cons in H1. apply andb_prop in H1 as [Hab Hr].
    change ((a :: b :: r') ++ l2) with (a :: b :: (r' ++ l2)).
    rewrite ordered_cons, Hab. simpl andb.
    change (b :: r' ++ l2) with ((b :: r') ++ l2).
    apply IH; [exact Hr | exact H2|].
    intros x y Hx Hy. apply H; [now right | exact Hy].
Qed.

Lemma vocabulary_block_ordered (g : GrammarPointsRow) (e : ExamplesRow)
    (exampleId : Z) (vs : list Vocab) (vocabId : Z) :
  ordered le_example_vocab
    (map (fun v => joined g (Some e) (Some v))
       (vocabulary_rows exampleId vocabId vs)) = true.
Proof.
  revert vocabId. induction vs as [|v r IH]; intro vocabId; [reflexivity|].
  destruct r as [|v' r']; [reflexivity|].
  simpl vocabulary_rows. simpl map. rewrite ordered_cons.
  apply andb_true_intro. split.
  - unfold le_example_vocab. simpl. rewrite Z.compare_refl.
    replace (vocabId ?= vocabId + 1) with Lt; [reflexivity|].
    symmetry. apply Z.compare_lt_iff. lia.
  - apply (IH (vocabId + 1)).
Qed.

Lemma left_join_vocabulary_ordered (g : GrammarPointsRow) (e : ExamplesRow)
    (exampleId vocabId : Z) (vs : list Vocab) :
  ordered le_example_vocab
    (left_join_vocabulary g e (vocabulary_rows exampleId vocabId vs)) = true.
Proof.
  destruct vs as [|v r]; [reflexivity|].
  apply (vocabulary_block_ordered g e exampleId (v :: r) vocabId).
Qed.

Lemma left_join_vocabulary_example (g : GrammarPointsRow) (e : ExamplesRow)
    (vs : list VocabularyRow) (row : Row) :
  In row (left_join_vocabulary g e vs) -> ExampleId row = Some (ex_ExampleId e).
Proof.
  destruct vs as [|v r]; simpl.
  - intros [<-|[]]. reflexivity.
  - intros [<-|H]; [reflexivity|].
    apply in_map_iff in H as [x [<- _]]. reflexivity.
Qed.

Lemma left_join_vocabulary_root (g : GrammarPointsRow) (e : ExamplesRow)
    (vs : list VocabularyRow) (row : Row) :
  In row (left_join_vocabulary g e vs) ->
  Concept row = gp_Concept g /\ Meaning row = gp_Meaning g
  /\ Details row = gp_Details g.
Proof.
  destruct vs as [|v r]; simpl.
  - intros [<-|[]]. auto.
  - intros [<-|H]; [auto|].
    apply in_map_iff in H as [x [<- _]]. auto.
Qed.

Lemma document_rows_example (g : GrammarPointsRow) (es : list Example)
    (ne nv : Z) (row : Row) :
  In row (document_rows g ne nv es) ->
  exists k, ExampleId row = Some k /\ ne <= k.
Proof.
  revert ne nv. induction es as [|e r IH]; intros ne nv H; [destruct H|].
  simpl in H. apply in_app_iff in H as [H|H].
  - apply left_join_vocabulary_example in H. exists ne. split; [exact H | lia].
  - apply IH in H as [k [Hk Hle]]. exists k. split; [exact Hk | lia].
Qed.

Lemma document_rows_root (g : GrammarPointsRow) (es : list Example)
    (ne nv : Z) (row : Row) :
  In row (document_rows g ne nv es) ->
  Concept row = gp_Concept g /\ Meaning row = gp_Meaning g
  /\ Details row = gp_Details g.
Proof.
  revert ne nv. induction es as [|e r IH]; intros ne nv H; [destruct H|].
  simpl in H. apply in_app_iff in H as [H|H].
  - eapply left_join_vocabulary_root, H.
  - eapply IH, H.
Qed.

(** The rows of a fresh document already are in the order of the ORDER BY. *)
Lemma document_rows_ordered (g : GrammarPointsRow) (es : list Example) (ne nv : Z) :
  ordered le_example_vocab (document_rows g ne nv es) = true.
Proof.
  revert ne nv. induction es as [|e r IH]; intros ne nv; [reflexivity|].
  simpl document_rows. apply ordered_app.
  - apply left_join_vocabulary_ordered.
  - apply IH.
  - intros a b Ha Hb. apply left_join_vocabulary_example in Ha.
    apply document_rows_example in Hb as [k [Hk Hle]].
    unfold le_example_vocab. rewrite Ha, Hk. simpl.
    replace (ne ?= k) with Lt; [reflexivity|].
    symmetry. apply Z.compare_lt_iff. lia.
Qed.

Lemma select_grammar_written (s : store) (d : GrammarDocument) :
  fresh s ->
  select_grammar (tabs (written s d)) (next_GrammarId (idents s))
  = match examples d with
    | [] => [joined (grammar_row (next_GrammarId (idents s)) d) None None]
    | _ :: _ => document_rows (grammar_row (next_GrammarId (idents s)) d)
                  (next_ExampleId (idents s)) (next_VocabId (idents s))
                  (examples d)
    end.
Proof.
  intros [_ [_ [_ [Hgp [Hex Hvo]]]]].
  rewrite Forall_forall in Hgp, Hex, Hvo.
  set (ng := next_GrammarId (idents s)).
  set (ne := next_ExampleId (idents s)).
  set (nv := next_VocabId (idents s)).
  set (g := grammar_row ng d).
  unfold select_grammar, written. fold ng ne nv g. cbn [tabs make_store GrammarPoints].
  rewrite filter_app, filter_none.
  2:{ intros x Hx. apply Hgp in Hx. apply Z.eqb_neq. fold ng in Hx. lia. }
  simpl filter. unfold g at 1. cbn [gp_GrammarId grammar_row].
  rewrite Z.eqb_refl. fold g. simpl app. simpl flat_map. rewrite app_nil_r.
  unfold join_examples at 1. cbn [Examples].
  rewrite filter_app, filter_none.
  2:{ intros x Hx. apply Hex in Hx. apply Z.eqb_neq. fold ng in Hx.
      change (gp_GrammarId g) with ng. lia. }
  rewrite filter_all.
  2:{ intros x Hx. apply examples_rows_grammar in Hx. apply Z.eqb_eq.
      exact Hx. }
  simpl app. destruct (examples d) as [|e r] eqn:Ed; [reflexivity|].
  change (examples_rows ng ne (e :: r))
    with (examples_row ng ne e :: examples_rows ng (ne + 1) r).
  cbv iota.
  change (examples_row ng ne e :: examples_rows ng (ne + 1) r)
    with (examples_rows (gp_GrammarId g) ne (e :: r)).
  rewrite (@join_examples_rows _ g (e :: r) ne nv (Vocabulary (tabs s))).
  - apply order_by_ordered, document_rows_ordered.
  - reflexivity.
  - intros v Hv. apply Hvo in Hv. fold ne in Hv. lia.
Qed.

(** *** Reading those rows back *)

Lemma update_nth_last (A : Type) (f : A -> A) (l : list A) (x : A) :
  update_nth (length l) f (l ++ [x]) = l ++ [f x].
Proof. induction l as [|a r IH]; simpl; [reflexivity | now rewrite IH]. Qed.

Lemma push_vocabulary_rows (g : GrammarPointsRow) (e : ExamplesRow)
    (exampleId : Z) (vs : list Vocab) :
  forall vocabId japanese romaji english leaves acc m,
    ex_ExampleId e <> 0 -> 0 < vocabId ->
    JsObject.get m (ex_ExampleId e) = Some (length acc) ->
    fold_left transform_row
      (map (fun v => joined g (Some e) (Some v))
         (vocabulary_rows exampleId vocabId vs))
      (acc ++ [{| n_japanese := japanese; n_example_romaji := romaji;
                  n_english := english; n_vocab := leaves |}], m)
    = (acc ++ [{| n_japanese := japanese; n_example_romaji := romaji;
                  n_english := english;
                  n_vocab := leaves ++ map node_of_vocab vs |}], m).
Proof.
  induction vs as [|v r IH]; intros vocabId ja ro en leaves acc m He Hv Hm.
  - simpl. now rewrite app_nil_r.
  - cbn [vocabulary_rows map fold_left].
    assert (Hstep :
      transform_row
        (acc ++ [{| n_japanese := ja; n_example_romaji := ro; n_english := en;
                    n_vocab := leaves |}], m)
        (joined g (Some e) (Some (vocabulary_row exampleId vocabId v)))
      = (acc ++ [{| n_japanese := ja; n_example_romaji := ro; n_english := en;
                    n_vocab := leaves ++ [node_of_vocab v] |}], m)).
    { unfold transform_row. cbn [joined ExampleId VocabId option_map truthy
        number_of vocabulary_row vo_VocabId].
      apply Z.eqb_neq in He. rewrite He. cbn [negb].
      unfold JsObject.has. rewrite Hm. cbn [negb snd fst].
      assert (Hz : (vocabId =? 0) = false) by (apply Z.eqb_neq; lia).
      rewrite Hz. cbn [negb]. rewrite Hm, update_nth_last. reflexivity. }
    rewrite Hstep, (IH (vocabId + 1)) by (auto; lia).
    now rewrite <- app_assoc.
Qed.

Lemma example_block_transform (g : GrammarPointsRow) (grammarId ne nv : Z)
    (e : Example) (acc : list ExampleNode) (m : JsObject.t nat) :
  0 < ne -> 0 < nv -> JsObject.has m ne = false ->
  fold_left transform_row
    (left_join_vocabulary g (examples_row grammarId ne e)
       (vocabulary_rows ne nv (vocab e)))
    (acc, m)
  = (acc ++ [node_of_example e], JsObject.set m ne (length acc)).
Proof.
  intros Hne Hnv Hm.
  assert (Hz : (ne =? 0) = false) by (apply Z.eqb_neq; lia).
  unfold node_of_example. destruct (vocab e) as [|v r].
  - simpl. unfold transform_row.
    cbn [joined ExampleId VocabId option_map truthy number_of examples_row
         ex_ExampleId].
    rewrite Hz. cbn [negb]. rewrite Hm. reflexivity.
  - cbn [vocabulary_rows left_join_vocabulary map fold_left].
    assert (Hstep :
      transform_row (acc, m)
        (joined g (Some (examples_row grammarId ne e))
           (Some (vocabulary_row ne nv v)))
      = (acc ++ [{| n_japanese := Some (japanese e);
                    n_example_romaji := Some (romaji e);
                    n_english := Some (english e);
                    n_vocab := [] ++ [node_of_vocab v] |}],
         JsObject.set m ne (length acc))).
    { unfold transform_row.
      cbn [joined ExampleId VocabId option_map truthy number_of examples_row
           ex_ExampleId vocabulary_row vo_VocabId].
      rewrite Hz. cbn [negb]. rewrite Hm. cbn [negb snd fst].
      assert (Hv : (nv =? 0) = false) by (apply Z.eqb_neq; lia).
      rewrite Hv. cbn [negb].
      rewrite JsObjectFacts.get_set_same, update_nth_last. reflexivity. }
    rewrite Hstep.
    rewrite push_vocabulary_rows.
    + reflexivity.
    + simpl. lia.
    + lia.
    + simpl. apply JsObjectFacts.get_set_same.
Qed.

Lemma document_rows_transform (g : GrammarPointsRow) (es : list Example) :
  forall ne nv acc m,
    0 < ne -> 0 < nv -> (forall k, In k (JsObject.keys m) -> k < ne) ->
    fst (fold_left transform_row (document_rows g ne nv es) (acc, m))
    = acc ++ map node_of_example es.
Proof.
  induction es as [|e r IH]; intros ne nv acc m Hne Hnv Hm.
  - simpl. now rewrite app_nil_r.
  - simpl document_rows. rewrite fold_left_app.
    assert (Hfree : JsObject.has m ne = false).
    { destruct (JsObject.has m ne) eqn:E; [|reflexivity].
      apply JsObjectFacts.has_in in E. apply Hm in E. lia. }
    rewrite (@example_block_transform g (gp_GrammarId g) ne nv e acc m Hne Hnv Hfree).
    rewrite IH.
    + simpl map. now rewrite <- app_assoc.
    + lia.
    + lia.
    + intros k Hk. rewrite JsObjectFacts.keys_set_new in Hk by exact Hfree.
      apply in_app_iff in Hk as [Hk|[<-|[]]]; [apply Hm in Hk|]; lia.
Qed.

Lemma grammar_of_rows_scalars (rows : list Row) (c m d : sqltext) :
  rows <> [] ->
  (forall r, In r rows -> Concept r = c /\ Meaning r = m /\ Details r = d) ->
  grammar_of_rows rows
  = Json {| n_concept := c; n_grammar_meaning := m; n_details := d;
            n_examples := fst (transform_rows rows) |}.
Proof.
  destruct rows as [|row0 r]; [congruence|].
  intros _ H. destruct (H row0 (or_introl eq_refl)) as [Hc [Hm Hd]].
  unfold grammar_of_rows. now rewrite Hc, Hm, Hd.
Qed.

(** Reading the grammar point a write has just returned gives the document
    back. *)
Lemma get_grammar_written (s : store) (d : GrammarDocument) :
  fresh s ->
  get_grammar (written s d) (next_GrammarId (idents s)) = Json (node_of_document d).
Proof.
  intro Hs. unfold get_grammar. rewrite (@select_grammar_written s d Hs).
  destruct Hs as [_ [Hne [Hnv _]]]. unfold node_of_document.
  destruct (examples d) as [|e r] eqn:Ed; [reflexivity|].
  rewrite (grammar_of_rows_scalars (c := Some (concept d))
             (m := Some (meaning d)) (d := Some (details d))).
  - unfold transform_rows. rewrite document_rows_transform.
    + reflexivity.
    + exact Hne.
    + exact Hnv.
    + intros k [].
  - simpl. destruct (vocab e); discriminate.
  - intros row Hrow. apply document_rows_root in Hrow. exact Hrow.
Qed.

(** *** The identity discipline is kept by a write *)

Lemma empty_store_fresh : fresh empty_store.
Proof. unfold fresh. simpl. repeat split; try lia; constructor. Qed.

Lemma examples_rows_ids (grammarId : Z) (es : list Example) (ne : Z)
    (e : ExamplesRow) :
  In e (examples_rows grammarId ne es) ->
  ne <= ex_ExampleId e < ne + Z.of_nat (length es).
Proof.
  revert ne. induction es as [|a r IH]; intros ne H; [destruct H|].
  simpl length. rewrite Nat2Z.inj_succ.
  destruct H as [<-|H]; [simpl; lia|]. apply IH in H. lia.
Qed.

Lemma vocabulary_rows_ids (exampleId : Z) (vs : list Vocab) (nv : Z)
    (v : VocabularyRow) :
  In v (vocabulary_rows exampleId nv vs) ->
  nv <= vo_VocabId v < nv + Z.of_nat (length vs).
Proof.
  revert nv. induction vs as [|a r IH]; intros nv H; [destruct H|].
  simpl length. rewrite Nat2Z.inj_succ.
  destruct H as [<-|H]; [simpl; lia|]. apply IH in H. lia.
Qed.

Lemma examples_vocabulary_rows_ids (es : list Example) (ne nv : Z)
    (v : VocabularyRow) :
  In v (examples_vocabulary_rows ne nv es) ->
  nv <= vo_VocabId v < nv + Z.of_nat (vocab_count es)
  /\ ne <= vo_ExampleId v < ne + Z.of_nat (length es).
Proof.
  revert ne nv. induction es as [|e r IH]; intros ne nv H; [destruct H|].
  simpl vocab_count. simpl length. rewrite Nat2Z.inj_succ, Nat2Z.inj_add.
  simpl in H. apply in_app_iff in H as [H|H].
  - pose proof (vocabulary_rows_example _ _ _ _ H).
    apply vocabulary_rows_ids in H. lia.
  - apply IH in H. lia.
Qed.

Lemma written_fresh (s : store) (d : GrammarDocument) :
  fresh s -> fresh (written s d).
Proof.
  intros [Hg [He [Hv [Hgp [Hex Hvo]]]]].
  rewrite Forall_forall in Hgp, Hex, Hvo.
  unfold fresh, written. cbn [make_store tabs idents GrammarPoints Examples
    Vocabulary next_GrammarId next_ExampleId next_VocabId].
  repeat split; try lia; apply Forall_forall; intros x Hx;
    apply in_app_iff in Hx as [Hx|Hx].
  - apply Hgp in Hx. lia.
  - destruct Hx as [<-|[]]. simpl. lia.
  - apply Hex in Hx. lia.
  - pose proof (examples_rows_grammar _ _ _ _ Hx).
    apply examples_rows_ids in Hx. lia.
  - apply Hvo in Hx. lia.
  - apply examples_vocabulary_rows_ids in Hx. lia.
Qed.

Lemma post_gemini_ok (s : store) (fs : list (option string)) (d : GrammarDocument) :
  first_fault (inserts_of d) fs = None ->
  post_gemini s fs (Some d) = (Json (next_GrammarId (idents s), d), written s d).
Proof.
  intro H. unfold post_gemini. now rewrite (@cascading_insert_ok s fs d H).
Qed.

Lemma grows_refl (s : store) : grows s s.
Proof. unfold grows. lia. Qed.

Lemma grows_trans (a b c : store) : grows a b -> grows b c -> grows a c.
Proof. unfold grows. lia. Qed.

Lemma cascading_insert_grows (d : GrammarDocument) :
  steps grows (cascading_insert d).
Proof.
  unfold cascading_insert.
  apply (steps_bind grows_trans).
  - apply (steps_statement grows grows_refl). intro s. unfold grows. simpl. lia.
  - intro grammarId. apply (steps_bind grows_trans).
    + apply (steps_for_of grows_refl grows_trans). intro e. unfold insert_example.
      apply (steps_bind grows_trans).
      * apply (steps_statement grows grows_refl). intro s. unfold grows. simpl. lia.
      * intro exampleId. apply (steps_for_of grows_refl grows_trans). intro v.
        apply (steps_statement grows grows_refl). intro s. unfold grows. simpl. lia.
    + intros _. apply (steps_ret grows grows_refl).
Qed.

(** Counters that were consumed by a rolled-back write leave gaps, nothing
    else. *)
Lemma rolled_back_fresh (s s' : store) :
  fresh s -> grows s s' -> fresh {| tabs := tabs s; idents := idents s' |}.
Proof.
  intros [Hg [He [Hv [Hgp [Hex Hvo]]]]] [G1 [G2 G3]].
  unfold fresh. cbn [tabs idents].
  repeat split; try lia;
    (eapply Forall_impl; [|eassumption]); cbv beta; intros; lia.
Qed.

(** The route keeps the identity discipline whatever its outcome. *)
Lemma post_gemini_fresh (s : store) (fs : list (option string))
    (geminiData : option GrammarDocument) :
  fresh s -> fresh (snd (post_gemini s fs geminiData)).
Proof.
  intro Hs. destruct geminiData as [d|]; [|exact Hs].
  destruct (first_fault (inserts_of d) fs) as [msg|] eqn:E.
  - unfold post_gemini.
    pose proof (cascading_insert_charges d {| work := s; faults := fs |}) as Hc.
    cbn [faults] in Hc. rewrite E in Hc. destruct Hc as [t' Hc].
    pose proof (cascading_insert_grows d {| work := s; faults := fs |}) as Hg.
    rewrite Hc in *. cbn [snd work] in *. now apply rolled_back_fresh.
  - rewrite post_gemini_ok by exact E. simpl. now apply written_fresh.
Qed.

(** *** C1: the round trip *)


(** C1.  On a store that keeps the identity discipline, for every
    well-shaped document: when no insert is rejected the write route answers
    with a grammar identifier, and whenever it answers with one, the read
    route for that identifier returns the document that was written: the
    same texts, examples and vocabulary entries in the same order, without
    identifier fields. *)
Theorem write_then_read_round_trip (s : store) (fs : list (option string))
    (d : GrammarDocument) :
  fresh s ->
  (first_fault (inserts_of d) fs = None ->
   exists grammarId s', post_gemini s fs (Some d) = (Json (grammarId, d), s'))
  /\ (forall grammarId geminiData s',
        post_gemini s fs (Some d) = (Json (grammarId, geminiData), s') ->
        get_grammar s' grammarId = Json (node_of_document d)).
Proof.
  intro Hs. split.
  - intro H. rewrite (@post_gemini_ok s fs d H). eauto.
  - intros grammarId geminiData s' H.
    destruct (first_fault (inserts_of d) fs) as [msg|] eqn:E.
    + pose proof (@post_gemini_rolls_back s fs d msg E) as [H1 _].
      rewrite H in H1. discriminate.
    + rewrite (@post_gemini_ok s fs d E) in H.
      injection H as <- _ <-. now apply get_grammar_written.
Qed.

Lemma write_then_read_round_trip_witness :
  fresh empty_store
  /\ get_grammar (snd (post_gemini empty_store [] (Some scenario_document))) 1
     = Json (node_of_document scenario_document).
Proof.
  split; [exact empty_store_fresh|].
  exact (proj2 (@write_then_read_round_trip empty_store [] scenario_document
                  empty_store_fresh)
           1 scenario_document
           (snd (post_gemini empty_store [] (Some scenario_document))) eq_refl).
Defined.

End WriterFacts.

(* ------------------------------------------------------------------ *)
(** ** Question batches *)

Module ExamFacts.
Import Exam.

(** *** Rejections *)

Lemma insert_question_charges (batchId : Z) (q : Question) :
  charges (insert_question batchId q) (inserts_of_question q).
Proof.
  unfold insert_question, inserts_of_question.
  change (S (length (options q))) with (1 + length (options q))%nat.
  apply charges_bind; [apply charges_statement|].
  intro questionId.
  replace (length (options q))
    with (fold_right (fun (_ : string) n => (1 + n)%nat) O (options q)).
  - apply charges_for_of. intro opt. apply charges_statement.
  - induction (options q) as [|o r IH]; simpl in *; [reflexivity | now rewrite IH].
Qed.

Lemma insert_all_questions_charges (batchId : Z) (qs : list Question) :
  charges (for_of qs (insert_question batchId)) (inserts_of_questions qs).
Proof.
  replace (inserts_of_questions qs)
    with (fold_right (fun q n => (inserts_of_question q + n)%nat) O qs).
  - apply charges_for_of. intro q. apply insert_question_charges.
  - induction qs as [|q r IH]; simpl in *; [reflexivity | now rewrite IH].
Qed.

Lemma write_questions_charges (now : Z) (grammarList kanjiList : list sqltext)
    (qs : list Question) :
  charges (write_questions now grammarList kanjiList (inr qs))
    (S (inserts_of_questions qs)).
Proof.
  unfold write_questions.
  change (S (inserts_of_questions qs)) with (1 + inserts_of_questions qs)%nat.
  apply charges_bind; [apply charges_statement|].
  intro batchId.
  replace (inserts_of_questions qs) with (inserts_of_questions qs + 0)%nat by lia.
  apply charges_bind; [apply insert_all_questions_charges|].
  intros _. apply charges_ret.
Qed.

(** A rejected insert at any level (batch, question, option): the route
    answers 500 with the message of the rejection and every table is as it
    was. *)
Lemma post_questions_rolls_back (now : Z) (newid_grammar newid_kanji : nat -> Z)
    (s : store) (fs : list (option string)) (qs : list Question) (msg : string) :
  first_fault (S (inserts_of_questions qs)) fs = Some msg ->
  fst (post_questions now newid_grammar newid_kanji s fs (inr qs)) = Status500 msg
  /\ tabs (snd (post_questions now newid_grammar newid_kanji s fs (inr qs)))
     = tabs s.
Proof.
  intro H. unfold post_questions.
  pose proof (write_questions_charges now
                (map Concept (sample_grammar newid_grammar (tabs s)))
                (map Kanji (sample_kanji newid_kanji (tabs s))) qs
                {| work := s; faults := fs |}) as Hc.
  simpl faults in Hc. rewrite H in Hc. destruct Hc as [t' ->].
  split; reflexivity.
Qed.

(** When the generator call or the parse throws after the batch row has been
    inserted, the batch row is rolled back too. *)
Lemma post_questions_generation_failed (now : Z) (newid_grammar newid_kanji : nat -> Z)
    (s : store) (fs : list (option string)) (thrown : string) :
  (exists msg,
     fst (post_questions now newid_grammar newid_kanji s fs (inl thrown))
     = Status500 msg)
  /\ tabs (snd (post_questions now newid_grammar newid_kanji s fs (inl thrown)))
     = tabs s.
Proof.
  unfold post_questions, write_questions, bind, insert_QuestionBatch, statement.
  simpl faults. destruct fs as [|[msg|] fs']; simpl; split; eauto.
Qed.

(** *** A write that meets no rejection *)

Lemma insert_options_ok (questionId : Z) (canonical : string) (opts : list string) :
  forall gp ki qb qu qo nb nq no fs,
    first_fault (length opts) fs = None ->
    for_of opts (fun opt =>
        insert_question_options questionId opt (String.eqb opt canonical))
      {| work := make_store gp ki qb qu qo nb nq no; faults := fs |}
    = (inr tt,
       {| work := make_store gp ki qb qu
                    (qo ++ options_rows questionId no canonical opts)
                    nb nq (no + Z.of_nat (length opts));
          faults := skipn (length opts) fs |}).
Proof.
  induction opts as [|o r IH]; intros gp ki qb qu qo nb nq no fs H.
  - simpl. now rewrite app_nil_r, Z.add_0_r.
  - assert (Hstep :
      insert_question_options questionId o (String.eqb o canonical)
        {| work := make_store gp ki qb qu qo nb nq no; faults := fs |}
      = (inr tt,
         {| work := make_store gp ki qb qu
                      (qo ++ [options_row questionId no canonical o])
                      nb nq (no + 1);
            faults := skipn 1 fs |})
      /\ first_fault (length r) (skipn 1 fs) = None).
    { destruct fs as [|[msg|] fs']; simpl in H.
      - split; [reflexivity | apply first_fault_nil].
      - discriminate.
      - split; [reflexivity | exact H]. }
    destruct Hstep as [Hstep Hrest].
    cbn [for_of]. unfold bind at 1. rewrite Hstep.
    rewrite (IH _ _ _ _ _ _ _ _ _ Hrest).
    rewrite <- app_assoc, skipn_skipn. cbn [options_rows app].
    replace (no + 1 + Z.of_nat (length r))
      with (no + Z.of_nat (length (o :: r))) by (simpl length; lia).
    replace (length r + 1)%nat with (length (o :: r)) by (simpl; lia).
    reflexivity.
Qed.

Lemma insert_all_questions_ok (batchId : Z) (qs : list Question) :
  forall gp ki qb qu qo nb nq no fs,
    first_fault (inserts_of_questions qs) fs = None ->
    for_of qs (insert_question batchId)
      {| work := make_store gp ki qb qu qo nb nq no; faults := fs |}
    = (inr tt,
       {| work := make_store gp ki qb
                    (qu ++ questions_rows batchId nq qs)
                    (qo ++ questions_options_rows nq no qs)
                    nb (nq + Z.of_nat (length qs))
                    (no + Z.of_nat (option_count qs));
          faults := skipn (inserts_of_questions qs) fs |}).
Proof.
  induction qs as [|q r IH]; intros gp ki qb qu qo nb nq no fs H.
  - simpl. now rewrite !app_nil_r, !Z.add_0_r.
  - simpl inserts_of_questions in *. unfold inserts_of_question in *.
    assert (Hstep :
      insert_questions q batchId
        {| work := make_store gp ki qb qu qo nb nq no; faults := fs |}
      = (inr nq,
         {| work := make_store gp ki qb (qu ++ [questions_row batchId nq q]) qo
                      nb (nq + 1) no;
            faults := skipn 1 fs |})
      /\ first_fault (length (options q) + inserts_of_questions r) (skipn 1 fs)
         = None).
    { destruct fs as [|[msg|] fs']; simpl in H.
      - split; [reflexivity | apply first_fault_nil].
      - discriminate.
      - split; [reflexivity | exact H]. }
    destruct Hstep as [Hstep Hrest].
    rewrite first_fault_add in Hrest.
    destruct (first_fault (length (options q)) (skipn 1 fs)) eqn:Ho; [discriminate|].
    cbn [for_of]. unfold bind at 1. unfold insert_question. unfold bind at 1.
    rewrite Hstep, (insert_options_ok _ _ _ _ _ _ _ _ _ _ _ _ Ho).
    rewrite (IH _ _ _ _ _ _ _ _ _ Hrest).
    rewrite <- !app_assoc, !skipn_skipn.
    cbn [questions_rows questions_options_rows app].
    replace (nq + 1 + Z.of_nat (length r))
      with (nq + Z.of_nat (length (q :: r))) by (simpl length; lia).
    replace (no + Z.of_nat (length (options q)) + Z.of_nat (option_count r))
      with (no + Z.of_nat (option_count (q :: r))) by (simpl option_count; lia).
    replace (inserts_of_questions r + length (options q) + 1)%nat
      with (S (length (options q) + inserts_of_questions r)) by lia.
    reflexivity.
Qed.

Lemma exam_store_eta (s : store) :
  s = make_store (GrammarPoints (tabs s)) (KanjiInfo (tabs s))
        (QuestionBatch (tabs s)) (questions (tabs s)) (question_options (tabs s))
        (next_batch_id (idents s)) (next_question_id (idents s))
        (next_option_id (idents s)).
Proof. now destruct s as [[gp ki qb qu qo] [nb nq no]]. Qed.

Lemma write_questions_ok (now : Z) (grammarList kanjiList : list sqltext)
    (s : store) (fs : list (option string)) (qs : list Question) :
  first_fault (S (inserts_of_questions qs)) fs = None ->
  write_questions now grammarList kanjiList (inr qs) {| work := s; faults := fs |}
  = (inr {| body_batch_id := next_batch_id (idents s);
            grammar_used := grammarList; kanji_used := kanjiList;
            count := length qs |},
     {| work := written now grammarList kanjiList s qs;
        faults := skipn (S (inserts_of_questions qs)) fs |}).
Proof.
  intro H. rewrite (exam_store_eta s) at 1.
  set (nb := next_batch_id (idents s)).
  assert (Hstep :
    insert_QuestionBatch now (JSON_stringify grammarList) (JSON_stringify kanjiList)
      {| work := make_store (GrammarPoints (tabs s)) (KanjiInfo (tabs s))
                   (QuestionBatch (tabs s)) (questions (tabs s))
                   (question_options (tabs s)) nb (next_question_id (idents s))
                   (next_option_id (idents s));
         faults := fs |}
    = (inr nb,
       {| work := make_store (GrammarPoints (tabs s)) (KanjiInfo (tabs s))
                    (QuestionBatch (tabs s)
                     ++ [batch_row nb now grammarList kanjiList])
                    (questions (tabs s)) (question_options (tabs s)) (nb + 1)
                    (next_question_id (idents s)) (next_option_id (idents s));
          faults := skipn 1 fs |})
    /\ first_fault (inserts_of_questions qs) (skipn 1 fs) = None).
  { destruct fs as [|[msg|] fs']; simpl in H.
    - split; [reflexivity | apply first_fault_nil].
    - discriminate.
    - split; [reflexivity | exact H]. }
  destruct Hstep as [Hstep Hrest].
  unfold write_questions. unfold bind at 1. rewrite Hstep.
  unfold bind at 1. rewrite (insert_all_questions_ok _ _ _ _ _ _ _ _ _ _ _ Hrest).
  unfold ret, written. fold nb. rewrite skipn_skipn.
  replace (inserts_of_questions qs + 1)%nat with (S (inserts_of_questions qs)) by lia.
  reflexivity.
Qed.

Lemma post_questions_ok (now : Z) (newid_grammar newid_kanji : nat -> Z)
    (s : store) (fs : list (option string)) (qs : list Question) :
  first_fault (S (inserts_of_questions qs)) fs = None ->
  post_questions now newid_grammar newid_kanji s fs (inr qs)
  = (Json {| body_batch_id := next_batch_id (idents s);
             grammar_used := map Concept (sample_grammar newid_grammar (tabs s));
             kanji_used := map Kanji (sample_kanji newid_kanji (tabs s));
             count := length qs |},
     written now (map Concept (sample_grammar newid_grammar (tabs s)))
       (map Kanji (sample_kanji newid_kanji (tabs s))) s qs).
Proof.
  intro H. unfold post_questions.
  now rewrite (@write_questions_ok now _ _ s fs qs H).
Qed.

(** A successful answer of the route means the questions were generated and
    no insert was rejected. *)
Lemma post_questions_json (now : Z) (newid_grammar newid_kanji : nat -> Z)
    (s : store) (fs : list (option string)) (generated : string + list Question)
    (body : QuestionsBody) (s' : store) :
  post_questions now newid_grammar newid_kanji s fs generated = (Json body, s') ->
  exists qs, generated = inr qs
             /\ first_fault (S (inserts_of_questions qs)) fs = None.
Proof.
  intro H. destruct generated as [thrown|qs].
  - destruct (post_questions_generation_failed now newid_grammar newid_kanji s fs
                thrown) as [[msg Hm] _].
    rewrite H in Hm. discriminate.
  - exists qs. split; [reflexivity|].
    destruct (first_fault (S (inserts_of_questions qs)) fs) as [msg|] eqn:E;
      [|reflexivity].
    destruct (@post_questions_rolls_back now newid_grammar newid_kanji s fs qs msg E)
      as [Hm _].
    rewrite H in Hm. discriminate.
Qed.

(** *** C2: a failed insert rolls everything back *)

Lemma get_grammar_tabs (s s' : Grammar.store) (id : Z) :
  Grammar.tabs s' = Grammar.tabs s ->
  Grammar.get_grammar s' id = Grammar.get_grammar s id.
Proof. intro H. unfold Grammar.get_grammar. now rewrite H. Qed.

Lemma get_exam_today_tabs (s s' : store) (now : Z) :
  tabs s' = tabs s -> get_exam_today now s' = get_exam_today now s.
Proof. intro H. unfold get_exam_today. now rewrite H. Qed.

(** C2.  In both cascading writes (grammar point with examples and
    vocabulary; batch with questions and options), when the store rejects an
    insert at any level the route answers with a failure that carries the
    message of that rejection, every table is left as it was before the
    call, and a reader sees what it saw before. *)
Theorem failed_insert_rolls_back :
  (forall s fs d msg,
      first_fault (Grammar.inserts_of d) fs = Some msg ->
      fst (Grammar.post_gemini s fs (Some d)) = Status500 msg
      /\ Grammar.tabs (snd (Grammar.post_gemini s fs (Some d))) = Grammar.tabs s
      /\ (forall id,
            Grammar.get_grammar (snd (Grammar.post_gemini s fs (Some d))) id
            = Grammar.get_grammar s id)
      /\ Grammar.get_all_grammar (snd (Grammar.post_gemini s fs (Some d)))
         = Grammar.get_all_grammar s)
  /\ (forall now newid_grammar newid_kanji s fs qs msg,
        first_fault (S (inserts_of_questions qs)) fs = Some msg ->
        fst (post_questions now newid_grammar newid_kanji s fs (inr qs))
        = Status500 msg
        /\ tabs (snd (post_questions now newid_grammar newid_kanji s fs (inr qs)))
           = tabs s
        /\ forall today,
             get_exam_today today
               (snd (post_questions now newid_grammar newid_kanji s fs (inr qs)))
             = get_exam_today today s).
Proof.
  split.
  - intros s fs d msg H.
    destruct (@WriterFacts.post_gemini_rolls_back s fs d msg H) as [H1 H2].
    repeat split; [exact H1 | exact H2 | |].
    + intro id. now apply get_grammar_tabs.
    + unfold Grammar.get_all_grammar. now rewrite H2.
  - intros now ng nk s fs qs msg H.
    destruct (@post_questions_rolls_back now ng nk s fs qs msg H) as [H1 H2].
    repeat split; [exact H1 | exact H2|].
    intro today. now apply get_exam_today_tabs.
Qed.

(** The third insert of the scenario document (its first vocabulary entry)
    and the fourth insert of a one-question batch (its second option) are
    rejected. *)
Lemma failed_insert_rolls_back_witness :
  (first_fault (Grammar.inserts_of Grammar.scenario_document)
     [None; None; Some "deadlock"%string] = Some "deadlock"%string
   /\ fst (Grammar.post_gemini Grammar.empty_store
             [None; None; Some "deadlock"%string]
             (Some Grammar.scenario_document)) = Status500 "deadlock"%string)
  /\ (first_fault (S (inserts_of_questions [sound_question]))
        [None; None; None; Some "timeout"%string] = Some "timeout"%string
      /\ tabs (snd (post_questions 100 sample_newid sample_newid seeded_store
                      [None; None; None; Some "timeout"%string]
                      (inr [sound_question]))) = tabs seeded_store).
Proof.
  split.
  - split; [reflexivity|].
    exact (proj1 (proj1 failed_insert_rolls_back Grammar.empty_store
                    [None; None; Some "deadlock"%string]
                    Grammar.scenario_document "deadlock"%string eq_refl)).
  - split; [reflexivity|].
    exact (proj1 (proj2 (proj2 failed_insert_rolls_back 100 sample_newid
                           sample_newid seeded_store
                           [None; None; None; Some "timeout"%string]
                           [sound_question] "timeout"%string eq_refl))).
Defined.

(** *** C4: no validation after the parse *)

Lemma questions_rows_length (batchId questionId : Z) (qs : list Question) :
  length (questions_rows batchId questionId qs) = length qs.
Proof.
  revert questionId. induction qs as [|q r IH]; intro questionId; simpl;
    [reflexivity | now rewrite IH].
Qed.

(** C4 as stated fails: a parsed array of one question is not the
    nine-question shape of the specification, yet the route does not reject
    it; it writes the batch, the question and its options and answers with
    [count = 1]. *)
Lemma one_question_is_written :
  spec_question_set_shape [sound_question] = false
  /\ (exists body,
        fst (post_questions 100 sample_newid sample_newid seeded_store []
               (inr [sound_question])) = Json body
        /\ count body = 1%nat)
  /\ questions (tabs (snd (post_questions 100 sample_newid sample_newid
                             seeded_store [] (inr [sound_question]))))
     = [questions_row 1 1 sound_question].
Proof.
  split; [reflexivity|]. split; [|reflexivity].
  eexists. split; reflexivity.
Qed.

(** C4, as amended.  Nothing stands between the parse and the writes: a
    parsed sequence of questions of any length is written whole when no
    insert is rejected, one row per question holding its texts as they came,
    and the route answers with [count] equal to that length. *)
Theorem question_set_written_as_parsed (now : Z) (newid_grammar newid_kanji : nat -> Z)
    (s : store) (fs : list (option string)) (qs : list Question) :
  first_fault (S (inserts_of_questions qs)) fs = None ->
  (exists body,
     fst (post_questions now newid_grammar newid_kanji s fs (inr qs)) = Json body
     /\ count body = length qs)
  /\ questions (tabs (snd (post_questions now newid_grammar newid_kanji s fs
                             (inr qs))))
     = questions (tabs s)
       ++ questions_rows (next_batch_id (idents s)) (next_question_id (idents s)) qs
  /\ length (questions_rows (next_batch_id (idents s))
               (next_question_id (idents s)) qs) = length qs.
Proof.
  intro H. rewrite (@post_questions_ok now newid_grammar newid_kanji s fs qs H).
  split; [eexists; split; reflexivity|]. split; [reflexivity|].
  apply questions_rows_length.
Qed.

Lemma question_set_written_as_parsed_witness :
  first_fault (S (inserts_of_questions [sound_question; stray_question])) [] = None
  /\ exists body,
       fst (post_questions 100 sample_newid sample_newid seeded_store []
              (inr [sound_question; stray_question])) = Json body
       /\ count body = 2%nat.
Proof.
  split; [reflexivity|].
  exact (proj1 (@question_set_written_as_parsed 100 sample_newid sample_newid
                  seeded_store [] [sound_question; stray_question] eq_refl)).
Defined.

(** *** C6: the [is_correct] flag *)

Lemma eqb_count (canonical : string) (opts : list string) :
  length (filter (fun opt => String.eqb opt canonical) opts)
  = count_occ string_dec opts canonical.
Proof.
  induction opts as [|o r IH]; [reflexivity|].
  simpl. destruct (string_dec o canonical) as [->|Hne].
  - rewrite String.eqb_refl. simpl. now rewrite IH.
  - apply String.eqb_neq in Hne. now rewrite Hne.
Qed.

Lemma options_rows_in (questionId optionId : Z) (canonical : string)
    (opts : list string) (o : question_optionsRow) :
  In o (options_rows questionId optionId canonical opts) ->
  o_question_id o = questionId
  /\ exists opt, In opt opts /\ o_option_text o = Some opt
                 /\ o_is_correct o = String.eqb opt canonical.
Proof.
  revert optionId. induction opts as [|a r IH]; intros optionId H; [destruct H|].
  destruct H as [<-|H].
  - split; [reflexivity|]. exists a. simpl. auto.
  - apply IH in H as [H1 [opt [H2 H3]]]. split; [exact H1|].
    exists opt. simpl. auto.
Qed.

Lemma options_rows_correct (questionId optionId : Z) (canonical : string)
    (opts : list string) :
  length (filter (fun o => (o_question_id o =? questionId) && o_is_correct o)
            (options_rows questionId optionId canonical opts))
  = count_occ string_dec opts canonical.
Proof.
  rewrite <- eqb_count. revert optionId.
  induction opts as [|a r IH]; intro optionId; [reflexivity|].
  simpl. rewrite Z.eqb_refl. simpl.
  destruct (String.eqb a canonical); simpl; now rewrite IH.
Qed.

Lemma questions_options_rows_in (questionId optionId : Z) (qs : list Question)
    (o : question_optionsRow) :
  In o (questions_options_rows questionId optionId qs) ->
  exists i q opt,
    nth_error qs i = Some q /\ o_question_id o = questionId + Z.of_nat i
    /\ In opt (options q) /\ o_option_text o = Some opt
    /\ o_is_correct o = String.eqb opt (answer q).
Proof.
  revert questionId optionId.
  induction qs as [|q r IH]; intros questionId optionId H; [destruct H|].
  simpl in H. apply in_app_iff in H as [H|H].
  - apply options_rows_in in H as [H1 [opt [H2 [H3 H4]]]].
    exists O, q, opt. simpl. repeat split; auto. lia.
  - apply IH in H as [i [q' [opt [H1 [H2 H3]]]]].
    exists (S i), q', opt. simpl nth_error. repeat split; try tauto.
    rewrite Nat2Z.inj_succ. lia.
Qed.

Lemma questions_rows_in (batchId questionId : Z) (qs : list Question)
    (qr : questionsRow) :
  In qr (questions_rows batchId questionId qs) ->
  exists i q, nth_error qs i = Some q
              /\ q_question_id qr = questionId + Z.of_nat i
              /\ q_answer qr = Some (answer q).
Proof.
  revert questionId. induction qs as [|q r IH]; intros questionId H; [destruct H|].
  destruct H as [<-|H].
  - exists O, q. simpl. repeat split; auto. lia.
  - apply IH in H as [i [q' [H1 [H2 H3]]]].
    exists (S i), q'. simpl nth_error. repeat split; auto.
    rewrite Nat2Z.inj_succ. lia.
Qed.

Lemma questions_options_rows_correct (qs : list Question) :
  forall questionId optionId i q,
    nth_error qs i = Some q ->
    length (filter (fun o => (o_question_id o =? questionId + Z.of_nat i)
                             && o_is_correct o)
              (questions_options_rows questionId optionId qs))
    = count_occ string_dec (options q) (answer q).
Proof.
  induction qs as [|q0 r IH]; intros questionId optionId i q H.
  - destruct i; discriminate.
  - simpl questions_options_rows. rewrite filter_app, length_app.
    destruct i as [|j].
    + injection H as <-. simpl Z.of_nat. rewrite Z.add_0_r.
      rewrite options_rows_correct, WriterFacts.filter_none; [simpl; lia|].
      intros o Ho.
      apply questions_options_rows_in in Ho as [k [q' [opt [_ [Hk _]]]]].
      replace (o_question_id o =? questionId) with false; [reflexivity|].
      symmetry. apply Z.eqb_neq. lia.
    + simpl in H. rewrite WriterFacts.filter_none.
      * replace (questionId + Z.of_nat (S j)) with (questionId + 1 + Z.of_nat j)
          by (rewrite Nat2Z.inj_succ; lia).
        rewrite (IH _ _ _ _ H). reflexivity.
      * intros o Ho. apply options_rows_in in Ho as [Hq _].
        replace (o_question_id o =? questionId + Z.of_nat (S j)) with false;
          [reflexivity|].
        symmetry. apply Z.eqb_neq. rewrite Nat2Z.inj_succ. lia.
Qed.

(** C6, as amended.  After a write that met no rejection, on a store that
    keeps the identity discipline: for every question row the write has
    added (its identifier is not below the old counter), the flag of every
    stored option of that question is the text equality of the option with
    the question's stored answer; so the options of the question at position
    [i] that are flagged correct are as many as the occurrences of its
    answer among its options, which is one exactly when the answer occurs
    once. *)
Theorem is_correct_is_text_equality (now : Z) (newid_grammar newid_kanji : nat -> Z)
    (s : store) (fs : list (option string)) (qs : list Question) :
  fresh s ->
  first_fault (S (inserts_of_questions qs)) fs = None ->
  let s' := snd (post_questions now newid_grammar newid_kanji s fs (inr qs)) in
  (forall qr o,
      In qr (questions (tabs s')) ->
      next_question_id (idents s) <= q_question_id qr ->
      In o (question_options (tabs s')) ->
      o_question_id o = q_question_id qr ->
      o_is_correct o = text_equal (o_option_text o) (q_answer qr))
  /\ (forall i q,
        nth_error qs i = Some q ->
        length (correct_options (tabs s')
                  (next_question_id (idents s) + Z.of_nat i))
        = count_occ string_dec (options q) (answer q)).
Proof.
  intros [_ [Holdq Hold]] H s'. subst s'.
  rewrite (@post_questions_ok now newid_grammar newid_kanji s fs qs H).
  cbn [snd written make_store tabs question_options questions].
  rewrite Forall_forall in Hold, Holdq. split.
  - intros qr o Hqr Hnew Ho Hid.
    apply in_app_iff in Hqr as [Hqr|Hqr]; [apply Holdq in Hqr; lia|].
    apply questions_rows_in in Hqr as [j [q [Hq [Hj Ha]]]].
    apply in_app_iff in Ho as [Ho|Ho].
    + apply Hold in Ho. lia.
    + apply questions_options_rows_in in Ho as [i [q' [opt [Hq' [Hi [_ [Ht Hc]]]]]]].
      assert (i = j) by lia. subst i.
      assert (q' = q) by congruence. subst q'.
      rewrite Hc, Ht, Ha. reflexivity.
  - intros i q Hq. unfold correct_options. cbn [question_options].
    rewrite filter_app, length_app, WriterFacts.filter_none.
    + simpl. now apply questions_options_rows_correct.
    + intros o Ho. apply Hold in Ho.
      replace (o_question_id o =? next_question_id (idents s) + Z.of_nat i)
        with false; [reflexivity|].
      symmetry. apply Z.eqb_neq. lia.
Qed.

Lemma seeded_store_fresh : fresh seeded_store.
Proof. unfold fresh. simpl. repeat split; constructor. Qed.

Lemma is_correct_is_text_equality_witness :
  fresh seeded_store
  /\ first_fault (S (inserts_of_questions [sound_question])) [] = None
  /\ length (correct_options
               (tabs (snd (post_questions 100 sample_newid sample_newid
                             seeded_store [] (inr [sound_question]))))
               (1 + Z.of_nat 0))
     = count_occ string_dec (options sound_question) (answer sound_question).
Proof.
  split; [exact seeded_store_fresh|]. split; [reflexivity|].
  exact (proj2 (@is_correct_is_text_equality 100 sample_newid sample_newid
                  seeded_store [] [sound_question] seeded_store_fresh eq_refl)
           O sound_question eq_refl).
Defined.

(** C6 as stated fails: the route stores whatever the generator sent.  A
    question whose answer is none of its options is persisted with no option
    flagged correct, and one that lists its answer twice with two. *)
Lemma not_exactly_one_correct_option :
  let s' := snd (post_questions 100 sample_newid sample_newid seeded_store []
                   (inr [stray_question; doubled_question])) in
  map q_question_id (questions (tabs s')) = [1; 2]
  /\ length (correct_options (tabs s') 1) = 0%nat
  /\ length (correct_options (tabs s') 2) = 2%nat
  /\ length (correct_options (tabs s') 1) <> 1%nat
  /\ length (correct_options (tabs s') 2) <> 1%nat.
Proof. repeat split; try reflexivity; discriminate. Qed.

(** *** C8: the two samples *)

Lemma combine_snd (A B : Type) (l1 : list A) (l2 : list B) :
  length l1 = length l2 -> map snd (combine l1 l2) = l2.
Proof.
  revert l2. induction l1 as [|a r IH]; intros [|b l2] H; try discriminate.
  - reflexivity.
  - simpl. f_equal. apply IH. now injection H.
Qed.

Lemma order_by_newid_perm (A : Type) (newid : nat -> Z) (rows : list A) :
  Permutation rows (order_by_newid newid rows).
Proof.
  unfold order_by_newid.
  rewrite <- (order_by_perm (fun a b : Z * A => fst a <=? fst b)).
  rewrite combine_snd; [reflexivity|].
  now rewrite length_map, length_seq.
Qed.

Lemma select_top_length (A : Type) (n : nat) (newid : nat -> Z) (rows : list A) :
  (n <= length rows)%nat -> length (select_top n newid rows) = n.
Proof.
  intro H. unfold select_top. rewrite length_firstn.
  rewrite <- (Permutation_length (order_by_newid_perm newid rows)). lia.
Qed.

(** The sample is drawn without replacement: together with the rows that
    were not drawn it makes up the table. *)
Lemma select_top_without_replacement (A : Type) (n : nat) (newid : nat -> Z)
    (rows : list A) :
  exists rest, Permutation (select_top n newid rows ++ rest) rows.
Proof.
  exists (skipn n (order_by_newid newid rows)). unfold select_top.
  rewrite firstn_skipn. symmetry. apply order_by_newid_perm.
Qed.

(** C8.  Against a store with at least 5 grammar rows and at least 10 kanji
    rows, for whatever random keys the store draws for the two queries: the
    grammar sample has exactly 5 rows and the kanji sample exactly 10, each
    drawn without replacement from its own table with its own keys; and
    when the call succeeds the batch row it leaves, found under the returned
    batch identifier, stores lists of length 5 and 10, the ones echoed in
    the answer.  With generated questions and no rejected insert the call
    does succeed. *)
Theorem question_batch_samples_five_and_ten (now : Z)
    (newid_grammar newid_kanji : nat -> Z) (s : store)
    (fs : list (option string)) (generated : string + list Question) :
  (5 <= length (GrammarPoints (tabs s)))%nat ->
  (10 <= length (KanjiInfo (tabs s)))%nat ->
  (length (sample_grammar newid_grammar (tabs s)) = 5%nat
   /\ exists rest,
        Permutation (sample_grammar newid_grammar (tabs s) ++ rest)
          (GrammarPoints (tabs s)))
  /\ (length (sample_kanji newid_kanji (tabs s)) = 10%nat
      /\ exists rest,
           Permutation (sample_kanji newid_kanji (tabs s) ++ rest)
             (KanjiInfo (tabs s)))
  /\ (forall body s',
        post_questions now newid_grammar newid_kanji s fs generated
        = (Json body, s') ->
        exists b,
          In b (QuestionBatch (tabs s')) /\ qb_batch_id b = body_batch_id body
          /\ JSON_parse (qb_grammar_list b) = grammar_used body
          /\ JSON_parse (qb_kanji_list b) = kanji_used body
          /\ length (JSON_parse (qb_grammar_list b)) = 5%nat
          /\ length (JSON_parse (qb_kanji_list b)) = 10%nat)
  /\ (forall qs,
        generated = inr qs ->
        first_fault (S (inserts_of_questions qs)) fs = None ->
        exists body s',
          post_questions now newid_grammar newid_kanji s fs generated
          = (Json body, s')).
Proof.
  intros Hg Hk.
  assert (Lg : length (sample_grammar newid_grammar (tabs s)) = 5%nat)
    by now apply select_top_length.
  assert (Lk : length (sample_kanji newid_kanji (tabs s)) = 10%nat)
    by now apply select_top_length.
  repeat apply conj.
  - exact Lg.
  - apply select_top_without_replacement.
  - exact Lk.
  - apply select_top_without_replacement.
  - intros body s' H.
    destruct (post_questions_json _ _ _ _ _ _ H) as [qs [-> Hf]].
    rewrite (@post_questions_ok now newid_grammar newid_kanji s fs qs Hf) in H.
    injection H as <- <-.
    exists (batch_row (next_batch_id (idents s)) now
              (map Concept (sample_grammar newid_grammar (tabs s)))
              (map Kanji (sample_kanji newid_kanji (tabs s)))).
    cbn [written make_store tabs QuestionBatch batch_row qb_batch_id
         qb_grammar_list qb_kanji_list JSON_parse body_batch_id grammar_used
         kanji_used].
    repeat split.
    + apply in_app_iff. right. now left.
    + now rewrite length_map.
    + now rewrite length_map.
  - intros qs -> Hf.
    rewrite (@post_questions_ok now newid_grammar newid_kanji s fs qs Hf). eauto.
Qed.

Lemma question_batch_samples_five_and_ten_witness :
  (5 <= length (GrammarPoints (tabs seeded_store)))%nat
  /\ (10 <= length (KanjiInfo (tabs seeded_store)))%nat
  /\ length (sample_grammar sample_newid (tabs seeded_store)) = 5%nat
  /\ length (sample_kanji sample_newid (tabs seeded_store)) = 10%nat.
Proof.
  assert (Hg : (5 <= length (GrammarPoints (tabs seeded_store)))%nat)
    by (simpl; lia).
  assert (Hk : (10 <= length (KanjiInfo (tabs seeded_store)))%nat)
    by (simpl; lia).
  split; [exact Hg|]. split; [exact Hk|].
  pose proof (@question_batch_samples_five_and_ten 100 sample_newid sample_newid
                seeded_store [] (inr [sound_question]) Hg Hk) as H.
  exact (conj (proj1 (proj1 H)) (proj1 (proj1 (proj2 H)))).
Defined.

(** *** C9: the inner join of the exam read path *)

Lemma group_row_keys (m : JsObject.t QuestionNode) (row : ExamRow) :
  JsObject.keys (group_row m row) = add_new (JsObject.keys m) (question_id row).
Proof.
  unfold group_row, add_new. rewrite <- JsObjectFacts.has_keys.
  destruct (JsObject.has m (question_id row)) eqn:E; simpl negb; cbv iota zeta;
    rewrite JsObjectFacts.keys_alter; [reflexivity|].
  now apply JsObjectFacts.keys_set_new.
Qed.

Lemma group_rows_keys (rows : list ExamRow) (m : JsObject.t QuestionNode) :
  JsObject.keys (fold_left group_row rows m)
  = fold_left add_new (map question_id rows) (JsObject.keys m).
Proof.
  revert m. induction rows as [|row r IH]; intro m; [reflexivity|].
  simpl. now rewrite IH, group_row_keys.
Qed.

Lemma alter_new (V : Type) (f : V -> V) (m : JsObject.t V) (k : Z) (v : V) :
  JsObject.has m k = false ->
  JsObject.alter f (JsObject.set m k v) k = m ++ [(k, f v)].
Proof.
  intro H. rewrite JsObjectFacts.set_new by exact H.
  unfold JsObject.has in H.
  induction m as [|[k0 v0] r IH]; simpl.
  - now rewrite Z.eqb_refl.
  - simpl in H. destruct (k0 =? k); [discriminate|]. now rewrite (IH H).
Qed.

Lemma group_row_invariant (P : Z * QuestionNode -> Prop)
    (m : JsObject.t QuestionNode) (row : ExamRow) :
  (forall k n, P (k, n) -> P (k, push_option row n)) ->
  P (question_id row, push_option row (question_node_of_row row)) ->
  Forall P m -> Forall P (group_row m row).
Proof.
  intros Hpush Hnew Hm. unfold group_row.
  destruct (JsObject.has m (question_id row)) eqn:E; simpl negb; cbv iota zeta.
  - apply GrammarFacts.Forall_alter; [exact Hm | exact Hpush].
  - rewrite alter_new by exact E. apply Forall_app. split; [exact Hm|].
    constructor; [exact Hnew | constructor].
Qed.

Lemma group_rows_invariant (P : Z * QuestionNode -> Prop) (rows : list ExamRow)
    (m : JsObject.t QuestionNode) :
  (forall row k n, P (k, n) -> P (k, push_option row n)) ->
  (forall row, P (question_id row, push_option row (question_node_of_row row))) ->
  Forall P m -> Forall P (fold_left group_row rows m).
Proof.
  intros Hpush Hnew. revert m.
  induction rows as [|row r IH]; intros m Hm; [exact Hm|].
  simpl. apply IH. apply group_row_invariant; auto.
Qed.

Lemma group_rows_ids (rows : list ExamRow) (id : Z) :
  In id (map n_question_id (group_rows rows)) <-> In id (map question_id rows).
Proof.
  unfold group_rows.
  set (m := fold_left group_row rows (JsObject.empty QuestionNode)).
  assert (Hk : Forall (fun p => n_question_id (snd p) = fst p) m).
  { apply group_rows_invariant; [auto | reflexivity | constructor]. }
  assert (Hids : map n_question_id (map snd m) = JsObject.keys m).
  { unfold JsObject.keys. rewrite map_map. apply map_ext_in.
    intros p Hp. rewrite Forall_forall in Hk. now apply Hk. }
  assert (Hkeys : JsObject.keys m = first_seen (map question_id rows)).
  { unfold m. now rewrite group_rows_keys. }
  rewrite <- (first_seen_in (map question_id rows) id), <- Hkeys, <- Hids.
  split; intro H.
  - eapply Permutation_in; [|exact H].
    apply Permutation_map. symmetry. apply JsObjectFacts.values_perm.
  - eapply Permutation_in; [|exact H].
    apply Permutation_map, JsObjectFacts.values_perm.
Qed.

Lemma group_rows_options (rows : list ExamRow) (n : QuestionNode) :
  In n (group_rows rows) -> n_options n <> [].
Proof.
  unfold group_rows. rewrite JsObjectFacts.values_in, in_map_iff.
  intros [[k v] [Hv Hin]]. simpl in Hv. subst v.
  assert (H : Forall (fun p => n_options (snd p) <> [])
                (fold_left group_row rows (JsObject.empty QuestionNode))).
  { apply group_rows_invariant.
    - intros row k0 n0 _. simpl. now destruct (n_options n0).
    - intro row. simpl. discriminate.
    - constructor. }
  rewrite Forall_forall in H. exact (H _ Hin).
Qed.

Lemma select_questions_in (t : tables) (batch_id : Z) (row : ExamRow) :
  In row (select_questions t batch_id) <->
  exists q o, In q (questions t) /\ q_batch_id q = batch_id
              /\ In o (question_options t)
              /\ o_question_id o = q_question_id q /\ row = exam_row q o.
Proof.
  unfold select_questions. rewrite order_by_in, in_flat_map. split.
  - intros [q [Hq Hrow]]. apply filter_In in Hq as [Hq Hb].
    apply in_map_iff in Hrow as [o [<- Ho]]. apply filter_In in Ho as [Ho Hid].
    exists q, o. apply Z.eqb_eq in Hb, Hid. auto.
  - intros [q [o [Hq [Hb [Ho [Hid ->]]]]]]. exists q. split.
    + apply filter_In. split; [exact Hq | now apply Z.eqb_eq].
    + apply in_map, filter_In. split; [exact Ho | now apply Z.eqb_eq].
Qed.

(** C9.  In the answer of GET /api/exam/today, a question of the batch that
    has no option row is not among the questions at all, a question with an
    option row is, and no question of the answer has an empty option
    sequence. *)
Theorem question_without_options_is_absent (now : Z) (s : store) (body : ExamBody)
    (q : questionsRow) :
  get_exam_today now s = Json body ->
  In q (questions (tabs s)) -> q_batch_id q = exam_batch_id body ->
  ((forall o, In o (question_options (tabs s)) ->
              o_question_id o <> q_question_id q) ->
   ~ In (q_question_id q) (map n_question_id (exam_questions body)))
  /\ ((exists o, In o (question_options (tabs s))
                 /\ o_question_id o = q_question_id q) ->
      In (q_question_id q) (map n_question_id (exam_questions body)))
  /\ (forall n, In n (exam_questions body) -> n_options n <> []).
Proof.
  unfold get_exam_today.
  destruct (select_today now (tabs s)) as [|batch rest]; [discriminate|].
  intros H Hq Hb. injection H as <-. simpl in *.
  repeat apply conj.
  - intros Hnone Hin. apply group_rows_ids, in_map_iff in Hin as [row [Hid Hrow]].
    apply select_questions_in in Hrow as [q' [o [_ [_ [Ho [Ho' ->]]]]]].
    simpl in Hid. apply (Hnone o Ho). congruence.
  - intros [o [Ho Hid]]. apply group_rows_ids, in_map_iff.
    exists (exam_row q o). split; [reflexivity|].
    apply select_questions_in. exists q, o. auto.
  - intros n Hn. eapply group_rows_options, Hn.
Qed.

Lemma question_without_options_is_absent_witness :
  exists body,
    get_exam_today 200 exam_store = Json body
    /\ In (questions_row 1 1 sound_question) (questions (tabs exam_store))
    /\ ~ In 1 (map n_question_id (exam_questions body))
    /\ In 2 (map n_question_id (exam_questions body)).
Proof.
  eexists. split; [reflexivity|]. split; [now left|].
  pose proof (@question_without_options_is_absent 200 exam_store _
                (questions_row 1 1 sound_question) eq_refl
                (or_introl eq_refl) eq_refl) as H1.
  pose proof (@question_without_options_is_absent 200 exam_store _
                (questions_row 1 2 sound_question) eq_refl
                (or_intror (or_introl eq_refl)) eq_refl) as H2.
  split.
  - apply (proj1 H1). intros o [<-|[]]. simpl. lia.
  - apply (proj1 (proj2 H2)). exists (options_row 2 1 "b" "b").
    split; [now left | reflexivity].
Defined.

End ExamFacts.

(* ------------------------------------------------------------------ *)
(** ** The rows the two read queries deliver *)

Module JoinFacts.
Import Grammar.

Lemma NoDup_map_injective (A : Type) (f : A -> Z) (l : list A) (a b : A) :
  NoDup (map f l) -> In a l -> In b l -> f a = f b -> a = b.
Proof.
  induction l as [|x r IH]; [intros _ []|].
  simpl. intros Hnd Ha Hb Hf. inversion Hnd as [|? ? Hx Hr]. subst.
  destruct Ha as [->|Ha]; destruct Hb as [->|Hb].
  - reflexivity.
  - exfalso. apply Hx. rewrite Hf. now apply in_map.
  - exfalso. apply Hx. rewrite <- Hf. now apply in_map.
  - now apply IH.
Qed.

(** A WHERE clause keeps primary keys distinct. *)
Lemma NoDup_map_filter (A : Type) (key : A -> Z) (keep : A -> bool)
    (rows : list A) :
  NoDup (map key rows) -> NoDup (map key (filter keep rows)).
Proof.
  intro H. induction rows as [|x r IH]; [constructor|].
  simpl in *. inversion H as [|? ? Hx Hr]. subst.
  destruct (keep x); [|now apply IH].
  simpl. constructor; [|now apply IH].
  intro Hin. apply Hx. apply in_map_iff in Hin as [y [Hy Hin]].
  apply filter_In in Hin as [Hin _]. rewrite <- Hy. now apply in_map.
Qed.

Lemma NoDup_flat_map_keys (A : Type) (key : A -> Z) (f : A -> list Z)
    (l : list A) :
  NoDup (map key l) ->
  (forall a, In a l -> NoDup (f a)) ->
  (forall a b x, In a l -> In b l -> In x (f a) -> In x (f b) -> key a = key b) ->
  NoDup (flat_map f l).
Proof.
  induction l as [|a r IH]; intros Hk Hf Hx; [constructor|].
  simpl in *. inversion Hk as [|? ? Ha Hr]. subst.
  apply NoDup_app.
  - apply Hf. now left.
  - apply IH; [exact Hr | intros; apply Hf; now right|].
    intros b c x Hb Hc. apply Hx; now right.
  - intros x Hxa Hxr. apply in_flat_map in Hxr as [b [Hb Hxb]].
    apply Ha. rewrite (Hx a b x); auto. now apply in_map.
Qed.

Lemma present_flat_map (A : Type) (F : A -> list Row) (l : list A) :
  present (map VocabId (flat_map F l))
  = flat_map (fun a => present (map VocabId (F a))) l.
Proof.
  induction l as [|a r IH]; [reflexivity|].
  simpl. now rewrite map_app, present_app, IH.
Qed.

Lemma present_perm (l l' : list sqlint) :
  Permutation l l' -> Permutation (present l) (present l').
Proof.
  induction 1 as [|x l l' _ IH|x y l|l l' l'' _ IH1 _ IH2].
  - constructor.
  - destruct x as [n|]; simpl; [|exact IH].
    destruct (n =? 0); [exact IH | now apply perm_skip].
  - destruct x as [n|], y as [k|]; simpl; try reflexivity;
      try destruct (n =? 0); try destruct (k =? 0); try reflexivity.
    apply perm_swap.
  - now transitivity (present l').
Qed.

(** The shape does not depend on the order of the rows. *)
Lemma join_shaped_perm (rows rows' : list Row) :
  Permutation rows rows' -> join_shaped rows -> join_shaped rows'.
Proof.
  intros Hp [Hz [Hfd Hnd]]. repeat apply conj.
  - eapply Permutation_Forall; eassumption.
  - intros r1 r2 H1 H2. apply Hfd; eapply Permutation_in; try eassumption;
      now symmetry.
  - eapply Permutation_NoDup; [|exact Hnd].
    apply present_perm, Permutation_map, Hp.
Qed.

Lemma join_vocabulary_in (t : tables) (g : GrammarPointsRow) (e : ExamplesRow)
    (r : Row) :
  In r (join_vocabulary t g e) ->
  GrammarId r = gp_GrammarId g /\ ExampleId r = Some (ex_ExampleId e)
  /\ (VocabId r = None
      \/ exists v, In v (Vocabulary t) /\ vo_ExampleId v = ex_ExampleId e
                   /\ VocabId r = Some (vo_VocabId v)).
Proof.
  unfold join_vocabulary, left_join_vocabulary.
  destruct (filter (fun v => vo_ExampleId v =? ex_ExampleId e) (Vocabulary t))
    as [|v0 vs] eqn:E.
  - intros [<-|[]]. simpl. auto.
  - rewrite <- E. intro H. apply in_map_iff in H as [v [<- Hv]].
    apply filter_In in Hv as [Hv Hid]. apply Z.eqb_eq in Hid.
    simpl. repeat split. right. exists v. auto.
Qed.

Lemma join_examples_in (t : tables) (g : GrammarPointsRow) (r : Row) :
  In r (join_examples t g) ->
  GrammarId r = gp_GrammarId g
  /\ ((ExampleId r = None /\ VocabId r = None)
      \/ exists e, In e (Examples t) /\ ex_GrammarId e = gp_GrammarId g
                   /\ ExampleId r = Some (ex_ExampleId e)
                   /\ (VocabId r = None
                       \/ exists v, In v (Vocabulary t)
                                    /\ vo_ExampleId v = ex_ExampleId e
                                    /\ VocabId r = Some (vo_VocabId v))).
Proof.
  unfold join_examples.
  destruct (filter (fun e => ex_GrammarId e =? gp_GrammarId g) (Examples t))
    as [|e0 es] eqn:E.
  - intros [<-|[]]. simpl. auto.
  - rewrite <- E. intro H. apply in_flat_map in H as [e [He Hr]].
    apply filter_In in He as [He Hg]. apply Z.eqb_eq in Hg.
    apply join_vocabulary_in in Hr as [H1 [H2 H3]].
    split; [exact H1|]. right. exists e. auto.
Qed.

Lemma present_vocabulary_block (g : GrammarPointsRow) (e : ExamplesRow)
    (vs : list VocabularyRow) :
  Forall (fun v => vo_VocabId v <> 0) vs ->
  present (map VocabId (left_join_vocabulary g e vs)) = map vo_VocabId vs.
Proof.
  destruct vs as [|v0 r]; [reflexivity|].
  unfold left_join_vocabulary. generalize (v0 :: r). clear v0 r.
  intros l H. induction H as [|v r Hv Hr IH]; [reflexivity|].
  simpl. apply Z.eqb_neq in Hv. rewrite Hv. now rewrite <- IH.
Qed.

Lemma Forall_filter (A : Type) (P : A -> Prop) (p : A -> bool) (l : list A) :
  Forall P l -> Forall P (filter p l).
Proof.
  intro H. apply Forall_forall. intros x Hx. apply filter_In in Hx as [Hx _].
  rewrite Forall_forall in H. now apply H.
Qed.

Lemma join_examples_vocab_ids (t : tables) (g : GrammarPointsRow) :
  Forall (fun v => vo_VocabId v <> 0) (Vocabulary t) ->
  present (map VocabId (join_examples t g))
  = flat_map (fun e => map vo_VocabId
                         (filter (fun v => vo_ExampleId v =? ex_ExampleId e)
                            (Vocabulary t)))
      (filter (fun e => ex_GrammarId e =? gp_GrammarId g) (Examples t)).
Proof.
  intro Hv. unfold join_examples.
  destruct (filter (fun e => ex_GrammarId e =? gp_GrammarId g) (Examples t))
    as [|e0 es]; [reflexivity|].
  rewrite present_flat_map. apply flat_map_ext. intro e.
  unfold join_vocabulary. apply present_vocabulary_block.
  now apply Forall_filter.
Qed.

Lemma vocab_id_owner (t : tables) (e1 e2 : ExamplesRow) (x : Z) :
  NoDup (map vo_VocabId (Vocabulary t)) ->
  In x (map vo_VocabId (filter (fun v => vo_ExampleId v =? ex_ExampleId e1)
                          (Vocabulary t))) ->
  In x (map vo_VocabId (filter (fun v => vo_ExampleId v =? ex_ExampleId e2)
                          (Vocabulary t))) ->
  ex_ExampleId e1 = ex_ExampleId e2.
Proof.
  intros Hnd H1 H2.
  apply in_map_iff in H1 as [v1 [Hx1 Hv1]]. apply filter_In in Hv1 as [Hv1 He1].
  apply in_map_iff in H2 as [v2 [Hx2 Hv2]]. apply filter_In in Hv2 as [Hv2 He2].
  apply Z.eqb_eq in He1, He2.
  assert (v1 = v2) by (eapply NoDup_map_injective; eauto; congruence).
  subst v2. congruence.
Qed.

(** The joined rows of any selection [gps] of grammar points with distinct
    identifiers have the shape [join_shaped] asks for. *)
Lemma joined_rows_shaped (t : tables) (gps : list GrammarPointsRow) :
  primary_keys t -> NoDup (map gp_GrammarId gps) ->
  join_shaped (flat_map (join_examples t) gps).
Proof.
  intros [_ [Hex [Hvo [Hez Hvz]]]] Hgps. repeat apply conj.
  - apply Forall_forall. intros r Hr. apply in_flat_map in Hr as [g [_ Hr]].
    apply join_examples_in in Hr as [_ [[He Hv]|[e [He [_ [Hid Hv]]]]]].
    + rewrite He, Hv. repeat split; try discriminate. intro H. now elim H.
    + rewrite Forall_forall in Hez, Hvz. repeat split.
      * rewrite Hid. intro H. injection H as H. exact (Hez _ He H).
      * destruct Hv as [->|[v [Hv [_ ->]]]]; [discriminate|].
        intro H. injection H as H. exact (Hvz _ Hv H).
      * intros _. rewrite Hid. discriminate.
  - intros r1 r2 H1 H2 Hsome Heq.
    apply in_flat_map in H1 as [g1 [_ H1]]. apply in_flat_map in H2 as [g2 [_ H2]].
    apply join_examples_in in H1 as [G1 [[He1 _]|[e1 [He1 [Hg1 [Hid1 _]]]]]];
      [contradiction|].
    apply join_examples_in in H2 as [G2 [[He2 _]|[e2 [He2 [Hg2 [Hid2 _]]]]]];
      [congruence|].
    assert (e1 = e2) by (eapply NoDup_map_injective; eauto; congruence).
    subst e2. congruence.
  - rewrite present_flat_map.
    apply (NoDup_flat_map_keys gp_GrammarId); [exact Hgps | |].
    + intros g _. rewrite (join_examples_vocab_ids _ _ Hvz).
      apply (NoDup_flat_map_keys ex_ExampleId).
      * now apply NoDup_map_filter.
      * intros e _. now apply NoDup_map_filter.
      * intros e1 e2 x _ _. now apply vocab_id_owner.
    + intros g1 g2 x _ _. rewrite !(join_examples_vocab_ids _ _ Hvz).
      intros H1 H2.
      apply in_flat_map in H1 as [e1 [He1 H1]]. apply filter_In in He1 as [He1 Hg1].
      apply in_flat_map in H2 as [e2 [He2 H2]]. apply filter_In in He2 as [He2 Hg2].
      apply Z.eqb_eq in Hg1, Hg2.
      pose proof (@vocab_id_owner t e1 e2 x Hvo H1 H2) as Hid.
      assert (e1 = e2) by (eapply NoDup_map_injective; eauto).
      subst e2. congruence.
Qed.

(** What both read queries return is shaped as C3 assumes. *)
Lemma select_all_join_shaped (t : tables) :
  primary_keys t -> join_shaped (select_all t).
Proof.
  intro H. unfold select_all.
  eapply join_shaped_perm; [apply order_by_perm|].
  apply joined_rows_shaped; [exact H | apply H].
Qed.

Lemma select_grammar_join_shaped (t : tables) (id : Z) :
  primary_keys t -> join_shaped (select_grammar t id).
Proof.
  intro H. unfold select_grammar.
  eapply join_shaped_perm; [apply order_by_perm|].
  apply joined_rows_shaped; [exact H|]. apply NoDup_map_filter, H.
Qed.

(** *** The all-roots query delivers its rows in ascending [GrammarId] *)

Lemma compare_sqlint_antisym (a b : sqlint) :
  compare_sqlint b a = CompOpp (compare_sqlint a b).
Proof.
  destruct a as [x|], b as [y|]; simpl; try reflexivity.
  apply Z.compare_antisym.
Qed.

Lemma le_example_vocab_total (a b : Row) :
  le_example_vocab a b = false -> le_example_vocab b a = true.
Proof.
  unfold le_example_vocab.
  rewrite (compare_sqlint_antisym (ExampleId a) (ExampleId b)).
  rewrite (compare_sqlint_antisym (VocabId a) (VocabId b)).
  destruct (compare_sqlint (ExampleId a) (ExampleId b)); simpl;
    try discriminate; try reflexivity.
  destruct (compare_sqlint (VocabId a) (VocabId b)); simpl;
    try discriminate; reflexivity.
Qed.

Lemma le_grammar_example_vocab_total (a b : Row) :
  le_grammar_example_vocab a b = false -> le_grammar_example_vocab b a = true.
Proof.
  unfold le_grammar_example_vocab.
  rewrite (Z.compare_antisym (GrammarId a) (GrammarId b)).
  destruct (GrammarId a ?= GrammarId b); simpl; try discriminate;
    try reflexivity.
  apply le_example_vocab_total.
Qed.

Lemma ordered_map_leb (A : Type) (le : A -> A -> bool) (f : A -> Z) (l : list A) :
  (forall a b, le a b = true -> f a <= f b) ->
  ordered le l = true -> ordered Z.leb (map f l) = true.
Proof.
  intro Hle. induction l as [|a r IH]; intro H; [reflexivity|].
  destruct r as [|b r']; [reflexivity|].
  rewrite ordered_cons in H. apply andb_prop in H as [Hab Hr].
  change (map f (a :: b :: r')) with (f a :: f b :: map f r').
  rewrite ordered_cons. apply andb_true_intro. split.
  - apply Z.leb_le, Hle, Hab.
  - exact (IH Hr).
Qed.

Lemma select_all_ascending (t : tables) :
  ordered Z.leb (map GrammarId (select_all t)) = true.
Proof.
  apply (ordered_map_leb le_grammar_example_vocab).
  - intros a b. unfold le_grammar_example_vocab.
    destruct (GrammarId a ?= GrammarId b) eqn:E; try discriminate; intros _.
    + apply Z.compare_eq in E. lia.
    + apply (proj1 (Z.compare_lt_iff _ _)) in E. lia.
  - apply order_by_is_ordered. exact le_grammar_example_vocab_total.
Qed.

(** So on the rows its own query delivers, GET /api/grammar lists the
    grammar points in first-seen order, provided their identifiers are array
    indices. *)
Lemma get_all_grammar_first_seen (s : store) :
  Forall (fun g => 0 <= gp_GrammarId g < 4294967295) (GrammarPoints (tabs s)) ->
  map g_id (get_all_grammar s) = first_seen (map GrammarId (select_all (tabs s))).
Proof.
  intro H. unfold get_all_grammar.
  rewrite GrammarFacts.roots_in_creation_order;
    [apply GrammarFacts.created_in_first_seen_order | | apply select_all_ascending].
  apply forallb_forall. intros k Hk. apply in_map_iff in Hk as [r [<- Hr]].
  unfold select_all in Hr. apply order_by_in in Hr.
  apply in_flat_map in Hr as [g [Hg Hr]].
  apply join_examples_in in Hr as [-> _].
  rewrite Forall_forall in H. specialize (H _ Hg).
  unfold JsObject.is_index. apply andb_true_intro. split.
  - apply Z.leb_le. lia.
  - apply Z.ltb_lt. lia.
Qed.

End JoinFacts.

(* ------------------------------------------------------------------ *)
(** ** Response Sanitizer: what the parser is handed *)

Module SanitizerLaws.
Import Sanitizer SanitizerFacts Fences.
Local Open Scope N_scope.

Lemma skip_spaces_head (t : jsstring) (c : N) (r : jsstring) :
  skip_spaces t = c :: r -> is_space c = false.
Proof.
  induction t as [|a t IH]; [discriminate|].
  simpl. destruct (is_space a) eqn:E; [exact IH|].
  intro H. injection H as -> _. exact E.
Qed.

Lemma skip_spaces_suffix (t : jsstring) : exists ws, t = ws ++ skip_spaces t.
Proof.
  induction t as [|a t [ws IH]]; [now exists []|].
  simpl. destruct (is_space a).
  - exists (a :: ws). simpl. now rewrite <- IH.
  - now exists [].
Qed.

Lemma trim_head (t : jsstring) (c : N) (r : jsstring) :
  trim t = c :: r -> is_space c = false.
Proof.
  unfold trim. intro H.
  destruct (skip_spaces_suffix (rev (skip_spaces t))) as [ws Hws].
  apply (f_equal (@rev N)) in H. rewrite rev_involutive in H.
  rewrite H in Hws. apply (f_equal (@rev N)) in Hws.
  rewrite rev_involutive, rev_app_distr, rev_involutive in Hws.
  simpl in Hws. exact (skip_spaces_head _ Hws).
Qed.

Lemma trim_last (t : jsstring) (c : N) (r : jsstring) :
  trim t = r ++ [c] -> is_space c = false.
Proof.
  unfold trim. intro H.
  apply (f_equal (@rev N)) in H.
  rewrite rev_involutive, rev_app_distr in H. simpl in H.
  exact (skip_spaces_head _ H).
Qed.

Lemma skip_spaces_fixed (t : jsstring) :
  (forall c r, t = c :: r -> is_space c = false) -> skip_spaces t = t.
Proof.
  destruct t as [|c r]; [reflexivity|].
  intro H. simpl. now rewrite (H c r eq_refl).
Qed.

Lemma trim_idem (t : jsstring) : trim (trim t) = trim t.
Proof.
  assert (H1 : skip_spaces (trim t) = trim t).
  { apply skip_spaces_fixed. intros c r. apply trim_head. }
  assert (H2 : skip_spaces (rev (trim t)) = rev (trim t)).
  { apply skip_spaces_fixed. intros c r H.
    apply (@trim_last t c (rev r)).
    apply (f_equal (@rev N)) in H. rewrite rev_involutive in H.
    rewrite H. reflexivity. }
  unfold trim at 1. rewrite H1, H2. apply rev_involutive.
Qed.

(** X1.  The text [index.js] hands to [JSON.parse] never begins or ends with
    white space, whether it came out of a fence or was the whole reply:
    trimming it again changes nothing, and neither its first nor its last
    code unit is in the class [\s]. *)
Theorem sanitize_index_is_trimmed (t : jsstring) :
  trim (sanitize_index t) = sanitize_index t
  /\ (forall c r, sanitize_index t = c :: r -> is_space c = false)
  /\ (forall c r, sanitize_index t = r ++ [c] -> is_space c = false).
Proof.
  rewrite sanitize_index_trims. split; [apply trim_idem|].
  split; intros c r; [apply trim_head | apply trim_last].
Qed.

Lemma canonicalize_backtick (c : N) : canonicalize c = 96 -> c = 96.
Proof.
  unfold canonicalize.
  destruct ((97 <=? c) && (c <=? 122)) eqn:E; [|easy].
  apply andb_prop in E. destruct E as [E1 E2].
  apply N.leb_le in E1. apply N.leb_le in E2. lia.
Qed.

Lemma starts_with_ci_no_backtick (c : N) (r : jsstring) :
  (c =? 96) = false -> starts_with_ci json_open (c :: r) = false.
Proof.
  intro H. cbn [json_open fence app starts_with_ci].
  destruct (canonicalize 96 =? canonicalize c) eqn:E; [|reflexivity].
  apply N.eqb_eq in E. symmetry in E. apply canonicalize_backtick in E.
  apply N.eqb_neq in H. contradiction.
Qed.

Lemma starts_with_no_backtick (c : N) (r : jsstring) :
  (c =? 96) = false -> starts_with fence (c :: r) = false.
Proof.
  intro H. cbn [fence starts_with]. rewrite N.eqb_sym, H. reflexivity.
Qed.

Lemma match_json_fence_cons (c : N) (r : jsstring) :
  match_json_fence (c :: r) =
  match (if starts_with_ci json_open (c :: r)
         then until_fence (skip_spaces (skipn 7 (c :: r))) else None) with
  | Some inner => Some inner
  | None => match_json_fence r
  end.
Proof. reflexivity. Qed.

Lemma match_any_fence_cons (c : N) (r : jsstring) :
  match_any_fence (c :: r) =
  match (if starts_with fence (c :: r) then until_fence (skipn 3 (c :: r)) else None) with
  | Some inner => Some inner
  | None => match_any_fence r
  end.
Proof. reflexivity. Qed.

(** Neither pattern can start on a code unit that is not a backtick. *)
Lemma match_json_fence_prose (pre rest : jsstring) :
  no_backtick pre = true -> match_json_fence (pre ++ rest) = match_json_fence rest.
Proof.
  induction pre as [|c pre IH]; intro H; [reflexivity|].
  simpl in H. apply andb_prop in H. destruct H as [Hc Hp].
  apply negb_true_iff in Hc.
  rewrite <- app_comm_cons, match_json_fence_cons.
  rewrite starts_with_ci_no_backtick by exact Hc. exact (IH Hp).
Qed.

Lemma match_any_fence_prose (pre rest : jsstring) :
  no_backtick pre = true -> match_any_fence (pre ++ rest) = match_any_fence rest.
Proof.
  induction pre as [|c pre IH]; intro H; [reflexivity|].
  simpl in H. apply andb_prop in H. destruct H as [Hc Hp].
  apply negb_true_iff in Hc.
  rewrite <- app_comm_cons, match_any_fence_cons.
  rewrite starts_with_no_backtick by exact Hc. exact (IH Hp).
Qed.

(** X2.  The sanitizer of [index.js] is the one of [new.js] followed by a
    trim.  Whenever one of the two patterns matches, the two files hand the
    same text to the parser.  They part on replies without a fence: a reply
    that holds no backtick at all is trimmed by [index.js] and handed on
    untouched, white space included, by [new.js]. *)
Theorem sanitizers_differ_by_a_trim (t : jsstring) :
  sanitize_index t = trim (sanitize_new t)
  /\ (forall inner, jsonMatch t = Some inner -> sanitize_new t = sanitize_index t)
  /\ (no_backtick t = true ->
      jsonMatch t = None /\ sanitize_index t = trim t /\ sanitize_new t = t).
Proof.
  split; [|split].
  - unfold sanitize_index, sanitize_new.
    destruct (jsonMatch t); [now rewrite trim_idem | reflexivity].
  - intros inner H. unfold sanitize_index, sanitize_new. now rewrite H.
  - intro H.
    assert (E : jsonMatch t = None).
    { unfold jsonMatch. rewrite <- (app_nil_r t).
      rewrite match_json_fence_prose, match_any_fence_prose by exact H.
      reflexivity. }
    unfold sanitize_index, sanitize_new. rewrite E. repeat split.
Qed.

(** The tag in any letter case. *)
Lemma match_json_fence_tag (tag inner post : jsstring) :
  map canonicalize tag = map canonicalize json_open ->
  fence_free inner ->
  match_json_fence (tag ++ inner ++ fence ++ post) = Some (skip_spaces inner).
Proof.
  intros Ht H.
  destruct tag as [|a1 [|a2 [|a3 [|a4 [|a5 [|a6 [|a7 [|a8 tag]]]]]]]];
    try discriminate Ht.
  cbn [map json_open fence app] in Ht.
  injection Ht as H1 H2 H3 H4 H5 H6 H7.
  set (rest := inner ++ fence ++ post).
  cbn [app]. rewrite match_json_fence_cons.
  cbn [json_open fence app starts_with_ci skipn].
  rewrite H1, H2, H3, H4, H5, H6, H7, !N.eqb_refl. cbn [andb].
  subst rest. rewrite skip_spaces_before_fence.
  now rewrite (until_fence_closing _ (fence_free_skip_spaces H)).
Qed.

(** X3.  The tagged fence is found wherever it stands in the reply.  Prose in
    front of it (anything without a backtick) and whatever follows its
    closing fence are dropped, the tag is accepted in any letter case, and
    both files hand the parser the content of the fence, trimmed. *)
Theorem json_fence_amid_prose (pre tag inner post : jsstring) :
  no_backtick pre = true ->
  map canonicalize tag = map canonicalize json_open ->
  fence_free inner ->
  sanitize_index (pre ++ tag ++ inner ++ fence ++ post) = trim inner
  /\ sanitize_new (pre ++ tag ++ inner ++ fence ++ post) = trim inner.
Proof.
  intros Hp Ht H.
  assert (E : jsonMatch (pre ++ tag ++ inner ++ fence ++ post)
              = Some (skip_spaces inner)).
  { unfold jsonMatch.
    rewrite match_json_fence_prose by exact Hp.
    now rewrite (@match_json_fence_tag tag inner post Ht H). }
  unfold sanitize_index, sanitize_new. rewrite E.
  split; apply trim_skip_spaces.
Qed.

Lemma json_fence_amid_prose_witness :
  no_backtick (of_string "Here: ") = true
  /\ fence_free (of_string " [1] ")
  /\ sanitize_index (of_string "Here: ```Json [1] ``` bye") = of_string "[1]"
  /\ sanitize_new (of_string "Here: ```Json [1] ``` bye") = of_string "[1]".
Proof.
  split; [reflexivity|]. split; [reflexivity|].
  apply (@json_fence_amid_prose (of_string "Here: ") (of_string "```Json")
           (of_string " [1] ") (of_string " bye")); reflexivity.
Defined.

(** X4.  When the reply holds no tagged fence that closes, the second pattern
    takes the first fenced block whole: everything between the opening fence
    and the next one is kept, an info string other than json included, and
    only the white space around it is trimmed. *)
Theorem untagged_fence_keeps_info_string (pre inner post : jsstring) :
  no_backtick pre = true ->
  fence_free inner ->
  match_json_fence (pre ++ fence ++ inner ++ fence ++ post) = None ->
  sanitize_index (pre ++ fence ++ inner ++ fence ++ post) = trim inner
  /\ sanitize_new (pre ++ fence ++ inner ++ fence ++ post) = trim inner.
Proof.
  intros Hp H Hj.
  assert (E : jsonMatch (pre ++ fence ++ inner ++ fence ++ post) = Some inner).
  { unfold jsonMatch. rewrite Hj. rewrite match_any_fence_prose by exact Hp.
    set (rest := inner ++ fence ++ post).
    cbn [fence app]. rewrite match_any_fence_cons.
    cbn [fence starts_with skipn]. rewrite !N.eqb_refl. cbn [andb].
    subst rest. now rewrite (until_fence_closing post H). }
  unfold sanitize_index, sanitize_new. rewrite E. now split.
Qed.

Lemma untagged_fence_keeps_info_string_witness :
  match_json_fence (of_string "See ```js {} ``` ok") = None
  /\ sanitize_index (of_string "See ```js {} ``` ok") = of_string "js {}"
  /\ sanitize_new (of_string "See ```js {} ``` ok") = of_string "js {}".
Proof.
  split; [reflexivity|].
  apply (@untagged_fence_keeps_info_string (of_string "See ") (of_string "js {} ")
           (of_string " ok")); reflexivity.
Defined.

(** *** A fence that is never closed *)

Lemma until_fence_none_tail (c : N) (r : jsstring) :
  until_fence (c :: r) = None ->
  starts_with fence (c :: r) = false /\ until_fence r = None.
Proof.
  rewrite until_fence_cons.
  destruct (starts_with fence (c :: r)); [discriminate|].
  destruct (until_fence r); [discriminate | now split].
Qed.

Lemma until_fence_none_skipn (k : nat) (t : jsstring) :
  until_fence t = None -> until_fence (skipn k t) = None.
Proof.
  revert t. induction k as [|k IH]; intros t H; [exact H|].
  destruct t as [|c r]; [reflexivity|].
  simpl. apply IH. now apply until_fence_none_tail in H.
Qed.

Lemma until_fence_none_skip_spaces (t : jsstring) :
  until_fence t = None -> until_fence (skip_spaces t) = None.
Proof.
  induction t as [|c r IH]; intro H; [reflexivity|].
  simpl. destruct (is_space c); [|exact H].
  apply IH. now apply until_fence_none_tail in H.
Qed.

(** Whatever follows the first three code units holds no fence: neither
    pattern matches anywhere. *)
Lemma no_second_fence (t : jsstring) :
  until_fence (skipn 3 t) = None ->
  match_json_fence t = None /\ match_any_fence t = None.
Proof.
  induction t as [|c r IH]; intro H; [now split|].
  assert (Hr : until_fence (skipn 3 r) = None).
  { destruct r as [|a [|b [|d r']]]; try reflexivity.
    cbn [skipn] in H |- *. now apply until_fence_none_tail in H. }
  destruct (IH Hr) as [Hj Ha]. split.
  - rewrite match_json_fence_cons, Hj.
    destruct (starts_with_ci json_open (c :: r)); [|reflexivity].
    replace (skipn 7 (c :: r)) with (skipn 4 (skipn 3 (c :: r)))
      by (rewrite skipn_skipn; reflexivity).
    now rewrite (until_fence_none_skip_spaces _ (until_fence_none_skipn 4 _ H)).
  - rewrite match_any_fence_cons, Ha.
    destruct (starts_with fence (c :: r)); [|reflexivity].
    now rewrite H.
Qed.

(** X5.  An opening fence that is never closed is not unwrapped.  For a reply
    made of prose without backticks, a fence and a rest that holds no further
    fence (a reply cut short), neither pattern matches: [index.js] hands the
    parser the whole reply trimmed, fence opener included, and [new.js] the
    whole reply as it came. *)
Theorem unclosed_fence_is_not_unwrapped (pre rest : jsstring) :
  no_backtick pre = true ->
  until_fence rest = None ->
  jsonMatch (pre ++ fence ++ rest) = None
  /\ sanitize_index (pre ++ fence ++ rest) = trim (pre ++ fence ++ rest)
  /\ sanitize_new (pre ++ fence ++ rest) = pre ++ fence ++ rest.
Proof.
  intros Hp Hr.
  assert (E : jsonMatch (pre ++ fence ++ rest) = None).
  { unfold jsonMatch.
    rewrite match_json_fence_prose, match_any_fence_prose by exact Hp.
    destruct (@no_second_fence (fence ++ rest) Hr) as [-> ->]. reflexivity. }
  unfold sanitize_index, sanitize_new. rewrite E. repeat split.
Qed.

Lemma unclosed_fence_is_not_unwrapped_witness :
  no_backtick (of_string "ok ") = true
  /\ until_fence (of_string "json [1, 2") = None
  /\ sanitize_index (of_string "ok ```json [1, 2 ") = of_string "ok ```json [1, 2"
  /\ sanitize_new (of_string "ok ```json [1, 2 ") = of_string "ok ```json [1, 2 ".
Proof.
  split; [reflexivity|]. split; [reflexivity|].
  exact (proj2 (@unclosed_fence_is_not_unwrapped (of_string "ok ")
                  (of_string "json [1, 2 ") eq_refl eq_refl)).
Defined.

End SanitizerLaws.
(* ------------------------------------------------------------------ *)
(** ** ORDER BY and WHERE *)

Section OrderByFilter.
Variable A : Type.
Variable le : A -> A -> bool.
Hypothesis le_total : forall a b, le a b = false -> le b a = true.
Hypothesis le_trans : forall a b c, le a b = true -> le b c = true -> le a c = true.

Lemma insert_by_below (a : A) (l : list A) :
  (forall x, In x l -> le a x = true) -> insert_by le a l = a :: l.
Proof.
  destruct l as [|b r]; [reflexivity|].
  intro H. simpl. now rewrite (H b (or_introl eq_refl)).
Qed.

Lemma ordered_head_below (a : A) (l : list A) :
  ordered le (a :: l) = true -> forall x, In x l -> le a x = true.
Proof.
  revert a. induction l as [|b r IH]; intros a H x Hx; [destruct Hx|].
  rewrite ordered_cons in H. apply andb_prop in H as [Hab Hr].
  destruct Hx as [<-|Hx]; [exact Hab|].
  apply (le_trans Hab). now apply IH.
Qed.

Lemma filter_insert_by (p : A -> bool) (a : A) (l : list A) :
  ordered le l = true ->
  filter p (insert_by le a l)
  = if p a then insert_by le a (filter p l) else filter p l.
Proof.
  induction l as [|b r IH]; intro H.
  - simpl. now destruct (p a).
  - cbn [insert_by]. destruct (le a b) eqn:Eab.
    + cbn [filter]. destruct (p a) eqn:Ea; [|reflexivity].
      rewrite insert_by_below; [reflexivity|].
      intros x Hx.
      assert (Hin : In x (b :: r)).
      { destruct (p b); [destruct Hx as [<-|Hx]; [now left|] |];
          right; now apply filter_In in Hx as [Hx _]. }
      destruct Hin as [<-|Hin]; [exact Eab|].
      apply (le_trans Eab). eapply ordered_head_below; eassumption.
    + cbn [filter]. rewrite IH by (eapply ordered_tail; exact H).
      destruct (p b), (p a); try reflexivity.
      cbn [insert_by]. now rewrite Eab.
Qed.

(** A WHERE clause may be applied before or after the ORDER BY. *)
Lemma filter_order_by (p : A -> bool) (l : list A) :
  filter p (order_by le l) = order_by le (filter p l).
Proof.
  induction l as [|a r IH]; [reflexivity|].
  cbn [order_by filter].
  rewrite filter_insert_by by (apply order_by_is_ordered; exact le_total).
  rewrite IH. now destruct (p a).
Qed.

End OrderByFilter.

Lemma insert_by_agree (A : Type) (le1 le2 : A -> A -> bool) (a : A) (l : list A) :
  (forall b, In b l -> le1 a b = le2 a b) ->
  insert_by le1 a l = insert_by le2 a l.
Proof.
  induction l as [|b r IH]; intro H; [reflexivity|].
  simpl. rewrite (H b (or_introl eq_refl)).
  destruct (le2 a b); [reflexivity|].
  f_equal. apply IH. intros x Hx. apply H. now right.
Qed.

(** Two orders that agree on the rows at hand sort them alike. *)
Lemma order_by_agree (A : Type) (le1 le2 : A -> A -> bool) (l : list A) :
  (forall a b, In a l -> In b l -> le1 a b = le2 a b) ->
  order_by le1 l = order_by le2 l.
Proof.
  induction l as [|a r IH]; intro H; [reflexivity|].
  simpl. rewrite IH by (intros x y Hx Hy; apply H; now right).
  apply insert_by_agree. intros b Hb. apply order_by_in in Hb.
  apply H; [now left | now right].
Qed.

Lemma filter_flat_map (A B : Type) (p : B -> bool) (q : A -> bool)
    (f : A -> list B) (l : list A) :
  (forall a b, In a l -> In b (f a) -> p b = q a) ->
  filter p (flat_map f l) = flat_map f (filter q l).
Proof.
  induction l as [|a r IH]; intro H; [reflexivity|].
  simpl. rewrite filter_app, IH by (intros x b Hx; apply H; now right).
  destruct (q a) eqn:E.
  - simpl. f_equal. apply WriterFacts.filter_all.
    intros b Hb. rewrite <- E. apply H; [now left | exact Hb].
  - rewrite WriterFacts.filter_none; [reflexivity|].
    intros b Hb. rewrite <- E. apply H; [now left | exact Hb].
Qed.

Lemma flat_map_agree (A B : Type) (f g : A -> list B) (l : list A) :
  (forall a, In a l -> f a = g a) -> flat_map f l = flat_map g l.
Proof.
  induction l as [|a r IH]; intro H; [reflexivity|].
  simpl. rewrite (H a (or_introl eq_refl)). f_equal.
  apply IH. intros x Hx. apply H. now right.
Qed.

Lemma filter_unique (A : Type) (key : A -> Z) (l : list A) (a : A) :
  NoDup (map key l) -> In a l -> filter (fun x => key x =? key a) l = [a].
Proof.
  induction l as [|x r IH]; intros Hnd Hin; [destruct Hin|].
  simpl in Hnd. inversion Hnd as [|? ? Hx Hr]. subst.
  simpl. destruct Hin as [->|Hin].
  - rewrite Z.eqb_refl. f_equal. apply WriterFacts.filter_none.
    intros y Hy. apply Z.eqb_neq. intro E. apply Hx. rewrite <- E.
    now apply in_map.
  - destruct (key x =? key a) eqn:E.
    + exfalso. apply Z.eqb_eq in E. apply Hx. rewrite E. now apply in_map.
    + now apply IH.
Qed.

(* ------------------------------------------------------------------ *)
(** ** The two read routes on any store *)

Module ReaderFacts.
Import Grammar GrammarViews.

Lemma join_vocabulary_rows (t : tables) (g : GrammarPointsRow) (e : ExamplesRow) :
  exists r l, join_vocabulary t g e = r :: l.
Proof.
  unfold join_vocabulary, left_join_vocabulary.
  destruct (filter (fun v => vo_ExampleId v =? ex_ExampleId e) (Vocabulary t));
    simpl; eauto.
Qed.

(** The left join delivers at least one row for every grammar row. *)
Lemma join_examples_rows_exist (t : tables) (g : GrammarPointsRow) :
  exists r l, join_examples t g = r :: l.
Proof.
  unfold join_examples.
  destruct (filter (fun e => ex_GrammarId e =? gp_GrammarId g) (Examples t))
    as [|e0 es]; [eauto|].
  simpl. destruct (join_vocabulary_rows t g e0) as [r [l ->]]. simpl. eauto.
Qed.

Lemma join_examples_scalars (t : tables) (g : GrammarPointsRow) (r : Row) :
  In r (join_examples t g) ->
  GrammarId r = gp_GrammarId g /\ Concept r = gp_Concept g
  /\ Meaning r = gp_Meaning g /\ Details r = gp_Details g.
Proof.
  unfold join_examples.
  destruct (filter (fun e => ex_GrammarId e =? gp_GrammarId g) (Examples t))
    as [|e0 es].
  - intros [<-|[]]. now simpl.
  - intro H. apply in_flat_map in H as [e [_ H]].
    unfold join_vocabulary, left_join_vocabulary in H.
    destruct (filter (fun v => vo_ExampleId v =? ex_ExampleId e) (Vocabulary t))
      as [|v0 vs].
    + destruct H as [<-|[]]. now simpl.
    + apply in_map_iff in H as [v [<- _]]. now simpl.
Qed.

Lemma select_grammar_in (t : tables) (id : Z) (r : Row) :
  In r (select_grammar t id) ->
  exists g, In g (GrammarPoints t) /\ gp_GrammarId g = id /\ In r (join_examples t g).
Proof.
  unfold select_grammar. rewrite order_by_in, in_flat_map.
  intros [g [Hg Hr]]. apply filter_In in Hg as [Hg Hid].
  apply Z.eqb_eq in Hid. eauto.
Qed.

Lemma select_grammar_none (t : tables) (id : Z) :
  select_grammar t id = [] <-> ~ In id (map gp_GrammarId (GrammarPoints t)).
Proof.
  split.
  - intros H Hin. apply in_map_iff in Hin as [g [Hid Hg]].
    destruct (join_examples_rows_exist t g) as [r [l Hr]].
    assert (Hin : In r (select_grammar t id)).
    { unfold select_grammar. rewrite order_by_in, in_flat_map.
      exists g. split.
      - apply filter_In. split; [exact Hg | now apply Z.eqb_eq].
      - rewrite Hr. now left. }
    rewrite H in Hin. destruct Hin.
  - intro H. unfold select_grammar. rewrite WriterFacts.filter_none; [reflexivity|].
    intros g Hg. apply Z.eqb_neq. intro E. apply H. rewrite <- E.
    now apply in_map.
Qed.

Lemma get_grammar_404 (s : store) (id : Z) :
  get_grammar s id = Status404
  <-> ~ In id (map gp_GrammarId (GrammarPoints (tabs s))).
Proof.
  unfold get_grammar. rewrite <- select_grammar_none.
  destruct (select_grammar (tabs s) id); simpl; split; congruence.
Qed.

(** X6.  GET /api/grammar/:id answers 404 exactly when no grammar row has
    that identifier.  Otherwise it answers with a document whose concept,
    meaning and details are those of a grammar row with that identifier:
    the left join gives every grammar row at least one joined row. *)
Theorem grammar_not_found_iff_absent (s : store) (id : Z) :
  (get_grammar s id = Status404
   <-> ~ In id (map gp_GrammarId (GrammarPoints (tabs s))))
  /\ (In id (map gp_GrammarId (GrammarPoints (tabs s))) ->
      exists g node,
        In g (GrammarPoints (tabs s)) /\ gp_GrammarId g = id
        /\ get_grammar s id = Json node
        /\ n_concept node = gp_Concept g
        /\ n_grammar_meaning node = gp_Meaning g
        /\ n_details node = gp_Details g).
Proof.
  split; [apply get_grammar_404|].
  unfold get_grammar. intro Hin.
  destruct (select_grammar (tabs s) id) as [|row0 rest] eqn:E.
  - exfalso. exact (proj1 (select_grammar_none (tabs s) id) E Hin).
  - destruct (@select_grammar_in (tabs s) id row0) as [g [Hg [Hid Hr]]];
      [rewrite E; now left|].
    apply join_examples_scalars in Hr as [_ [Hc [Hm Hd]]].
    exists g. eexists. repeat split; try eassumption; simpl; assumption.
Qed.

(** *** The order of the two queries is a total preorder *)

Lemma le_example_vocab_trans (a b c : Row) :
  le_example_vocab a b = true -> le_example_vocab b c = true ->
  le_example_vocab a c = true.
Proof.
  unfold le_example_vocab, compare_sqlint.
  destruct (ExampleId a) as [x1|], (ExampleId b) as [x2|],
    (ExampleId c) as [x3|]; try discriminate; try reflexivity;
    destruct (VocabId a) as [y1|], (VocabId b) as [y2|],
      (VocabId c) as [y3|]; try discriminate; try reflexivity;
    repeat match goal with
           | |- context [?x ?= ?y] => destruct (Z.compare_spec x y)
           end;
    try discriminate; try reflexivity; intros _ _; exfalso; lia.
Qed.

Lemma le_grammar_example_vocab_trans (a b c : Row) :
  le_grammar_example_vocab a b = true -> le_grammar_example_vocab b c = true ->
  le_grammar_example_vocab a c = true.
Proof.
  unfold le_grammar_example_vocab.
  destruct (Z.compare_spec (GrammarId a) (GrammarId b));
    destruct (Z.compare_spec (GrammarId b) (GrammarId c));
    destruct (Z.compare_spec (GrammarId a) (GrammarId c));
    try discriminate; try reflexivity; try (intros _ _; exfalso; lia).
  apply le_example_vocab_trans.
Qed.

(** *** The single query is the list query restricted to one grammar point *)

Lemma select_all_of_grammar (t : tables) (id : Z) :
  filter (of_grammar id) (select_all t) = select_grammar t id.
Proof.
  unfold select_all, select_grammar.
  rewrite (@filter_order_by _ _ JoinFacts.le_grammar_example_vocab_total
             le_grammar_example_vocab_trans).
  rewrite (@filter_flat_map _ _ (of_grammar id) (fun g => gp_GrammarId g =? id)).
  - apply order_by_agree. intros a b Ha Hb.
    apply in_flat_map in Ha as [ga [Hga Ha]].
    apply in_flat_map in Hb as [gb [Hgb Hb]].
    apply filter_In in Hga as [_ Hga]. apply filter_In in Hgb as [_ Hgb].
    apply Z.eqb_eq in Hga, Hgb.
    apply join_examples_scalars in Ha as [Ha _].
    apply join_examples_scalars in Hb as [Hb _].
    unfold le_grammar_example_vocab.
    now rewrite Ha, Hb, Hga, Hgb, Z.compare_refl.
  - intros g r _ Hr. apply join_examples_scalars in Hr as [Hr _].
    unfold of_grammar. now rewrite Hr.
Qed.

(** *** What [grammarMap] holds for one grammar point *)

Lemma collect_rows_entries (rows : list Row) (m : JsObject.t GrammarEntry) (g : Z) :
  entries_of (fold_left collect_row rows m) g
  = handle_rows (filter (of_grammar g) rows) (entries_of m g).
Proof.
  revert m. induction rows as [|row r IH]; intro m; [reflexivity|].
  cbn [fold_left filter]. rewrite IH, GrammarFacts.collect_row_entries.
  destruct (of_grammar g row); [|reflexivity].
  unfold handle_rows. cbn [fold_left andb]. reflexivity.
Qed.

Lemma collect_row_other (m : JsObject.t GrammarEntry) (row : Row) (g : Z) :
  GrammarId row <> g ->
  JsObject.get (collect_row m row) g = JsObject.get m g.
Proof.
  intro H. unfold collect_row.
  destruct (JsObject.has m (GrammarId row)); simpl negb; cbv iota zeta;
    destruct (truthy (ExampleId row));
    rewrite ?JsObjectFacts.get_alter_other, ?JsObjectFacts.get_set_other
      by exact H; reflexivity.
Qed.

Lemma collect_row_kept (m : JsObject.t GrammarEntry) (row row0 : Row) (g : Z)
    (n : GrammarEntry) :
  JsObject.get m g = Some n -> created_from row0 n ->
  exists n', JsObject.get (collect_row m row) g = Some n' /\ created_from row0 n'.
Proof.
  intros Hget Hc. destruct (Z.eq_dec (GrammarId row) g) as [E|E].
  - subst g. unfold collect_row, JsObject.has. rewrite Hget.
    simpl negb. cbv iota zeta. destruct (truthy (ExampleId row)).
    + rewrite JsObjectFacts.get_alter_same, Hget. simpl. eauto.
    + eauto.
  - rewrite collect_row_other by exact E. eauto.
Qed.

Lemma collect_row_creates (m : JsObject.t GrammarEntry) (row : Row) :
  JsObject.get m (GrammarId row) = None ->
  exists n, JsObject.get (collect_row m row) (GrammarId row) = Some n
            /\ created_from row n.
Proof.
  intro Hget. unfold collect_row, JsObject.has. rewrite Hget.
  simpl negb. cbv iota zeta. destruct (truthy (ExampleId row)).
  - rewrite JsObjectFacts.get_alter_same, JsObjectFacts.get_set_same. simpl.
    eexists. split; [reflexivity|]. now unfold created_from.
  - rewrite JsObjectFacts.get_set_same.
    eexists. split; [reflexivity|]. now unfold created_from.
Qed.

Lemma collect_rows_kept (rows : list Row) (row0 : Row) (g : Z) :
  forall (m : JsObject.t GrammarEntry) (n : GrammarEntry),
    JsObject.get m g = Some n -> created_from row0 n ->
    exists n', JsObject.get (fold_left collect_row rows m) g = Some n'
               /\ created_from row0 n'.
Proof.
  induction rows as [|row r IH]; intros m n Hget Hc; [eauto|].
  destruct (@collect_row_kept m row row0 g n Hget Hc) as [n' [Hget' Hc']].
  simpl. eapply IH; eassumption.
Qed.

(** A grammar object keeps the scalar fields of the first row of its
    grammar point; later rows only add to its examples. *)
Lemma collect_rows_first (rows : list Row) (g : Z) (row0 : Row) (rest : list Row) :
  forall m : JsObject.t GrammarEntry,
    JsObject.get m g = None ->
    filter (of_grammar g) rows = row0 :: rest ->
    exists n, JsObject.get (fold_left collect_row rows m) g = Some n
              /\ created_from row0 n.
Proof.
  induction rows as [|row r IH]; intros m Hget Hf; [discriminate|].
  cbn [filter] in Hf. unfold of_grammar at 1 in Hf.
  destruct (GrammarId row =? g) eqn:E.
  - apply Z.eqb_eq in E. injection Hf as -> _. subst g.
    destruct (@collect_row_creates m row0 Hget) as [n [Hn Hc]].
    simpl. eapply collect_rows_kept; eassumption.
  - apply Z.eqb_neq in E. simpl. apply IH; [|exact Hf].
    now rewrite collect_row_other.
Qed.

Lemma select_all_ids (t : tables) (id : Z) :
  In id (map GrammarId (select_all t)) <-> In id (map gp_GrammarId (GrammarPoints t)).
Proof.
  unfold select_all. rewrite !in_map_iff. split.
  - intros [r [Hid Hr]]. apply order_by_in, in_flat_map in Hr as [g [Hg Hr]].
    apply join_examples_scalars in Hr as [Hr _]. exists g. split; congruence.
  - intros [g [Hid Hg]]. destruct (join_examples_rows_exist t g) as [r [l Hr]].
    assert (Hin : In r (join_examples t g)) by (rewrite Hr; now left).
    exists r. split.
    + apply join_examples_scalars in Hin as [Hin _]. congruence.
    + apply order_by_in, in_flat_map. eauto.
Qed.

Lemma list_ids (s : store) (id : Z) :
  In id (map g_id (get_all_grammar s))
  <-> In id (map gp_GrammarId (GrammarPoints (tabs s))).
Proof.
  rewrite <- select_all_ids, <- (first_seen_in (map GrammarId (select_all (tabs s)))).
  unfold get_all_grammar. split; intro H.
  - eapply Permutation_in; [symmetry; apply GrammarFacts.root_ids_perm | exact H].
  - eapply Permutation_in; [apply GrammarFacts.root_ids_perm | exact H].
Qed.

(** An entry of the list answer is the single answer for its identifier,
    with identifier fields added. *)
Lemma list_entry_single (s : store) (n : GrammarEntry) :
  In n (get_all_grammar s) -> get_grammar s (g_id n) = Json (strip_entry n).
Proof.
  unfold get_all_grammar, get_grammar. intro Hn.
  pose proof (GrammarFacts.root_lookup _ _ Hn) as Hget.
  pose proof (GrammarFacts.root_examples _ _ Hn) as Hex.
  unfold collect_rows in Hex. rewrite collect_rows_entries in Hex.
  rewrite select_all_of_grammar in Hex.
  destruct (select_grammar (tabs s) (g_id n)) as [|row0 rest] eqn:E.
  - exfalso.
    assert (Hid : In (g_id n) (map g_id (get_all_grammar s)))
      by (apply in_map; exact Hn).
    apply list_ids in Hid.
    exact (proj1 (select_grammar_none (tabs s) (g_id n)) E Hid).
  - rewrite <- select_all_of_grammar in E.
    destruct (@collect_rows_first (select_all (tabs s)) (g_id n) row0 rest
                (JsObject.empty GrammarEntry) eq_refl E) as [n' [Hn' Hc]].
    unfold collect_rows in Hget. rewrite Hget in Hn'. injection Hn' as <-.
    destruct Hc as [_ [Hc [Hm Hd]]].
    unfold grammar_of_rows, strip_entry. rewrite <- Hc, <- Hm, <- Hd.
    rewrite GrammarFacts.transform_rows_handle_rows, Hex. reflexivity.
Qed.

(** X7.  The two read routes agree.  Every entry of the answer of
    GET /api/grammar is, identifier fields apart, the answer of
    GET /api/grammar/:id for the identifier it carries, and the identifiers
    listed are exactly those of the grammar rows, so no grammar point the
    single route finds is missing from the list. *)
Theorem list_and_single_answers_agree (s : store) :
  (forall n, In n (get_all_grammar s) ->
             get_grammar s (g_id n) = Json (strip_entry n))
  /\ (forall id, get_grammar s id <> Status404 <->
                 In id (map g_id (get_all_grammar s))).
Proof.
  split; [exact (list_entry_single s)|].
  intro id. rewrite list_ids.
  pose proof (get_grammar_404 s id) as H.
  split.
  - intro Hn. destruct (in_dec Z.eq_dec id (map gp_GrammarId (GrammarPoints (tabs s))))
      as [Hin|Hout]; [exact Hin|].
    exfalso. apply Hn. now apply H.
  - intros Hin H404. apply H in H404. contradiction.
Qed.

(** X8.  A grammar point that no example refers to is still found by both
    read routes, with an empty list of examples: the joins are left joins.
    (The exam route, which joins inward, drops a question without options.) *)
Theorem grammar_without_examples_is_found (s : store) (g : GrammarPointsRow) :
  NoDup (map gp_GrammarId (GrammarPoints (tabs s))) ->
  In g (GrammarPoints (tabs s)) ->
  (forall e, In e (Examples (tabs s)) -> ex_GrammarId e <> gp_GrammarId g) ->
  get_grammar s (gp_GrammarId g) = Json (bare_node g)
  /\ exists n, In n (get_all_grammar s) /\ g_id n = gp_GrammarId g
               /\ g_concept n = gp_Concept g /\ g_examples n = [].
Proof.
  intros Hnd Hg Hex.
  assert (Hrows : select_grammar (tabs s) (gp_GrammarId g) = [joined g None None]).
  { unfold select_grammar. rewrite (filter_unique gp_GrammarId _ _ Hnd Hg).
    simpl. unfold join_examples. rewrite WriterFacts.filter_none; [reflexivity|].
    intros e He. apply Z.eqb_neq. now apply Hex. }
  assert (Hone : get_grammar s (gp_GrammarId g) = Json (bare_node g)).
  { unfold get_grammar. rewrite Hrows. reflexivity. }
  split; [exact Hone|].
  assert (Hid : In (gp_GrammarId g) (map g_id (get_all_grammar s))).
  { apply list_ids. now apply in_map. }
  apply in_map_iff in Hid as [n [Hid Hn]].
  pose proof (list_entry_single s n Hn) as Hs.
  rewrite Hid, Hone in Hs. injection Hs as Hc _ _ He.
  exists n. repeat split; try assumption; [congruence|].
  destruct (g_examples n); [reflexivity | discriminate].
Qed.

Lemma grammar_without_examples_is_found_witness :
  NoDup (map gp_GrammarId (GrammarPoints (tabs lone_store)))
  /\ get_grammar lone_store 1
     = Json {| n_concept := Some "c"%string; n_grammar_meaning := Some "m"%string;
               n_details := None; n_examples := [] |}.
Proof.
  assert (Hnd : NoDup (map gp_GrammarId (GrammarPoints (tabs lone_store)))).
  { simpl. constructor; [intros [] | constructor]. }
  split; [exact Hnd|].
  refine (proj1 (@grammar_without_examples_is_found lone_store
                   {| gp_GrammarId := 1; gp_Concept := Some "c"%string;
                      gp_Meaning := Some "m"%string; gp_Details := None |}
                   Hnd _ _)).
  - simpl. now left.
  - simpl. intros e [].
Defined.

(** X9.  Over a table with distinct identifiers that are array indices,
    GET /api/grammar lists every grammar point exactly once, in ascending
    order of identifier, whatever the order of the table. *)
Theorem list_answer_once_ascending (s : store) :
  Forall (fun g => 0 <= gp_GrammarId g < 4294967295) (GrammarPoints (tabs s)) ->
  NoDup (map gp_GrammarId (GrammarPoints (tabs s))) ->
  Permutation (map g_id (get_all_grammar s))
    (map gp_GrammarId (GrammarPoints (tabs s)))
  /\ ordered Z.leb (map g_id (get_all_grammar s)) = true.
Proof.
  intros Hidx Hnd.
  pose proof (JoinFacts.get_all_grammar_first_seen s Hidx) as Hfs.
  split.
  - apply NoDup_Permutation; [rewrite Hfs; apply first_seen_nodup | exact Hnd|].
    intro id. apply list_ids.
  - rewrite Hfs. apply GrammarFacts.first_seen_ordered, JoinFacts.select_all_ascending.
Qed.

Lemma list_answer_once_ascending_witness :
  NoDup (map gp_GrammarId (GrammarPoints (tabs unsorted_store)))
  /\ map g_id (get_all_grammar unsorted_store) = [1; 2]
  /\ ordered Z.leb (map g_id (get_all_grammar unsorted_store)) = true.
Proof.
  assert (Hnd : NoDup (map gp_GrammarId (GrammarPoints (tabs unsorted_store)))).
  { simpl. constructor; [intros [H|[]]; discriminate H|].
    constructor; [intros [] | constructor]. }
  assert (Hidx : Forall (fun g => 0 <= gp_GrammarId g < 4294967295)
                   (GrammarPoints (tabs unsorted_store))).
  { simpl. repeat constructor; simpl; lia. }
  split; [exact Hnd|]. split; [reflexivity|].
  exact (proj2 (@list_answer_once_ascending unsorted_store Hidx Hnd)).
Defined.

(** *** The examples of a listed grammar point *)

Lemma sqlint_le_total (a b : sqlint) : sqlint_le a b = false -> sqlint_le b a = true.
Proof.
  unfold sqlint_le. rewrite (JoinFacts.compare_sqlint_antisym a b).
  destruct (compare_sqlint a b); simpl; congruence.
Qed.

Lemma sqlint_le_trans (a b c : sqlint) :
  sqlint_le a b = true -> sqlint_le b c = true -> sqlint_le a c = true.
Proof.
  unfold sqlint_le, compare_sqlint.
  destruct a as [x|], b as [y|], c as [z|]; try discriminate; try reflexivity.
  destruct (Z.compare_spec x y), (Z.compare_spec y z), (Z.compare_spec x z);
    try discriminate; try reflexivity; intros _ _; exfalso; lia.
Qed.

Lemma ordered_map_in (A B : Type) (le : A -> A -> bool) (le' : B -> B -> bool)
    (f : A -> B) (l : list A) :
  (forall a b, In a l -> In b l -> le a b = true -> le' (f a) (f b) = true) ->
  ordered le l = true -> ordered le' (map f l) = true.
Proof.
  induction l as [|a r IH]; intros Hle H; [reflexivity|].
  destruct r as [|b r']; [reflexivity|].
  rewrite ordered_cons in H. apply andb_prop in H as [Hab Hr].
  change (map f (a :: b :: r')) with (f a :: f b :: map f r').
  rewrite ordered_cons. apply andb_true_intro. split.
  - apply Hle; [now left | right; now left | exact Hab].
  - apply IH; [|exact Hr]. intros x y Hx Hy. apply Hle; now right.
Qed.

(** Dropping rows from an ordered row set leaves it ordered. *)
Lemma ordered_filter (A : Type) (le : A -> A -> bool) (p : A -> bool) (l : list A) :
  (forall a b, le a b = false -> le b a = true) ->
  (forall a b c, le a b = true -> le b c = true -> le a c = true) ->
  ordered le l = true -> ordered le (filter p l) = true.
Proof.
  intros Htotal Htrans H.
  rewrite <- (order_by_ordered le l H).
  rewrite (@filter_order_by _ le Htotal Htrans).
  now apply order_by_is_ordered.
Qed.

Lemma present_truthy (l : list sqlint) : present l = map number_of (filter truthy l).
Proof.
  induction l as [|[n|] r IH]; simpl; [reflexivity | | exact IH].
  destruct (n =? 0); simpl; [exact IH | now rewrite IH].
Qed.

Lemma present_ordered (l : list sqlint) :
  ordered sqlint_le l = true -> ordered Z.leb (present l) = true.
Proof.
  intro H. rewrite present_truthy.
  apply (@ordered_map_in _ _ sqlint_le).
  - intros a b Ha Hb. apply filter_In in Ha as [_ Ha]. apply filter_In in Hb as [_ Hb].
    destruct a as [x|], b as [y|]; try discriminate.
    unfold sqlint_le. simpl. intro Hle. apply Z.leb_le.
    destruct (Z.compare_spec x y); try discriminate; lia.
  - apply ordered_filter; [exact sqlint_le_total | exact sqlint_le_trans | exact H].
Qed.

Lemma select_grammar_examples_ordered (t : tables) (id : Z) :
  ordered sqlint_le (map ExampleId (select_grammar t id)) = true.
Proof.
  apply (@ordered_map_in _ _ le_example_vocab).
  - intros a b _ _. unfold le_example_vocab, sqlint_le.
    destruct (compare_sqlint (ExampleId a) (ExampleId b)); congruence.
  - apply order_by_is_ordered. exact JoinFacts.le_example_vocab_total.
Qed.

Lemma join_examples_example (t : tables) (g : GrammarPointsRow) (e : ExamplesRow) :
  In e (Examples t) -> ex_GrammarId e = gp_GrammarId g ->
  exists r, In r (join_examples t g) /\ ExampleId r = Some (ex_ExampleId e).
Proof.
  intros He Hg.
  assert (Hin : In e (filter (fun e => ex_GrammarId e =? gp_GrammarId g) (Examples t))).
  { apply filter_In. split; [exact He | now apply Z.eqb_eq]. }
  destruct (join_vocabulary_rows t g e) as [r [l Hr]].
  assert (Hrow : In r (join_vocabulary t g e)) by (rewrite Hr; now left).
  exists r. split.
  - unfold join_examples.
    destruct (filter (fun e => ex_GrammarId e =? gp_GrammarId g) (Examples t))
      as [|e0 es] eqn:E; [destruct Hin|].
    apply in_flat_map. exists e. split; [exact Hin | exact Hrow].
  - now apply JoinFacts.join_vocabulary_in in Hrow as [_ [Hrow _]].
Qed.

(** X10.  The examples of a listed grammar point.  In every entry of the
    answer of GET /api/grammar the examples are exactly the rows of Examples
    that refer to that grammar point and carry a non-zero identifier, each
    listed once, in ascending order of identifier. *)
Theorem listed_examples_once_ascending (s : store) (n : GrammarEntry) :
  In n (get_all_grammar s) ->
  NoDup (map e_id (g_examples n))
  /\ ordered Z.leb (map e_id (g_examples n)) = true
  /\ forall k, In k (map e_id (g_examples n))
               <-> k <> 0 /\ exists e, In e (Examples (tabs s))
                                       /\ ex_GrammarId e = g_id n
                                       /\ ex_ExampleId e = k.
Proof.
  intro Hn.
  pose proof (GrammarFacts.example_ids_first_seen _ _ Hn) as Hids.
  rewrite select_all_of_grammar in Hids. rewrite Hids.
  split; [apply first_seen_nodup|]. split.
  - apply GrammarFacts.first_seen_ordered, present_ordered,
      select_grammar_examples_ordered.
  - intro k. rewrite first_seen_in, present_in. split.
    + intros [Hk Hnz]. split; [exact Hnz|].
      apply in_map_iff in Hk as [r [Hid Hr]].
      apply select_grammar_in in Hr as [g [_ [Hg Hr]]].
      apply JoinFacts.join_examples_in in Hr as [_ [[He _]|[e [He [Hge [Hide _]]]]]];
        [congruence|].
      exists e. repeat split; [exact He | congruence | congruence].
    + intros [Hnz [e [He [Hg Hid]]]]. split; [|exact Hnz].
      assert (Hlisted : In (g_id n) (map gp_GrammarId (GrammarPoints (tabs s)))).
      { apply list_ids. now apply in_map. }
      apply in_map_iff in Hlisted as [g [Hgid Hgin]].
      destruct (@join_examples_example (tabs s) g e He) as [r [Hr Hre]];
        [congruence|].
      apply in_map_iff. exists r. split; [congruence|].
      unfold select_grammar. apply order_by_in, in_flat_map. exists g. split.
      * apply filter_In. split; [exact Hgin | now apply Z.eqb_eq].
      * exact Hr.
Qed.

(** On [crowded_store] grammar point 1 is referred to by the example rows
    12, 10 and 0, stored in that order, and example 11 belongs to grammar
    point 2: the entry of grammar point 1 lists the examples 10 and 12. *)
Lemma listed_examples_once_ascending_witness :
  In crowded_entry (get_all_grammar crowded_store)
  /\ map ex_ExampleId
       (filter (fun e => ex_GrammarId e =? 1) (Examples (tabs crowded_store)))
     = [12; 10; 0]
  /\ map e_id (g_examples crowded_entry) = [10; 12]
  /\ NoDup (map e_id (g_examples crowded_entry))
  /\ ordered Z.leb (map e_id (g_examples crowded_entry)) = true
  /\ forall k, In k (map e_id (g_examples crowded_entry))
               <-> k <> 0 /\ exists e, In e (Examples (tabs crowded_store))
                                       /\ ex_GrammarId e = g_id crowded_entry
                                       /\ ex_ExampleId e = k.
Proof.
  assert (Hn : In crowded_entry (get_all_grammar crowded_store))
    by (left; reflexivity).
  split; [exact Hn|]. split; [reflexivity|]. split; [reflexivity|].
  exact (@listed_examples_once_ascending crowded_store crowded_entry Hn).
Defined.
End ReaderFacts.

(* ------------------------------------------------------------------ *)
(** ** What a write does to the rest of the store *)

Module StoreFacts.
Import Grammar.

(** The rows joined to a grammar point that was there before a write are
    those joined to it after the write. *)
Lemma join_examples_written (s : store) (d : GrammarDocument) (g : GrammarPointsRow) :
  fresh s -> In g (GrammarPoints (tabs s)) ->
  join_examples (tabs (written s d)) g = join_examples (tabs s) g.
Proof.
  intros [_ [_ [_ [Hgp [Hex _]]]]] Hg. rewrite Forall_forall in Hgp, Hex.
  unfold join_examples. cbn [written make_store tabs Examples].
  rewrite filter_app.
  rewrite (WriterFacts.filter_none _
             (examples_rows (next_GrammarId (idents s)) (next_ExampleId (idents s))
                (examples d))).
  - rewrite app_nil_r.
    destruct (filter (fun e => ex_GrammarId e =? gp_GrammarId g) (Examples (tabs s)))
      as [|e0 es] eqn:E; [reflexivity|].
    rewrite <- E. apply flat_map_agree. intros e He. apply filter_In in He as [He _].
    unfold join_vocabulary. cbn [Vocabulary]. rewrite filter_app.
    rewrite (WriterFacts.filter_none _
               (examples_vocabulary_rows (next_ExampleId (idents s))
                  (next_VocabId (idents s)) (examples d))).
    + now rewrite app_nil_r.
    + intros v Hv. apply WriterFacts.examples_vocabulary_rows_lower in Hv.
      specialize (Hex e He). apply Z.eqb_neq. lia.
  - intros e He. apply WriterFacts.examples_rows_grammar in He.
    specialize (Hgp g Hg). apply Z.eqb_neq. lia.
Qed.

Lemma select_grammar_other (s : store) (d : GrammarDocument) (id : Z) :
  fresh s -> id <> next_GrammarId (idents s) ->
  select_grammar (tabs (written s d)) id = select_grammar (tabs s) id.
Proof.
  intros Hs Hid. unfold select_grammar. f_equal.
  change (GrammarPoints (tabs (written s d)))
    with (GrammarPoints (tabs s) ++ [grammar_row (next_GrammarId (idents s)) d]).
  rewrite filter_app. cbn [filter grammar_row gp_GrammarId].
  destruct (next_GrammarId (idents s) =? id) eqn:E;
    [apply Z.eqb_eq in E; congruence|].
  rewrite app_nil_r. apply flat_map_agree. intros g Hg.
  apply filter_In in Hg as [Hg _]. now apply join_examples_written.
Qed.

(** X11.  A write touches no other grammar point.  Whatever the outcome of
    POST /api/gemini, GET /api/grammar/:id for every identifier but the one
    the write hands out answers as it did before. *)
Theorem write_leaves_other_answers (s : store) (fs : list (option string))
    (geminiData : option GrammarDocument) (id : Z) :
  fresh s -> id <> next_GrammarId (idents s) ->
  get_grammar (snd (post_gemini s fs geminiData)) id = get_grammar s id.
Proof.
  intros Hs Hid. destruct geminiData as [d|]; [|reflexivity].
  destruct (first_fault (inserts_of d) fs) as [msg|] eqn:E.
  - destruct (@WriterFacts.post_gemini_rolls_back s fs d msg E) as [_ Ht].
    unfold get_grammar. now rewrite Ht.
  - rewrite (@WriterFacts.post_gemini_ok s fs d E). cbn [snd].
    unfold get_grammar. now rewrite select_grammar_other.
Qed.

Lemma write_leaves_other_answers_witness :
  fresh GrammarViews.lone_store
  /\ get_grammar
       (snd (post_gemini GrammarViews.lone_store [] (Some scenario_document))) 1
     = get_grammar GrammarViews.lone_store 1.
Proof.
  assert (Hs : fresh GrammarViews.lone_store).
  { unfold fresh. simpl. repeat split; try lia; repeat constructor; simpl; lia. }
  split; [exact Hs|].
  apply (@write_leaves_other_answers GrammarViews.lone_store []
           (Some scenario_document) 1 Hs).
  simpl. lia.
Defined.

(** *** Primary keys *)

Lemma NoDup_map_app_bound (A : Type) (key : A -> Z) (n : Z) (l1 l2 : list A) :
  NoDup (map key l1) -> NoDup (map key l2) ->
  (forall x, In x l1 -> key x < n) -> (forall x, In x l2 -> n <= key x) ->
  NoDup (map key (l1 ++ l2)).
Proof.
  intros H1 H2 B1 B2. rewrite map_app. apply NoDup_app; [exact H1 | exact H2|].
  intros k Hk1 Hk2.
  apply in_map_iff in Hk1 as [x [Hx Hin1]]. apply in_map_iff in Hk2 as [y [Hy Hin2]].
  specialize (B1 x Hin1). specialize (B2 y Hin2). lia.
Qed.

Lemma examples_rows_keys (grammarId : Z) (es : list Example) (ne : Z) :
  NoDup (map ex_ExampleId (examples_rows grammarId ne es)).
Proof.
  revert ne. induction es as [|e r IH]; intro ne; [constructor|].
  simpl. constructor; [|apply IH].
  intro H. apply in_map_iff in H as [x [Hx Hin]].
  apply WriterFacts.examples_rows_ids in Hin. lia.
Qed.

Lemma vocabulary_rows_keys (exampleId : Z) (vs : list Vocab) (nv : Z) :
  NoDup (map vo_VocabId (vocabulary_rows exampleId nv vs)).
Proof.
  revert nv. induction vs as [|v r IH]; intro nv; [constructor|].
  simpl. constructor; [|apply IH].
  intro H. apply in_map_iff in H as [x [Hx Hin]].
  apply WriterFacts.vocabulary_rows_ids in Hin. lia.
Qed.

Lemma examples_vocabulary_rows_keys (es : list Example) (ne nv : Z) :
  NoDup (map vo_VocabId (examples_vocabulary_rows ne nv es)).
Proof.
  revert ne nv. induction es as [|e r IH]; intros ne nv; [constructor|].
  simpl. apply (@NoDup_map_app_bound _ vo_VocabId (nv + Z.of_nat (length (vocab e)))).
  - apply vocabulary_rows_keys.
  - apply IH.
  - intros x Hx. apply WriterFacts.vocabulary_rows_ids in Hx. lia.
  - intros x Hx. apply WriterFacts.examples_vocabulary_rows_ids in Hx. lia.
Qed.

Lemma written_primary_keys (s : store) (d : GrammarDocument) :
  fresh s -> primary_keys (tabs s) -> primary_keys (tabs (written s d)).
Proof.
  intros [Hg [He [Hv [Hgp [Hex Hvo]]]]] [Kg [Ke [Kv [Ze Zv]]]].
  rewrite Forall_forall in Hgp, Hex, Hvo, Ze, Zv.
  unfold primary_keys. cbn [written make_store tabs GrammarPoints Examples Vocabulary].
  repeat apply conj.
  - apply (@NoDup_map_app_bound _ gp_GrammarId (next_GrammarId (idents s)));
      [exact Kg | simpl; constructor; [intros [] | constructor] | |].
    + intros x Hx. apply Hgp in Hx. lia.
    + intros x [<-|[]]. simpl. lia.
  - apply (@NoDup_map_app_bound _ ex_ExampleId (next_ExampleId (idents s)));
      [exact Ke | apply examples_rows_keys | |].
    + intros x Hx. apply Hex in Hx. lia.
    + intros x Hx. apply WriterFacts.examples_rows_ids in Hx. lia.
  - apply (@NoDup_map_app_bound _ vo_VocabId (next_VocabId (idents s)));
      [exact Kv | apply examples_vocabulary_rows_keys | |].
    + intros x Hx. apply Hvo in Hx. lia.
    + intros x Hx. apply WriterFacts.examples_vocabulary_rows_ids in Hx. lia.
  - apply Forall_forall. intros x Hx. apply in_app_iff in Hx as [Hx|Hx].
    + now apply Ze.
    + apply WriterFacts.examples_rows_ids in Hx. lia.
  - apply Forall_forall. intros x Hx. apply in_app_iff in Hx as [Hx|Hx].
    + now apply Zv.
    + apply WriterFacts.examples_vocabulary_rows_ids in Hx. lia.
Qed.

Lemma written_grows (s : store) (d : GrammarDocument) : grows s (written s d).
Proof. unfold grows, written. simpl. lia. Qed.

(** X12.  The write route keeps the keys of the three tables in order.  On a
    store whose identifiers were handed out by its counters and are distinct
    per table, after POST /api/gemini, whatever its outcome, that is still
    so, no counter has gone back, and a successful write answers with an
    identifier no grammar row had before. *)
Theorem post_gemini_keeps_keys (s : store) (fs : list (option string))
    (geminiData : option GrammarDocument) :
  fresh s -> primary_keys (tabs s) ->
  fresh (snd (post_gemini s fs geminiData))
  /\ primary_keys (tabs (snd (post_gemini s fs geminiData)))
  /\ grows s (snd (post_gemini s fs geminiData))
  /\ (forall grammarId d,
        fst (post_gemini s fs geminiData) = Json (grammarId, d) ->
        ~ In grammarId (map gp_GrammarId (GrammarPoints (tabs s)))
        /\ In grammarId
             (map gp_GrammarId
                (GrammarPoints (tabs (snd (post_gemini s fs geminiData)))))).
Proof.
  intros Hs Hk. split; [now apply WriterFacts.post_gemini_fresh|].
  destruct geminiData as [d|].
  - destruct (first_fault (inserts_of d) fs) as [msg|] eqn:E.
    + destruct (@WriterFacts.post_gemini_rolls_back s fs d msg E) as [Hm Ht].
      rewrite Ht. split; [exact Hk|]. split.
      * unfold post_gemini.
        pose proof (WriterFacts.cascading_insert_grows d
                      {| work := s; faults := fs |}) as Hg.
        destruct (cascading_insert d {| work := s; faults := fs |}) as [[m|k] t'];
          cbn [snd work] in *; exact Hg.
      * intros grammarId d' H. rewrite Hm in H. discriminate.
    + rewrite (@WriterFacts.post_gemini_ok s fs d E). cbn [fst snd].
      split; [now apply written_primary_keys|].
      split; [apply written_grows|].
      intros grammarId d' H. injection H as <- _. split.
      * intro Hin. apply in_map_iff in Hin as [g [Hid Hg]].
        destruct Hs as [_ [_ [_ [Hgp _]]]]. rewrite Forall_forall in Hgp.
        apply Hgp in Hg. lia.
      * cbn [written make_store tabs GrammarPoints]. rewrite map_app.
        apply in_app_iff. right. now left.
  - simpl. split; [exact Hk|]. split; [apply WriterFacts.grows_refl|].
    intros grammarId d H. discriminate.
Qed.

Lemma post_gemini_keeps_keys_witness :
  fresh empty_store /\ primary_keys (tabs empty_store)
  /\ primary_keys (tabs (snd (post_gemini empty_store [] (Some scenario_document)))).
Proof.
  assert (Hk : primary_keys (tabs empty_store)).
  { unfold primary_keys. simpl. repeat split; constructor. }
  split; [exact WriterFacts.empty_store_fresh|]. split; [exact Hk|].
  exact (proj1 (proj2 (@post_gemini_keeps_keys empty_store []
                         (Some scenario_document)
                         WriterFacts.empty_store_fresh Hk))).
Defined.

(** X13.  A written document shows up in the list.  After a successful
    POST /api/gemini on a store that keeps the identity discipline, the
    answer of GET /api/grammar holds an entry under the returned identifier
    which, identifier fields apart, is the document that was written. *)
Theorem written_document_is_listed (s : store) (fs : list (option string))
    (d : GrammarDocument) :
  fresh s ->
  first_fault (inserts_of d) fs = None ->
  exists grammarId s' n,
    post_gemini s fs (Some d) = (Json (grammarId, d), s')
    /\ In n (get_all_grammar s') /\ g_id n = grammarId
    /\ GrammarViews.strip_entry n = node_of_document d.
Proof.
  intros Hs Hf. rewrite (@WriterFacts.post_gemini_ok s fs d Hf).
  assert (Hid : In (next_GrammarId (idents s))
                  (map g_id (get_all_grammar (written s d)))).
  { apply ReaderFacts.list_ids.
    cbn [written make_store tabs GrammarPoints]. rewrite map_app.
    apply in_app_iff. right. now left. }
  apply in_map_iff in Hid as [n [Hid Hn]].
  exists (next_GrammarId (idents s)), (written s d), n.
  repeat split; try assumption.
  pose proof (ReaderFacts.list_entry_single _ _ Hn) as H.
  rewrite Hid, (WriterFacts.get_grammar_written d Hs) in H.
  congruence.
Qed.

Lemma written_document_is_listed_witness :
  fresh empty_store
  /\ exists n, In n (get_all_grammar
                      (snd (post_gemini empty_store [] (Some scenario_document))))
               /\ g_id n = 1
               /\ GrammarViews.strip_entry n = node_of_document scenario_document.
Proof.
  split; [exact WriterFacts.empty_store_fresh|].
  destruct (@written_document_is_listed empty_store [] scenario_document
              WriterFacts.empty_store_fresh eq_refl)
    as [grammarId [s' [n [H1 [H2 [H3 H4]]]]]].
  exists n. injection H1 as <- <-. repeat split; assumption.
Defined.

End StoreFacts.
(* ------------------------------------------------------------------ *)
(** ** The exam of today *)

Lemma order_by_snoc_first (A : Type) (le : A -> A -> bool) (l : list A) (x : A) :
  (forall y, In y l -> le y x = false) ->
  order_by le (l ++ [x]) = x :: order_by le l.
Proof.
  induction l as [|a r IH]; intro H; [reflexivity|].
  simpl. rewrite IH by (intros y Hy; apply H; now right).
  simpl. now rewrite (H a (or_introl eq_refl)).
Qed.

Module ExamReaderFacts.
Import Exam ExamViews.

Lemma newest_first_total (a b : QuestionBatchRow) :
  (qb_created_at b <=? qb_created_at a) = false ->
  (qb_created_at a <=? qb_created_at b) = true.
Proof. intro H. apply Z.leb_gt in H. apply Z.leb_le. lia. Qed.

Lemma newest_first_trans (a b c : QuestionBatchRow) :
  (qb_created_at b <=? qb_created_at a) = true ->
  (qb_created_at c <=? qb_created_at b) = true ->
  (qb_created_at c <=? qb_created_at a) = true.
Proof. intros H1 H2. apply Z.leb_le in H1, H2. apply Z.leb_le. lia. Qed.

Lemma select_today_none (now : Z) (t : tables) :
  select_today now t = []
  <-> forall b, In b (QuestionBatch t) -> date_of (qb_created_at b) <> date_of now.
Proof.
  unfold select_today.
  set (le := fun a b => qb_created_at b <=? qb_created_at a).
  set (today := filter (fun b => date_of (qb_created_at b) =? date_of now)
                  (QuestionBatch t)).
  split.
  - intros H b Hb E.
    assert (Hin : In b (order_by le today)).
    { apply order_by_in, filter_In. split; [exact Hb | now apply Z.eqb_eq]. }
    destruct (order_by le today); [destruct Hin | discriminate].
  - intro H. replace today with (@nil QuestionBatchRow); [reflexivity|].
    symmetry. apply WriterFacts.filter_none. intros b Hb.
    apply Z.eqb_neq. now apply H.
Qed.

Lemma select_today_latest (now : Z) (t : tables) (batch : QuestionBatchRow)
    (rest : list QuestionBatchRow) :
  select_today now t = batch :: rest ->
  rest = [] /\ In batch (QuestionBatch t)
  /\ date_of (qb_created_at batch) = date_of now
  /\ forall b, In b (QuestionBatch t) ->
               date_of (qb_created_at b) = date_of now ->
               qb_created_at b <= qb_created_at batch.
Proof.
  unfold select_today.
  set (le := fun a b => qb_created_at b <=? qb_created_at a).
  set (today := filter (fun b => date_of (qb_created_at b) =? date_of now)
                  (QuestionBatch t)).
  intro H.
  pose proof (@order_by_is_ordered _ le newest_first_total today) as Hord.
  assert (Hall : forall b, In b (order_by le today) <-> In b today)
    by (intro b; apply order_by_in).
  destruct (order_by le today) as [|b0 l]; [discriminate|].
  simpl in H. injection H as -> <-.
  assert (Hb : In batch today) by (apply Hall; now left).
  apply filter_In in Hb as [Hb Hd]. apply Z.eqb_eq in Hd.
  repeat split; try assumption.
  intros b Hin Hdate.
  assert (Hb' : In b (batch :: l)).
  { apply Hall, filter_In. split; [exact Hin | now apply Z.eqb_eq]. }
  destruct Hb' as [<-|Hb']; [lia|].
  pose proof (@ordered_head_below _ le newest_first_trans batch l Hord b Hb') as Hle.
  apply Z.leb_le in Hle. exact Hle.
Qed.

(** X14.  GET /api/exam/today answers 404 exactly when no batch was created
    on the day of the request.  Otherwise the batch it answers with is one
    of that day and none of that day is more recent; its identifier, time
    and two lists are those of that batch row. *)
Theorem exam_today_is_latest_batch (now : Z) (s : store) :
  (get_exam_today now s = Status404
   <-> forall b, In b (QuestionBatch (tabs s)) ->
                 date_of (qb_created_at b) <> date_of now)
  /\ (forall body,
        get_exam_today now s = Json body ->
        exists batch,
          In batch (QuestionBatch (tabs s))
          /\ exam_batch_id body = qb_batch_id batch
          /\ exam_created_at body = qb_created_at batch
          /\ grammar_list body = JSON_parse (qb_grammar_list batch)
          /\ kanji_list body = JSON_parse (qb_kanji_list batch)
          /\ date_of (qb_created_at batch) = date_of now
          /\ forall b, In b (QuestionBatch (tabs s)) ->
                       date_of (qb_created_at b) = date_of now ->
                       qb_created_at b <= qb_created_at batch).
Proof.
  unfold get_exam_today. split.
  - rewrite <- select_today_none.
    destruct (select_today now (tabs s)); split; congruence.
  - intros body H.
    destruct (select_today now (tabs s)) as [|batch rest] eqn:E; [discriminate|].
    injection H as <-. apply select_today_latest in E as [_ [Hin [Hd Hmax]]].
    exists batch. simpl. repeat split; assumption.
Qed.

(** *** Option grouping on any row stream *)

Lemma group_row_options (m : JsObject.t QuestionNode) (row : ExamRow) (k : Z) :
  options_at (group_row m row) k
  = if question_id row =? k
    then options_at m k ++ [option_node_of_row row]
    else options_at m k.
Proof.
  unfold options_at, group_row.
  destruct (question_id row =? k) eqn:E.
  - apply Z.eqb_eq in E. subst k. unfold JsObject.has.
    destruct (JsObject.get m (question_id row)) as [n|] eqn:G;
      simpl negb; cbv iota zeta; rewrite JsObjectFacts.get_alter_same.
    + rewrite G. reflexivity.
    + rewrite JsObjectFacts.get_set_same. reflexivity.
  - apply Z.eqb_neq in E.
    rewrite JsObjectFacts.get_alter_other by exact E.
    destruct (JsObject.has m (question_id row)); simpl negb; cbv iota;
      [reflexivity|].
    now rewrite JsObjectFacts.get_set_other.
Qed.

Lemma group_rows_options_at (rows : list ExamRow) (m : JsObject.t QuestionNode)
    (k : Z) :
  options_at (fold_left group_row rows m) k
  = options_at m k
    ++ map option_node_of_row (filter (fun r => question_id r =? k) rows).
Proof.
  revert m. induction rows as [|row r IH]; intro m.
  - simpl. now rewrite app_nil_r.
  - cbn [fold_left filter]. rewrite IH, group_row_options.
    destruct (question_id row =? k); [|reflexivity].
    now rewrite <- app_assoc.
Qed.

Lemma group_rows_keyed (rows : list ExamRow) :
  Forall (fun p => n_question_id (snd p) = fst p)
    (fold_left group_row rows (JsObject.empty QuestionNode)).
Proof. apply ExamFacts.group_rows_invariant; [auto | reflexivity | constructor]. Qed.

Lemma group_rows_id_list (rows : list ExamRow) :
  Permutation (first_seen (map question_id rows))
    (map n_question_id (group_rows rows)).
Proof.
  unfold group_rows.
  set (m := fold_left group_row rows (JsObject.empty QuestionNode)).
  assert (Hids : map n_question_id (map snd m) = JsObject.keys m).
  { unfold JsObject.keys. rewrite map_map. apply map_ext_in.
    intros p Hp. pose proof (group_rows_keyed rows) as Hk.
    rewrite Forall_forall in Hk. now apply Hk. }
  assert (Hkeys : JsObject.keys m = first_seen (map question_id rows)).
  { unfold m. now rewrite ExamFacts.group_rows_keys. }
  rewrite <- Hkeys, <- Hids. apply Permutation_map, JsObjectFacts.values_perm.
Qed.

Lemma group_rows_node (rows : list ExamRow) (n : QuestionNode) :
  In n (group_rows rows) ->
  n_options n
  = map option_node_of_row
      (filter (fun r => question_id r =? n_question_id n) rows).
Proof.
  unfold group_rows. rewrite JsObjectFacts.values_in, in_map_iff.
  intros [[k v] [Hv Hin]]. simpl in Hv. subst v.
  pose proof (group_rows_keyed rows) as Hk. rewrite Forall_forall in Hk.
  pose proof (Hk _ Hin) as Hid. simpl in Hid.
  assert (Hnd : NoDup (JsObject.keys
                         (fold_left group_row rows (JsObject.empty QuestionNode)))).
  { rewrite ExamFacts.group_rows_keys. apply first_seen_nodup. }
  pose proof (JsObjectFacts.in_get _ _ _ Hnd Hin) as Hget.
  pose proof (group_rows_options_at rows (JsObject.empty QuestionNode) k) as H.
  unfold options_at at 1 in H. rewrite Hget in H. rewrite Hid. exact H.
Qed.

Lemma filter_split_length (A : Type) (p : A -> bool) (l : list A) :
  (length (filter p l) + length (filter (fun x => negb (p x)) l))%nat = length l.
Proof.
  induction l as [|a r IH]; [reflexivity|].
  simpl. destruct (p a); simpl; lia.
Qed.

(** Nodes with distinct identifiers that each hold the rows of their own
    identifier hold, together, every row once. *)
Lemma grouped_rows_size (nodes : list QuestionNode) :
  forall rows : list ExamRow,
    NoDup (map n_question_id nodes) ->
    (forall r, In r rows -> In (question_id r) (map n_question_id nodes)) ->
    (forall n, In n nodes ->
               length (n_options n)
               = length (filter (fun r => question_id r =? n_question_id n) rows)) ->
    length (flat_map n_options nodes) = length rows.
Proof.
  induction nodes as [|n ns IH]; intros rows Hnd Hcov Hopt.
  - destruct rows as [|r rows]; [reflexivity|].
    destruct (Hcov r (or_introl eq_refl)).
  - simpl in Hnd. inversion Hnd as [|? ? Hn Hns]. subst.
    cbn [flat_map]. rewrite length_app, (Hopt n (or_introl eq_refl)).
    rewrite <- (filter_split_length (fun r => question_id r =? n_question_id n) rows).
    f_equal. apply IH; [exact Hns | |].
    + intros r Hr. apply filter_In in Hr as [Hr Hne].
      apply negb_true_iff, Z.eqb_neq in Hne.
      destruct (Hcov r Hr) as [E|Hin]; [congruence | exact Hin].
    + intros m Hm. rewrite (Hopt m (or_intror Hm)), GrammarFacts.filter_filter.
      f_equal. apply filter_ext. intro r.
      destruct (question_id r =? n_question_id m) eqn:E; [|now rewrite andb_false_r].
      apply Z.eqb_eq in E. rewrite andb_true_r.
      symmetry. apply negb_true_iff, Z.eqb_neq. rewrite E. intro E'.
      apply Hn. rewrite <- E'. now apply in_map.
Qed.

Lemma le_question_option_total (a b : ExamRow) :
  le_question_option a b = false -> le_question_option b a = true.
Proof.
  unfold le_question_option.
  rewrite (Z.compare_antisym (question_id a) (question_id b)).
  destruct (question_id a ?= question_id b); simpl; try discriminate;
    try reflexivity.
  intro H. apply Z.leb_gt in H. apply Z.leb_le. lia.
Qed.

(** The exam query delivers its rows in ascending [question_id]. *)
Lemma select_questions_ascending (t : tables) (batch_id : Z) :
  ordered Z.leb (map question_id (select_questions t batch_id)) = true.
Proof.
  apply (JoinFacts.ordered_map_leb le_question_option).
  - intros a b. unfold le_question_option.
    destruct (question_id a ?= question_id b) eqn:E; try discriminate; intros _.
    + apply Z.compare_eq in E. lia.
    + apply (proj1 (Z.compare_lt_iff _ _)) in E. lia.
  - apply order_by_is_ordered. exact le_question_option_total.
Qed.

Lemma group_rows_first_seen (rows : list ExamRow) :
  forallb JsObject.is_index (map question_id rows) = true ->
  ordered Z.leb (map question_id rows) = true ->
  map n_question_id (group_rows rows) = first_seen (map question_id rows).
Proof.
  intros Hidx Hord. unfold group_rows.
  set (m := fold_left group_row rows (JsObject.empty QuestionNode)).
  assert (Hkeys : JsObject.keys m = first_seen (map question_id rows)).
  { unfold m. now rewrite ExamFacts.group_rows_keys. }
  rewrite JsObjectFacts.values_in_creation_order.
  - rewrite <- Hkeys. unfold JsObject.keys. rewrite map_map. apply map_ext_in.
    intros p Hp. pose proof (group_rows_keyed rows) as Hk.
    rewrite Forall_forall in Hk. now apply Hk.
  - rewrite Hkeys. apply forallb_forall. intros k Hk.
    apply (proj1 (first_seen_in _ _)) in Hk.
    rewrite forallb_forall in Hidx. now apply Hidx.
  - rewrite Hkeys. now apply GrammarFacts.first_seen_ordered.
Qed.

(** X15.  Option grouping in the answer of GET /api/exam/today: every
    question identifier of the joined rows appears on exactly one question
    object; the options of a question object are the joined rows of its
    question, one entry per row, in the order of the query (ascending option
    identifier) and with the text and flag the row carries; no joined row is
    lost or counted twice; and when the question identifiers are array
    indices the questions come in ascending order of identifier. *)
Theorem exam_options_grouped_per_question (now : Z) (s : store) (body : ExamBody) :
  get_exam_today now s = Json body ->
  NoDup (map n_question_id (exam_questions body))
  /\ (forall id, In id (map n_question_id (exam_questions body))
                 <-> In id (map question_id
                              (select_questions (tabs s) (exam_batch_id body))))
  /\ (forall n, In n (exam_questions body) ->
                n_options n
                = map option_node_of_row
                    (filter (fun r => question_id r =? n_question_id n)
                       (select_questions (tabs s) (exam_batch_id body))))
  /\ length (flat_map n_options (exam_questions body))
     = length (select_questions (tabs s) (exam_batch_id body))
  /\ (Forall (fun q => 0 <= q_question_id q < 4294967295) (questions (tabs s)) ->
      ordered Z.leb (map n_question_id (exam_questions body)) = true).
Proof.
  unfold get_exam_today.
  destruct (select_today now (tabs s)) as [|batch rest]; [discriminate|].
  intro H. injection H as <-. cbn [exam_questions exam_batch_id].
  set (rows := select_questions (tabs s) (qb_batch_id batch)).
  assert (Hperm : Permutation (first_seen (map question_id rows))
                    (map n_question_id (group_rows rows)))
    by apply group_rows_id_list.
  assert (Hnd : NoDup (map n_question_id (group_rows rows))).
  { eapply Permutation_NoDup; [exact Hperm | apply first_seen_nodup]. }
  repeat apply conj.
  - exact Hnd.
  - intro id. apply ExamFacts.group_rows_ids.
  - intros n Hn. now apply group_rows_node.
  - apply grouped_rows_size; [exact Hnd | |].
    + intros r Hr. apply ExamFacts.group_rows_ids. now apply in_map.
    + intros n Hn. rewrite (group_rows_node _ _ Hn). apply length_map.
  - intro Hidx. rewrite Forall_forall in Hidx.
    rewrite group_rows_first_seen.
    + apply GrammarFacts.first_seen_ordered, select_questions_ascending.
    + apply forallb_forall. intros k Hk. apply in_map_iff in Hk as [r [<- Hr]].
      apply ExamFacts.select_questions_in in Hr as [q [o [Hq [_ [_ [_ ->]]]]]].
      apply Hidx in Hq. cbn [exam_row question_id].
      unfold JsObject.is_index. apply andb_true_intro. split.
      * apply Z.leb_le. lia.
      * apply Z.ltb_lt. lia.
    + apply select_questions_ascending.
Qed.

(** On [shuffled_exam_store] the join delivers four rows for the batch of
    today: the answer holds question 1 with the options 1 and 3, then
    question 2 with the options 4 and 5; question 3 and option 2 belong to
    another batch. *)
Lemma exam_options_grouped_per_question_witness :
  exists body,
    get_exam_today 200 shuffled_exam_store = Json body
    /\ map (fun r => (question_id r, option_id r))
         (select_questions (tabs shuffled_exam_store) (exam_batch_id body))
       = [(1, 1); (1, 3); (2, 4); (2, 5)]
    /\ map (fun n => (n_question_id n, map n_option_id (n_options n)))
         (exam_questions body)
       = [(1, [1; 3]); (2, [4; 5])]
    /\ NoDup (map n_question_id (exam_questions body))
    /\ (forall n, In n (exam_questions body) ->
                  n_options n
                  = map option_node_of_row
                      (filter (fun r => question_id r =? n_question_id n)
                         (select_questions (tabs shuffled_exam_store)
                            (exam_batch_id body))))
    /\ length (flat_map n_options (exam_questions body))
       = length (select_questions (tabs shuffled_exam_store) (exam_batch_id body))
    /\ ordered Z.leb (map n_question_id (exam_questions body)) = true.
Proof.
  eexists. split; [reflexivity|]. split; [reflexivity|]. split; [reflexivity|].
  destruct (@exam_options_grouped_per_question 200 shuffled_exam_store _ eq_refl)
    as [H1 [_ [H3 [H4 H5]]]].
  split; [exact H1|]. split; [exact H3|]. split; [exact H4|].
  apply H5. simpl. repeat constructor; simpl; lia.
Defined.

(** *** The rows the exam query returns for a freshly written batch *)

Lemma select_today_written (now today : Z) (grammarList kanjiList : list sqltext)
    (s : store) (qs : list Question) :
  (forall b, In b (QuestionBatch (tabs s)) -> qb_created_at b < now) ->
  date_of today = date_of now ->
  select_today today (tabs (written now grammarList kanjiList s qs))
  = [batch_row (next_batch_id (idents s)) now grammarList kanjiList].
Proof.
  intros Hold Hd. unfold select_today.
  cbn [written make_store tabs QuestionBatch].
  rewrite filter_app. cbn [filter batch_row qb_created_at].
  rewrite Hd, Z.eqb_refl. rewrite order_by_snoc_first; [reflexivity|].
  intros y Hy. apply filter_In in Hy as [Hy _]. apply Hold in Hy.
  cbn [qb_created_at]. apply Z.leb_gt. exact Hy.
Qed.

Lemma questions_rows_batch (batchId questionId : Z) (qs : list Question)
    (qr : questionsRow) :
  In qr (questions_rows batchId questionId qs) -> q_batch_id qr = batchId.
Proof.
  revert questionId. induction qs as [|q r IH]; intros questionId H; [destruct H|].
  destruct H as [<-|H]; [reflexivity | eapply IH, H].
Qed.

Lemma questions_options_rows_lower (questionId optionId : Z) (qs : list Question)
    (o : question_optionsRow) :
  In o (questions_options_rows questionId optionId qs) ->
  questionId <= o_question_id o.
Proof.
  intro H. apply ExamFacts.questions_options_rows_in in H
    as [i [q [opt [_ [H _]]]]]. lia.
Qed.

Lemma exam_rows_written (t : tables) (batchId : Z) (qs : list Question) :
  forall nq no P,
    question_options t = P ++ questions_options_rows nq no qs ->
    (forall o, In o P -> o_question_id o < nq) ->
    flat_map (fun q => map (exam_row q)
                         (filter (fun o => o_question_id o =? q_question_id q)
                            (question_options t)))
      (questions_rows batchId nq qs)
    = written_exam_rows batchId nq no qs.
Proof.
  induction qs as [|q r IH]; intros nq no P Ht HP; [reflexivity|].
  cbn [questions_rows flat_map written_exam_rows]. f_equal.
  - f_equal. rewrite Ht. cbn [questions_options_rows questions_row q_question_id].
    rewrite !filter_app.
    rewrite (WriterFacts.filter_none _ P),
      (WriterFacts.filter_all _ (options_rows nq no (answer q) (options q))),
      WriterFacts.filter_none.
    + now rewrite app_nil_r.
    + intros o Ho. apply questions_options_rows_lower in Ho.
      apply Z.eqb_neq. lia.
    + intros o Ho. apply ExamFacts.options_rows_in in Ho as [Ho _].
      now apply Z.eqb_eq.
    + intros o Ho. apply HP in Ho. apply Z.eqb_neq. lia.
  - apply (IH (nq + 1) (no + Z.of_nat (length (options q)))
              (P ++ options_rows nq no (answer q) (options q))).
    + rewrite Ht. cbn [questions_options_rows]. now rewrite <- app_assoc.
    + intros o Ho. apply in_app_iff in Ho as [Ho|Ho].
      * apply HP in Ho. lia.
      * apply ExamFacts.options_rows_in in Ho as [Ho _]. lia.
Qed.

Lemma options_rows_ids (questionId : Z) (canonical : string) (opts : list string)
    (no : Z) (o : question_optionsRow) :
  In o (options_rows questionId no canonical opts) -> no <= o_option_id o.
Proof.
  revert no. induction opts as [|a r IH]; intros no H; [destruct H|].
  destruct H as [<-|H]; [simpl; lia|]. apply IH in H. lia.
Qed.

Lemma options_block_ordered (qr : questionsRow) (questionId : Z)
    (canonical : string) (opts : list string) (no : Z) :
  ordered le_question_option
    (map (exam_row qr) (options_rows questionId no canonical opts)) = true.
Proof.
  revert no. induction opts as [|a r IH]; intro no; [reflexivity|].
  destruct r as [|b r']; [reflexivity|].
  specialize (IH (no + 1)).
  cbn [options_rows map] in *. rewrite ordered_cons, IH, andb_true_r.
  unfold le_question_option. cbn [exam_row question_id option_id options_row
    o_option_id]. rewrite Z.compare_refl. apply Z.leb_le. lia.
Qed.

Lemma written_exam_rows_ids (batchId : Z) (qs : list Question) (nq no : Z)
    (row : ExamRow) :
  In row (written_exam_rows batchId nq no qs) ->
  nq <= question_id row < nq + Z.of_nat (length qs).
Proof.
  revert nq no. induction qs as [|q r IH]; intros nq no H; [destruct H|].
  cbn [length]. rewrite Nat2Z.inj_succ.
  cbn [written_exam_rows] in H. apply in_app_iff in H as [H|H].
  - apply in_map_iff in H as [o [<- _]]. simpl. lia.
  - apply IH in H. lia.
Qed.

Lemma written_exam_rows_ordered (batchId : Z) (qs : list Question) (nq no : Z) :
  ordered le_question_option (written_exam_rows batchId nq no qs) = true.
Proof.
  revert nq no. induction qs as [|q r IH]; intros nq no; [reflexivity|].
  cbn [written_exam_rows]. apply WriterFacts.ordered_app.
  - apply options_block_ordered.
  - apply IH.
  - intros a b Ha Hb. apply in_map_iff in Ha as [o [<- _]].
    apply written_exam_rows_ids in Hb.
    unfold le_question_option. cbn [exam_row question_id questions_row q_question_id].
    replace (nq ?= question_id b) with Lt; [reflexivity|].
    symmetry. apply Z.compare_lt_iff. lia.
Qed.

Lemma select_questions_written (now : Z) (grammarList kanjiList : list sqltext)
    (s : store) (qs : list Question) :
  disciplined s ->
  select_questions (tabs (written now grammarList kanjiList s qs))
    (next_batch_id (idents s))
  = written_exam_rows (next_batch_id (idents s)) (next_question_id (idents s))
      (next_option_id (idents s)) qs.
Proof.
  intros [[_ [_ Hqo]] Hfk]. rewrite Forall_forall in Hqo, Hfk.
  unfold select_questions.
  change (questions (tabs (written now grammarList kanjiList s qs)))
    with (questions (tabs s)
          ++ questions_rows (next_batch_id (idents s))
               (next_question_id (idents s)) qs).
  rewrite filter_app, WriterFacts.filter_none, WriterFacts.filter_all.
  - simpl app.
    rewrite (@exam_rows_written _ (next_batch_id (idents s)) qs
               (next_question_id (idents s)) (next_option_id (idents s))
               (question_options (tabs s))).
    + apply order_by_ordered, written_exam_rows_ordered.
    + reflexivity.
    + intros o Ho. now apply Hqo.
  - intros q Hq. apply questions_rows_batch in Hq. now apply Z.eqb_eq.
  - intros q Hq. apply Hfk in Hq. apply Z.eqb_neq. lia.
Qed.

(** *** What the grouping loop builds from those rows *)

Lemma has_snoc (m : JsObject.t QuestionNode) (k : Z) (n : QuestionNode) :
  JsObject.has m k = false -> JsObject.has (m ++ [(k, n)]) k = true.
Proof.
  intro H. rewrite <- (JsObjectFacts.set_new _ _ n H).
  unfold JsObject.has. now rewrite JsObjectFacts.get_set_same.
Qed.

Lemma alter_snoc (f : QuestionNode -> QuestionNode) (m : JsObject.t QuestionNode)
    (k : Z) (n : QuestionNode) :
  JsObject.has m k = false ->
  JsObject.alter f (m ++ [(k, n)]) k = m ++ [(k, f n)].
Proof.
  intro H. rewrite <- (JsObjectFacts.set_new _ _ n H).
  now apply ExamFacts.alter_new.
Qed.

Lemma group_block_tail (qr : questionsRow) (os : list question_optionsRow) :
  forall (m : JsObject.t QuestionNode) (n : QuestionNode),
    JsObject.has m (q_question_id qr) = false ->
    fold_left group_row (map (exam_row qr) os) (m ++ [(q_question_id qr, n)])
    = m ++ [(q_question_id qr,
             fold_left (fun n o => push_option (exam_row qr o) n) os n)].
Proof.
  induction os as [|o r IH]; intros m n H; [reflexivity|].
  cbn [map fold_left]. rewrite <- (IH m _ H). f_equal.
  unfold group_row. cbn [exam_row question_id].
  rewrite (has_snoc _ _ n H). simpl negb. cbv iota zeta.
  now apply alter_snoc.
Qed.

Lemma group_block (qr : questionsRow) (os : list question_optionsRow)
    (m : JsObject.t QuestionNode) :
  JsObject.has m (q_question_id qr) = false ->
  fold_left group_row (map (exam_row qr) os) m
  = match os with
    | [] => m
    | _ :: _ => m ++ [(q_question_id qr, written_node qr os)]
    end.
Proof.
  intro H. destruct os as [|o r]; [reflexivity|].
  cbn [map fold_left]. unfold written_node. cbn [fold_left].
  rewrite <- (group_block_tail qr r m _ H). f_equal.
  unfold group_row. cbn [exam_row question_id]. rewrite H. simpl negb.
  cbv iota zeta. rewrite ExamFacts.alter_new by exact H. reflexivity.
Qed.

Lemma group_written (batchId : Z) (qs : list Question) :
  forall nq no (m : JsObject.t QuestionNode),
    (forall k, In k (JsObject.keys m) -> k < nq) ->
    fold_left group_row (written_exam_rows batchId nq no qs) m
    = m ++ written_entries batchId nq no qs.
Proof.
  induction qs as [|q r IH]; intros nq no m Hm.
  - simpl. now rewrite app_nil_r.
  - cbn [written_exam_rows written_entries]. rewrite fold_left_app.
    rewrite group_block.
    + destruct (options q) as [|o os] eqn:E.
      * cbn [options_rows app]. apply IH. intros k Hk. apply Hm in Hk. lia.
      * cbn [options_rows]. rewrite IH.
        -- now rewrite <- app_assoc.
        -- intros k Hk. unfold JsObject.keys in Hk. rewrite map_app in Hk.
           apply in_app_iff in Hk as [Hk|[<-|[]]]; [apply Hm in Hk|]; simpl; lia.
    + cbn [questions_row q_question_id].
      destruct (JsObject.has m nq) eqn:E; [|reflexivity].
      apply JsObjectFacts.has_in, Hm in E. lia.
Qed.

Lemma written_entries_keys (batchId : Z) (qs : list Question) (nq no k : Z) :
  In k (JsObject.keys (written_entries batchId nq no qs)) ->
  nq <= k < nq + Z.of_nat (length qs).
Proof.
  revert nq no. induction qs as [|q r IH]; intros nq no H; [destruct H|].
  cbn [length]. rewrite Nat2Z.inj_succ.
  cbn [written_entries] in H. unfold JsObject.keys in H. rewrite map_app in H.
  apply in_app_iff in H as [H|H].
  - destruct (options q); [destruct H|]. destruct H as [<-|[]]. simpl. lia.
  - apply IH in H. lia.
Qed.

Lemma written_entries_ascending (batchId : Z) (qs : list Question) (nq no : Z) :
  ordered Z.leb (JsObject.keys (written_entries batchId nq no qs)) = true.
Proof.
  revert nq no. induction qs as [|q r IH]; intros nq no; [reflexivity|].
  cbn [written_entries]. unfold JsObject.keys. rewrite map_app.
  apply WriterFacts.ordered_app.
  - now destruct (options q).
  - apply IH.
  - intros a b Ha Hb. apply written_entries_keys in Hb.
    destruct (options q); [destruct Ha|]. destruct Ha as [<-|[]].
    simpl. apply Z.leb_le. lia.
Qed.

Lemma pushed_options (qr : questionsRow) (os : list question_optionsRow) :
  forall n : QuestionNode,
    question_view (fold_left (fun n o => push_option (exam_row qr o) n) os n)
    = (n_question_type n, n_question_text n, n_answer n, n_explanation n,
       map option_view (n_options n)
       ++ map (fun o => (o_option_text o, o_is_correct o)) os).
Proof.
  induction os as [|o r IH]; intro n.
  - simpl. now rewrite app_nil_r.
  - cbn [fold_left]. rewrite IH. cbn [push_option n_question_type
      n_question_text n_answer n_explanation n_options exam_row option_text
      is_correct]. rewrite map_app, <- app_assoc. reflexivity.
Qed.

Lemma options_rows_view (questionId : Z) (canonical : string) (opts : list string)
    (no : Z) :
  map (fun o => (o_option_text o, o_is_correct o))
    (options_rows questionId no canonical opts)
  = map (fun opt => (Some opt, String.eqb opt canonical)) opts.
Proof.
  revert no. induction opts as [|a r IH]; intro no; [reflexivity|].
  simpl. now rewrite IH.
Qed.

Lemma written_entries_view (batchId : Z) (qs : list Question) (nq no : Z) :
  map question_view (map snd (written_entries batchId nq no qs))
  = map generated_view (filter has_options qs).
Proof.
  revert nq no. induction qs as [|q r IH]; intros nq no; [reflexivity|].
  cbn [written_entries filter]. rewrite !map_app, IH.
  assert (Hq : has_options q = match options q with [] => false | _ :: _ => true end)
    by reflexivity.
  rewrite Hq. destruct (options q) as [|o os] eqn:E; [reflexivity|].
  cbn [map app]. f_equal. cbn [snd].
  unfold written_node. rewrite pushed_options, options_rows_view.
  unfold generated_view. rewrite E. reflexivity.
Qed.

Lemma group_rows_written (batchId : Z) (qs : list Question) (nq no : Z) :
  0 <= nq -> nq + Z.of_nat (length qs) <= 4294967295 ->
  group_rows (written_exam_rows batchId nq no qs)
  = map snd (written_entries batchId nq no qs).
Proof.
  intros Hlo Hhi. unfold group_rows.
  rewrite group_written by (intros k []).
  cbn [JsObject.empty app].
  apply JsObjectFacts.values_in_creation_order.
  - apply forallb_forall. intros k Hk. apply written_entries_keys in Hk.
    unfold JsObject.is_index. apply andb_true_intro. split.
    + apply Z.leb_le. lia.
    + apply Z.ltb_lt. lia.
  - apply written_entries_ascending.
Qed.

(** X16.  Write, then read the exam.  On a store that keeps the identity
    discipline and whose batches are older than the new one, a successful
    POST /api/gemini/questions followed by GET /api/exam/today on the same
    day answers with the new batch: its identifier and time, the two sampled
    lists as they were echoed, and the generated questions that have at
    least one option, in the order they were generated, each with its texts
    and its options in order, flagged by equality with the answer. *)
Theorem exam_write_then_read (now today : Z) (newid_grammar newid_kanji : nat -> Z)
    (s : store) (fs : list (option string)) (qs : list Question) :
  disciplined s ->
  (forall b, In b (QuestionBatch (tabs s)) -> qb_created_at b < now) ->
  date_of today = date_of now ->
  0 <= next_question_id (idents s) ->
  next_question_id (idents s) + Z.of_nat (length qs) <= 4294967295 ->
  first_fault (S (inserts_of_questions qs)) fs = None ->
  exists body,
    get_exam_today today
      (snd (post_questions now newid_grammar newid_kanji s fs (inr qs)))
    = Json body
    /\ exam_batch_id body = next_batch_id (idents s)
    /\ exam_created_at body = now
    /\ grammar_list body = map Concept (sample_grammar newid_grammar (tabs s))
    /\ kanji_list body = map Kanji (sample_kanji newid_kanji (tabs s))
    /\ map question_view (exam_questions body)
       = map generated_view (filter has_options qs).
Proof.
  intros Hs Hold Hd Hlo Hhi Hf.
  rewrite (@ExamFacts.post_questions_ok now newid_grammar newid_kanji s fs qs Hf).
  cbn [snd]. unfold get_exam_today.
  rewrite select_today_written by assumption.
  eexists. split; [reflexivity|].
  cbn [exam_batch_id exam_created_at grammar_list kanji_list exam_questions
       batch_row qb_batch_id qb_created_at qb_grammar_list qb_kanji_list
       JSON_parse].
  repeat split.
  rewrite select_questions_written by exact Hs.
  rewrite group_rows_written by assumption.
  apply written_entries_view.
Qed.

Lemma seeded_store_disciplined : disciplined seeded_store.
Proof. split; [exact ExamFacts.seeded_store_fresh | constructor]. Qed.

Lemma exam_write_then_read_witness :
  disciplined seeded_store
  /\ first_fault (S (inserts_of_questions [sound_question; bare_question])) [] = None
  /\ exists body,
       get_exam_today 150
         (snd (post_questions 100 sample_newid sample_newid seeded_store []
                 (inr [sound_question; bare_question])))
       = Json body
       /\ map question_view (exam_questions body) = [generated_view sound_question].
Proof.
  split; [exact seeded_store_disciplined|]. split; [reflexivity|].
  destruct (@exam_write_then_read 100 150 sample_newid sample_newid seeded_store []
              [sound_question; bare_question] seeded_store_disciplined)
    as [body [H1 [_ [_ [_ [_ H6]]]]]].
  - intros b [].
  - reflexivity.
  - simpl. lia.
  - simpl. lia.
  - reflexivity.
  - exists body. split; [exact H1 | exact H6].
Defined.

(** *** What the write route keeps *)

Lemma advances_refl (s : store) : advances s s.
Proof. unfold advances. lia. Qed.

Lemma advances_trans (a b c : store) : advances a b -> advances b c -> advances a c.
Proof. unfold advances. lia. Qed.

Lemma write_questions_advances (now : Z) (grammarList kanjiList : list sqltext)
    (generated : string + list Question) :
  steps advances (write_questions now grammarList kanjiList generated).
Proof.
  unfold write_questions.
  apply (steps_bind advances_trans).
  - apply (steps_statement advances advances_refl). intro s.
    unfold advances. simpl. lia.
  - intro batchId. destruct generated as [msg|qs].
    + intro t. apply advances_refl.
    + apply (steps_bind advances_trans).
      * apply (steps_for_of advances_refl advances_trans). intro q.
        unfold insert_question. apply (steps_bind advances_trans).
        -- apply (steps_statement advances advances_refl). intro s.
           unfold advances. simpl. lia.
        -- intro questionId. apply (steps_for_of advances_refl advances_trans).
           intro opt. apply (steps_statement advances advances_refl). intro s.
           unfold advances. simpl. lia.
      * intros _. apply (steps_ret advances advances_refl).
Qed.

Lemma rolled_back_disciplined (s s' : store) :
  disciplined s -> advances s s' ->
  disciplined {| tabs := tabs s; idents := idents s' |}.
Proof.
  intros [[Hb [Hq Ho]] Hfk] [A1 [A2 A3]].
  unfold disciplined, fresh. cbn [tabs idents].
  repeat split.
  - eapply Forall_impl; [|exact Hb]. cbv beta. intros. lia.
  - eapply Forall_impl; [|exact Hq]. cbv beta. intros. lia.
  - eapply Forall_impl; [|exact Ho]. cbv beta. intros. lia.
  - eapply Forall_impl; [|exact Hfk]. cbv beta. intros. lia.
Qed.

Lemma questions_rows_ids (batchId : Z) (qs : list Question) (nq : Z)
    (qr : questionsRow) :
  In qr (questions_rows batchId nq qs) ->
  nq <= q_question_id qr < nq + Z.of_nat (length qs).
Proof.
  intro H. apply ExamFacts.questions_rows_in in H as [i [q [Hi [H _]]]].
  assert (i < length qs)%nat by (apply nth_error_Some; congruence). lia.
Qed.

Lemma questions_options_rows_upper (nq no : Z) (qs : list Question)
    (o : question_optionsRow) :
  In o (questions_options_rows nq no qs) ->
  o_question_id o < nq + Z.of_nat (length qs).
Proof.
  intro H. apply ExamFacts.questions_options_rows_in in H
    as [i [q [opt [Hi [H _]]]]].
  assert (i < length qs)%nat by (apply nth_error_Some; congruence). lia.
Qed.

Lemma written_disciplined (now : Z) (grammarList kanjiList : list sqltext)
    (s : store) (qs : list Question) :
  disciplined s -> disciplined (written now grammarList kanjiList s qs).
Proof.
  intros [[Hb [Hq Ho]] Hfk]. rewrite Forall_forall in Hb, Hq, Ho, Hfk.
  unfold disciplined, fresh, written.
  cbn [make_store tabs idents QuestionBatch questions question_options
       next_batch_id next_question_id].
  repeat split; apply Forall_forall; intros x Hx;
    apply in_app_iff in Hx as [Hx|Hx].
  - apply Hb in Hx. lia.
  - destruct Hx as [<-|[]]. simpl. lia.
  - apply Hq in Hx. lia.
  - apply questions_rows_ids in Hx. lia.
  - apply Ho in Hx. lia.
  - apply questions_options_rows_upper in Hx. lia.
  - apply Hfk in Hx. lia.
  - apply questions_rows_batch in Hx. lia.
Qed.

(** X17.  What POST /api/gemini/questions keeps, whatever its outcome
    (success, a rejected insert, a failed generation): the identity
    discipline of the three exam tables with the foreign key of questions,
    counters that never go back, and the two tables it samples from, which
    it only reads. *)
Theorem post_questions_keeps_discipline (now : Z)
    (newid_grammar newid_kanji : nat -> Z) (s : store)
    (fs : list (option string)) (generated : string + list Question) :
  disciplined s ->
  disciplined (snd (post_questions now newid_grammar newid_kanji s fs generated))
  /\ advances s (snd (post_questions now newid_grammar newid_kanji s fs generated))
  /\ GrammarPoints
       (tabs (snd (post_questions now newid_grammar newid_kanji s fs generated)))
     = GrammarPoints (tabs s)
  /\ KanjiInfo
       (tabs (snd (post_questions now newid_grammar newid_kanji s fs generated)))
     = KanjiInfo (tabs s).
Proof.
  intro Hs.
  pose proof (write_questions_advances now
                (map Concept (sample_grammar newid_grammar (tabs s)))
                (map Kanji (sample_kanji newid_kanji (tabs s))) generated
                {| work := s; faults := fs |}) as Hadv.
  cbn [work] in Hadv.
  destruct generated as [thrown|qs].
  - unfold post_questions in *.
    destruct (write_questions now _ _ (inl thrown) {| work := s; faults := fs |})
      as [[msg|body] t'] eqn:E; cbn [snd work tabs idents] in *.
    + split; [now apply rolled_back_disciplined|]. split; [exact Hadv|]. now split.
    + exfalso. revert E. unfold write_questions, bind, insert_QuestionBatch,
        statement, throw. cbn [faults].
      destruct fs as [|[m|] fs']; discriminate.
  - destruct (first_fault (S (inserts_of_questions qs)) fs) as [msg|] eqn:E.
    + unfold post_questions in *.
      pose proof (ExamFacts.write_questions_charges now
                    (map Concept (sample_grammar newid_grammar (tabs s)))
                    (map Kanji (sample_kanji newid_kanji (tabs s))) qs
                    {| work := s; faults := fs |}) as Hc.
      cbn [faults] in Hc. rewrite E in Hc. destruct Hc as [t' Hc].
      rewrite Hc in *. cbn [snd work tabs idents] in *.
      split; [now apply rolled_back_disciplined|]. split; [exact Hadv|]. now split.
    + rewrite (@ExamFacts.post_questions_ok now newid_grammar newid_kanji s fs qs E).
      cbn [snd]. split; [now apply written_disciplined|].
      split; [|now split].
      unfold advances, written. simpl. lia.
Qed.

Lemma stocked_store_disciplined : disciplined stocked_store.
Proof.
  unfold disciplined, fresh. simpl.
  repeat split; repeat constructor; simpl; lia.
Qed.

(** On [stocked_store] a write of two questions with four and three options
    adds batch 4, the questions 6 and 7 under it and their seven options; a
    write whose first option insert is rejected leaves the tables as they
    were and the question counter one further.  Both stores keep the
    discipline. *)
Lemma post_questions_keeps_discipline_witness :
  disciplined stocked_store
  /\ (let s' := snd (post_questions 200 sample_newid sample_newid stocked_store []
                       (inr [sound_question; doubled_question])) in
      map qb_batch_id (QuestionBatch (tabs s')) = [1; 3; 4]
      /\ map (fun q => (q_question_id q, q_batch_id q)) (questions (tabs s'))
         = [(1, 1); (4, 3); (6, 4); (7, 4)]
      /\ map o_question_id (question_options (tabs s'))
         = [1; 1; 4; 6; 6; 6; 6; 7; 7; 7]
      /\ idents s' = {| next_batch_id := 5; next_question_id := 8;
                        next_option_id := 15 |}
      /\ disciplined s' /\ advances stocked_store s'
      /\ GrammarPoints (tabs s') = GrammarPoints (tabs stocked_store))
  /\ (let s' := snd (post_questions 200 sample_newid sample_newid stocked_store
                       [None; None; Some "timeout"%string]
                       (inr [sound_question])) in
      tabs s' = tabs stocked_store
      /\ idents s' = {| next_batch_id := 5; next_question_id := 7;
                        next_option_id := 8 |}
      /\ disciplined s' /\ advances stocked_store s').
Proof.
  split; [exact stocked_store_disciplined|]. split.
  - destruct (@post_questions_keeps_discipline 200 sample_newid sample_newid
                stocked_store [] (inr [sound_question; doubled_question])
                stocked_store_disciplined) as [H1 [H2 [H3 _]]].
    cbv zeta. split; [reflexivity|]. split; [reflexivity|]. split; [reflexivity|].
    split; [reflexivity|]. split; [exact H1|]. split; [exact H2 | exact H3].
  - destruct (@post_questions_keeps_discipline 200 sample_newid sample_newid
                stocked_store [None; None; Some "timeout"%string]
                (inr [sound_question]) stocked_store_disciplined)
      as [H1 [H2 _]].
    cbv zeta. split; [reflexivity|]. split; [reflexivity|].
    split; [exact H1 | exact H2].
Defined.

(** X18.  A generation that fails after the batch row was inserted (the
    generator call, a missing text, the parse) undoes the batch row: the
    answer is 500 with the message of what was thrown, or of the rejection
    of the batch insert when that came first, every table is as before and
    GET /api/exam/today answers as before. *)
Theorem failed_generation_rolls_back (now : Z) (newid_grammar newid_kanji : nat -> Z)
    (s : store) (fs : list (option string)) (thrown : string) :
  fst (post_questions now newid_grammar newid_kanji s fs (inl thrown))
  = Status500 (match first_fault 1 fs with Some msg => msg | None => thrown end)
  /\ tabs (snd (post_questions now newid_grammar newid_kanji s fs (inl thrown)))
     = tabs s
  /\ forall today,
       get_exam_today today
         (snd (post_questions now newid_grammar newid_kanji s fs (inl thrown)))
       = get_exam_today today s.
Proof.
  assert (H : fst (post_questions now newid_grammar newid_kanji s fs (inl thrown))
              = Status500 (match first_fault 1 fs with
                           | Some msg => msg | None => thrown end)
              /\ tabs (snd (post_questions now newid_grammar newid_kanji s fs
                              (inl thrown))) = tabs s).
  { unfold post_questions, write_questions, bind, insert_QuestionBatch, statement,
      throw. cbn [faults]. destruct fs as [|[msg|] fs']; simpl; split; reflexivity. }
  destruct H as [H1 H2]. split; [exact H1|]. split; [exact H2|].
  intro today. now apply ExamFacts.get_exam_today_tabs.
Qed.

(** *** Sampling from a small table *)

Lemma select_top_size (A : Type) (n : nat) (newid : nat -> Z) (rows : list A) :
  length (select_top n newid rows) = Nat.min n (length rows).
Proof.
  unfold select_top. rewrite length_firstn.
  now rewrite <- (Permutation_length (ExamFacts.order_by_newid_perm newid rows)).
Qed.

Lemma select_top_whole (A : Type) (n : nat) (newid : nat -> Z) (rows : list A) :
  (length rows <= n)%nat -> Permutation (select_top n newid rows) rows.
Proof.
  intro H. unfold select_top. rewrite firstn_all2.
  - symmetry. apply ExamFacts.order_by_newid_perm.
  - now rewrite <- (Permutation_length (ExamFacts.order_by_newid_perm newid rows)).
Qed.

(** X19.  TOP n on a table with fewer than n rows.  The batch selector never
    fails for want of rows: the grammar sample holds min(5, rows) entries and
    the kanji sample min(10, rows), a table that is not larger than the
    sample size is taken whole, in the order of the random keys, and the
    write goes on with the shorter lists, down to two empty ones. *)
Theorem small_tables_are_sampled_whole (now : Z)
    (newid_grammar newid_kanji : nat -> Z) (s : store)
    (fs : list (option string)) (qs : list Question) :
  first_fault (S (inserts_of_questions qs)) fs = None ->
  exists body s',
    post_questions now newid_grammar newid_kanji s fs (inr qs) = (Json body, s')
    /\ length (grammar_used body) = Nat.min 5 (length (GrammarPoints (tabs s)))
    /\ length (kanji_used body) = Nat.min 10 (length (KanjiInfo (tabs s)))
    /\ ((length (GrammarPoints (tabs s)) <= 5)%nat ->
        Permutation (grammar_used body) (map Concept (GrammarPoints (tabs s))))
    /\ ((length (KanjiInfo (tabs s)) <= 10)%nat ->
        Permutation (kanji_used body) (map Kanji (KanjiInfo (tabs s)))).
Proof.
  intro Hf.
  rewrite (@ExamFacts.post_questions_ok now newid_grammar newid_kanji s fs qs Hf).
  eexists. eexists. split; [reflexivity|].
  cbn [grammar_used kanji_used]. unfold sample_grammar, sample_kanji.
  rewrite !length_map, !select_top_size.
  repeat split; intro H; apply Permutation_map; now apply select_top_whole.
Qed.

Lemma small_tables_are_sampled_whole_witness :
  first_fault (S (inserts_of_questions [sound_question])) [] = None
  /\ exists body s',
       post_questions 100 sample_newid sample_newid exam_store []
         (inr [sound_question]) = (Json body, s')
       /\ grammar_used body = [] /\ kanji_used body = [].
Proof.
  split; [reflexivity|].
  destruct (@small_tables_are_sampled_whole 100 sample_newid sample_newid
              exam_store [] [sound_question] eq_refl)
    as [body [s' [H [Hg [Hk _]]]]].
  exists body, s'. split; [exact H|].
  simpl in Hg, Hk. split.
  - destruct (grammar_used body); [reflexivity | discriminate].
  - destruct (kanji_used body); [reflexivity | discriminate].
Defined.

End ExamReaderFacts.
